(** * Active-set method for convex quadratic programs

    A shallow embedding of the notebook
    [Active-set methods for convex QPs]: the functions [active_set],
    [QP_subproblem] and [QP_activeset], and the properties of the
    working-set iteration.

    The functions are embedded twice.  The first embedding idealises
    the numbers of the arrays as exact rationals; it carries the
    properties that hold in exact arithmetic and those of the control
    flow.  The second, [Computed], is over the numbers that the arrays
    hold with the operations that NumPy applies to them, and [binary64]
    instantiates it with the [float64] numbers; it carries what the
    program does on the numbers it computes.

    Conventions of the embedding.
    - In the first embedding a number is an exact rational ([Qc],
      rationals in lowest terms, so that equality is Leibniz equality).
    - A vector (an [N x 1] or flat NumPy array) is a [list Qc]; a matrix
      is the list of its rows.  Arrays are assumed conformable (NumPy
      raises on a shape mismatch); on lists of different lengths the
      sums and differences below extend the shorter operand by zeros,
      which keeps the algebraic laws unconditional.
    - The [while(True)] loop is run with fuel: one unit of fuel is one
      pass through the loop body, and [None] means that the fuel ran
      out before the loop returned.
    - An exception is a value [Raised e]; what the code prints is the
      first component of [Returned]. *)

From Stdlib Require Import String QArith Qcanon List Bool Arith ZArith Lia Lqa
  Permutation Floats.
Import ListNotations.
Open Scope Qc_scope.

(* ================================================================== *)
(** * Numbers *)

(** [tol_zero = 1e-10] *)
Definition tol_zero : Qc := Q2Qc (1 # 10000000000).

Definition Qc_ltb (x y : Qc) : bool :=
  match x ?= y with Lt => true | _ => false end.

Definition Qc_leb (x y : Qc) : bool :=
  match x ?= y with Gt => false | _ => true end.

Definition Qc_abs (x : Qc) : Qc := if Qc_ltb x 0 then - x else x.

(** The integer [n] and the fraction [n / d]. *)
Definition z (n : Z) : Qc := Q2Qc (n # 1).
Definition q (n : Z) (d : positive) : Qc := Q2Qc (n # d).

(* ================================================================== *)
(** * Vectors and matrices *)

Definition vec : Type := list Qc.
Definition mat : Type := list vec.

Definition zeros (n : nat) : vec := repeat 0 n.

(** [np.zeros([r, k])] *)
Definition zeros2 (r k : nat) : mat := repeat (zeros k) r.

(** [a @ x] for a row [a] and a column [x]. *)
Fixpoint dot (a x : vec) : Qc :=
  match a, x with
  | a0 :: a', x0 :: x' => a0 * x0 + dot a' x'
  | _, _ => 0
  end.

(** [M @ x] *)
Definition matvec (M : mat) (x : vec) : vec := map (fun r => dot r x) M.

Fixpoint vadd (x y : vec) : vec :=
  match x, y with
  | [], _ => y
  | _, [] => x
  | x0 :: x', y0 :: y' => (x0 + y0) :: vadd x' y'
  end.

Definition vopp (x : vec) : vec := map Qcopp x.

Definition vscale (f : Qc) (x : vec) : vec := map (fun v => v * f) x.

Definition vsub (x y : vec) : vec := vadd x (vopp y).

Definition mopp (A : mat) : mat := map vopp A.

(** An [N x 1] array seen as a matrix of one column. *)
Definition column (v : vec) : mat := map (fun b => [b]) v.

(** [np.hstack((A, B))] *)
Fixpoint hstack (A B : mat) : mat :=
  match A, B with
  | a :: A', b :: B' => (a ++ b) :: hstack A' B'
  | _, _ => []
  end.

Definition col (j : nat) (A : mat) : vec := map (fun r => nth j r 0) A.

(** [A.T]; the number of columns of [A], which NumPy keeps in the shape
    of the array even when [A] has no row, is an argument. *)
Definition transpose (ncols : nat) (A : mat) : mat :=
  map (fun j => col j A) (seq 0 ncols).

(** [a B] for a row [a]: the combination of the rows of [B] with the
    coefficients [a]. *)
Fixpoint vecmat (a : vec) (B : mat) : vec :=
  match a, B with
  | a0 :: a', r :: B' => vadd (vscale a0 r) (vecmat a' B')
  | _, _ => []
  end.

(** [A @ B] *)
Definition mmul (A B : mat) : mat := map (fun a => vecmat a B) A.

Definition unit_vec (n i : nat) : vec :=
  map (fun k => if Nat.eqb k i then 1 else 0) (seq 0 n).

Definition identity (n : nat) : mat := map (unit_vec n) (seq 0 n).

(** Boolean-mask indexing [l[mask]]. *)
Fixpoint mask_rows {A : Type} (mask : list bool) (l : list A) : list A :=
  match mask, l with
  | m :: mask', x :: l' =>
      if m then x :: mask_rows mask' l' else mask_rows mask' l'
  | _, _ => []
  end.

(** [np.delete(l, n, axis=0)] for [n] in range. *)
Fixpoint delete_row {A : Type} (n : nat) (l : list A) : list A :=
  match l, n with
  | [], _ => []
  | _ :: l', O => l'
  | x :: l', S n' => x :: delete_row n' l'
  end.

(** [np.count_nonzero] *)
Definition count_nonzero (v : vec) : nat :=
  length (filter (fun x => negb (Qc_eq_bool x 0)) v).

(** [np.argmin] on a non-empty array: the first index of the least
    entry, together with that entry.  [None] on the empty array, where
    NumPy raises. *)
Fixpoint argmin (l : vec) : option (nat * Qc) :=
  match l with
  | [] => None
  | v :: l' =>
      match argmin l' with
      | None => Some (O, v)
      | Some (i, m) => if Qc_leb v m then Some (O, v) else Some (S i, m)
      end
  end.

(* ================================================================== *)
(** * The matrix inverse

    [np.linalg.inv] belongs to NumPy, not to the notebook.  In exact
    arithmetic it is Gauss-Jordan elimination on the rows of [K | I];
    [None] stands for [LinAlgError] (the matrix is not square, or it is
    singular). *)

(** A row [(m, n)] of the augmented matrix [M | N]. *)
Definition arow : Type := (vec * vec)%type.

Definition arow_scale (f : Qc) (r : arow) : arow :=
  (vscale f (fst r), vscale f (snd r)).

(** [r - f p] *)
Definition arow_sub (f : Qc) (p r : arow) : arow :=
  (vsub (fst r) (vscale f (fst p)), vsub (snd r) (vscale f (snd p))).

(** Clear column [j] of [r] with the pivot row [p], whose entry in
    column [j] is 1. *)
Definition eliminate (j : nat) (p r : arow) : arow :=
  arow_sub (nth j (fst r) 0) p r.

(** The first row with a non-zero entry in column [j], and the other
    rows in their order. *)
Fixpoint find_pivot (j : nat) (rows : list arow) : option (arow * list arow) :=
  match rows with
  | [] => None
  | r :: rest =>
      if Qc_eq_bool (nth j (fst r) 0) 0 then
        match find_pivot j rest with
        | Some (p, others) => Some (p, r :: others)
        | None => None
        end
      else Some (r, rest)
  end.

(** [done] holds the pivot rows of columns [0 .. j-1], in that order;
    [todo] the rows that have not served as a pivot. *)
Fixpoint gauss_jordan (steps j : nat) (done todo : list arow)
  : option (list arow) :=
  match steps with
  | O => Some done
  | S k =>
      match find_pivot j todo with
      | None => None
      | Some (p, others) =>
          let p1 := arow_scale (/ nth j (fst p) 0) p in
          gauss_jordan k (S j)
            (map (eliminate j p1) done ++ [p1])
            (map (eliminate j p1) others)
      end
  end.

Definition is_square (K : mat) : bool :=
  forallb (fun r => Nat.eqb (length r) (length K)) K.

Definition inv (K : mat) : option mat :=
  if is_square K then
    match gauss_jordan (length K) 0 [] (combine K (identity (length K))) with
    | Some rows => Some (map snd rows)
    | None => None
    end
  else None.

(** [K] is square and has a two-sided inverse. *)
Definition invertible (K : mat) : Prop :=
  is_square K = true /\
  exists Ki : mat,
    mmul Ki K = identity (length K) /\ mmul K Ki = identity (length K).

(* ================================================================== *)
(** * [active_set] *)

Definition active_set (ai : mat) (bi : vec) (x0 : vec) : mat * mat :=
  let n_active_row :=
    map (fun v => Qc_eq_bool v 0) (vsub (matvec ai x0) bi) in
  let n_inactive_row := map negb n_active_row in
  let active_set :=
    hstack (mask_rows n_active_row ai) (column (mask_rows n_active_row bi)) in
  let inactive_set :=
    hstack (mask_rows n_inactive_row ai)
           (column (mask_rows n_inactive_row bi)) in
  (active_set, inactive_set).

(* ================================================================== *)
(** * [QP_subproblem] *)

(** [sol[abs(sol) < tol_zero] = 0.0], on one entry. *)
Definition snap (v : Qc) : Qc :=
  if Qc_ltb (Qc_abs v) tol_zero then 0 else v.

(** [A = ws[:,0:-1]] *)
Definition coefficients (ws : mat) : mat := map (@removelast Qc) ws.

(** [lhs], the matrix [[G, -A.T], [A, 0]]. *)
Definition kkt_lhs (G : mat) (ws : mat) (Nx : nat) : mat :=
  let Nlambda := length ws in
  let A := coefficients ws in
  hstack G (mopp (transpose Nx A)) ++ hstack A (zeros2 Nlambda Nlambda).

(** [rhs], the column [[-gk], [0]]. *)
Definition kkt_rhs (G : mat) (c : vec) (ws : mat) (xk : vec) : vec :=
  let Nlambda := length ws in
  let gk := vadd (matvec G xk) c in
  vopp gk ++ zeros Nlambda.

(** [np.linalg.inv(lhs) @ rhs], the solution before the snap. *)
Definition kkt_solution (G : mat) (c : vec) (ws : mat) (xk : vec)
  : option vec :=
  match inv (kkt_lhs G ws (length xk)) with
  | None => None
  | Some Ki => Some (matvec Ki (kkt_rhs G c ws xk))
  end.

Definition QP_subproblem (G : mat) (c : vec) (ws : mat) (xk : vec)
  : option (vec * vec) :=
  let Nx := length xk in
  match kkt_solution G c ws xk with
  | None => None
  | Some sol =>
      let sol := map snap sol in
      Some (firstn Nx sol, skipn Nx sol)
  end.

(* ================================================================== *)
(** * [QP_activeset] *)

(** The exceptions of the code: a singular matrix in [np.linalg.inv], a
    row index out of range, an absent right-hand side in a difference,
    [np.argmin] of an empty array, a variable read before it is
    assigned. *)
Inductive exn : Type :=
  LinAlgError | IndexError | TypeError | ValueError | NameError.

(** The value of a [return]: [None], or the pair [xk, lambda_k]. *)
Inductive pyvalue : Type :=
| PyNone
| PyPair (x lam : vec).

Inductive result : Type :=
| Returned (stdout : list string) (v : pyvalue)
| Raised (e : exn).

(** The variables of the loop. *)
Record state : Type := mkState {
  xk : vec;
  ws_active : mat;
  ws_inactive : mat;
  ws : mat
}.

(** One pass of the [for i,row in enumerate(ws_inactive)] loop on the
    pair [(alpha_k, n_constraint)].  [n_constraint] is [None] until the
    loop assigns it; the code reads it only when [alpha_k] is not 1,
    that is after an assignment of the same sweep. *)
Definition alpha_update (xk pk : vec) (acc : Qc * option nat)
  (irow : nat * vec) : Qc * option nat :=
  let b := last (snd irow) 0 in
  let a := removelast (snd irow) in
  if Qc_ltb (dot a pk) 0 then
    let v_tmp := (b - dot a xk) / dot a pk in
    if Qc_ltb v_tmp 1 then (v_tmp, Some (fst irow)) else acc
  else acc.

Definition enumerate {A : Type} (l : list A) : list (nat * A) :=
  combine (seq 0 (length l)) l.

Definition step_length (ws_inactive : mat) (xk pk : vec) : Qc * option nat :=
  fold_left (alpha_update xk pk) (enumerate ws_inactive) (1, None).

(** What one pass through the body of [while(True)] does. *)
Inductive outcome : Type :=
| Continue (s : state)
| Return (x lam : vec)
| Raise (e : exn).

Definition iteration (G : mat) (c : vec) (Nx Ne : nat) (we : mat)
  (s : state) : outcome :=
  match QP_subproblem G c (ws s) (xk s) with
  | None => Raise LinAlgError
  | Some (pk, lambda_k) =>
      let lambda_inequality :=
        if Nat.ltb Ne (length lambda_k) then skipn Ne lambda_k else [] in
      let n_zero := (Z.of_nat Nx - Z.of_nat (count_nonzero pk))%Z in
      if Z.eqb n_zero (Z.of_nat Nx) then
        if forallb (fun l => Qc_leb 0 l) lambda_inequality then
          Return (xk s) lambda_k
        else
          match argmin lambda_inequality with
          | None => Raise ValueError
          | Some (n_min, _) =>
              match nth_error (ws_active s) n_min with
              | None => Raise IndexError
              | Some row_del =>
                  let ws_active' := delete_row n_min (ws_active s) in
                  let ws_inactive' := ws_inactive s ++ [row_del] in
                  Continue (mkState (xk s) ws_active' ws_inactive'
                                    (we ++ ws_active'))
              end
          end
      else
        let (alpha_k, n_constraint) :=
          step_length (ws_inactive s) (xk s) pk in
        if Qc_eq_bool alpha_k 1 then
          Continue (mkState (vadd (xk s) (vscale alpha_k pk))
                            (ws_active s) (ws_inactive s) (ws s))
        else
          match n_constraint with
          | None => Raise NameError
          | Some n =>
              match nth_error (ws_inactive s) n with
              | None => Raise IndexError
              | Some row_inc =>
                  let ws_active' := ws_active s ++ [row_inc] in
                  let ws_inactive' := delete_row n (ws_inactive s) in
                  Continue (mkState (vadd (xk s) (vscale alpha_k pk))
                                    ws_active' ws_inactive'
                                    (we ++ ws_active'))
              end
          end
  end.

(** The [while(True)] loop. *)
Fixpoint loop (fuel : nat) (G : mat) (c : vec) (Nx Ne : nat) (we : mat)
  (s : state) : option result :=
  match fuel with
  | O => None
  | S fuel' =>
      match iteration G c Nx Ne we s with
      | Continue s' => loop fuel' G c Nx Ne we s'
      | Return x lam => Some (Returned ["solution find"%string] (PyPair x lam))
      | Raise e => Some (Raised e)
      end
  end.

(** The state before pass [k] of the loop, when the loop gets there. *)
Fixpoint state_at (k : nat) (G : mat) (c : vec) (Nx Ne : nat) (we : mat)
  (s : state) : option state :=
  match k with
  | O => Some s
  | S k' =>
      match iteration G c Nx Ne we s with
      | Continue s' => state_at k' G c Nx Ne we s'
      | _ => None
      end
  end.

(** [np.all(M @ x0 - b == 0)] and [np.all(M @ x0 - b >= 0)] *)
Definition all_zero (v : vec) : bool := forallb (fun e => Qc_eq_bool e 0) v.
Definition all_nonneg (v : vec) : bool := forallb (fun e => Qc_leb 0 e) v.

(** The test of the starting point against one optional block of
    constraints: [Some r] when the function leaves with [r] there.
    Subtracting an absent right-hand side ([None]) from an array is a
    [TypeError]. *)
Definition feasibility_check (test : vec -> bool) (a : option mat)
  (b : option vec) (x0 : vec) : option result :=
  match a with
  | None => None
  | Some a =>
      match b with
      | None => Some (Raised TypeError)
      | Some b =>
          if test (vsub (matvec a x0) b) then None
          else Some (Returned ["Error"%string] PyNone)
      end
  end.

(** A right-hand side that the feasibility test has found present. *)
Definition present (b : option vec) : vec :=
  match b with Some b => b | None => [] end.

(** The starting point: [x0], or [np.zeros(Nx)] when it is omitted. *)
Definition start_point (Nx : nat) (x0 : option vec) : vec :=
  match x0 with None => zeros Nx | Some x => x end.

(** [Ne], and the block [we] of the equality rows. *)
Definition equality_count (ae : option mat) : nat :=
  match ae with Some a => length a | None => O end.

Definition equality_rows (ae : option mat) (be : option vec) : mat :=
  match ae with
  | None => []
  | Some a => hstack a (column (present be))
  end.

(** The state at the entry of the loop. *)
Definition initial_state (ae : option mat) (be : option vec)
  (ai : option mat) (bi : option vec) (xk : vec) : state :=
  let (ws_active, ws_inactive) :=
    match ai with
    | Some a => active_set a (present bi) xk
    | None => ([], [])
    end in
  let we := equality_rows ae be in
  mkState xk ws_active ws_inactive (we ++ ws_active).

Definition QP_activeset (fuel : nat) (G : mat) (c : vec)
  (ae : option mat) (be : option vec) (ai : option mat) (bi : option vec)
  (x0 : option vec) : option result :=
  let Nx := length G in
  let x0 := start_point Nx x0 in
  match feasibility_check all_zero ae be x0 with
  | Some r => Some r
  | None =>
      match feasibility_check all_nonneg ai bi x0 with
      | Some r => Some r
      | None =>
          loop fuel G c Nx (equality_count ae) (equality_rows ae be)
               (initial_state ae be ai bi x0)
      end
  end.

(* ================================================================== *)
(** * The program on the numbers of the arrays

    The definitions above idealise the numbers of the arrays as exact
    rationals.  [Computed] embeds the same three functions over the
    numbers that the arrays hold and the operations that NumPy applies
    to them, whatever they are: an [arithmetic] gives the numbers with
    their operations and comparisons, and [inv] stands for
    [np.linalg.inv].  The arrays of one call hold numbers of one type.
    [binary64] is the arithmetic of [float64] arrays. *)

Module Computed.

Record arithmetic : Type := {
  num : Type;
  zero : num;
  one : num;
  add : num -> num -> num;
  sub : num -> num -> num;
  mul : num -> num -> num;
  div : num -> num -> num;
  opp : num -> num;
  abs : num -> num;
  eqb : num -> num -> bool;
  ltb : num -> num -> bool;
  leb : num -> num -> bool;
  (** [tol_zero = 1e-10] *)
  tol_zero : num
}.

Section Program.

Context (ar : arithmetic).

Local Abbreviation number := (num ar).

Definition vec : Type := list number.
Definition mat : Type := list vec.

(** [np.linalg.inv]; [None] stands for [LinAlgError]. *)
Variable inv : mat -> option mat.

Definition zeros (n : nat) : vec := repeat (zero ar) n.
Definition zeros2 (r k : nat) : mat := repeat (zeros k) r.

(** [a @ x] for a row [a] and a column [x], summed from the left. *)
Definition dot (a x : vec) : number :=
  fold_left (fun acc p => add ar acc (mul ar (fst p) (snd p)))
            (combine a x) (zero ar).

Definition matvec (M : mat) (x : vec) : vec := map (fun r => dot r x) M.

Fixpoint zip (f : number -> number -> number) (x y : vec) : vec :=
  match x, y with
  | x0 :: x', y0 :: y' => f x0 y0 :: zip f x' y'
  | _, _ => []
  end.

Definition vadd (x y : vec) : vec := zip (add ar) x y.
Definition vsub (x y : vec) : vec := zip (sub ar) x y.
Definition vopp (x : vec) : vec := map (opp ar) x.
Definition vscale (f : number) (x : vec) : vec :=
  map (fun v => mul ar v f) x.
Definition mopp (A : mat) : mat := map vopp A.

Definition column (v : vec) : mat := map (fun b => [b]) v.

Fixpoint hstack (A B : mat) : mat :=
  match A, B with
  | a :: A', b :: B' => (a ++ b) :: hstack A' B'
  | _, _ => []
  end.

Definition col (j : nat) (A : mat) : vec :=
  map (fun r => nth j r (zero ar)) A.

Definition transpose (ncols : nat) (A : mat) : mat :=
  map (fun j => col j A) (seq 0 ncols).

(** [np.count_nonzero] *)
Definition count_nonzero (v : vec) : nat :=
  length (filter (fun x => negb (eqb ar x (zero ar))) v).

(** [np.argmin] *)
Fixpoint argmin (l : vec) : option (nat * number) :=
  match l with
  | [] => None
  | v :: l' =>
      match argmin l' with
      | None => Some (O, v)
      | Some (i, m) => if leb ar v m then Some (O, v) else Some (S i, m)
      end
  end.

(** [active_set] *)
Definition active_set (ai : mat) (bi : vec) (x0 : vec) : mat * mat :=
  let n_active_row :=
    map (fun v => eqb ar v (zero ar)) (vsub (matvec ai x0) bi) in
  let n_inactive_row := map negb n_active_row in
  let active_set :=
    hstack (mask_rows n_active_row ai) (column (mask_rows n_active_row bi)) in
  let inactive_set :=
    hstack (mask_rows n_inactive_row ai)
           (column (mask_rows n_inactive_row bi)) in
  (active_set, inactive_set).

(** [QP_subproblem] *)
Definition snap (v : number) : number :=
  if ltb ar (abs ar v) (tol_zero ar) then zero ar else v.

Definition coefficients (ws : mat) : mat := map (@removelast number) ws.

Definition kkt_lhs (G : mat) (ws : mat) (Nx : nat) : mat :=
  let Nlambda := length ws in
  let A := coefficients ws in
  hstack G (mopp (transpose Nx A)) ++ hstack A (zeros2 Nlambda Nlambda).

Definition kkt_rhs (G : mat) (c : vec) (ws : mat) (xk : vec) : vec :=
  let Nlambda := length ws in
  let gk := vadd (matvec G xk) c in
  vopp gk ++ zeros Nlambda.

Definition QP_subproblem (G : mat) (c : vec) (ws : mat) (xk : vec)
  : option (vec * vec) :=
  let Nx := length xk in
  match inv (kkt_lhs G ws Nx) with
  | None => None
  | Some Ki =>
      let sol := matvec Ki (kkt_rhs G c ws xk) in
      let sol := map snap sol in
      Some (firstn Nx sol, skipn Nx sol)
  end.

(** [QP_activeset] *)
Inductive pyvalue : Type :=
| PyNone
| PyPair (x lam : vec).

Inductive result : Type :=
| Returned (stdout : list string) (v : pyvalue)
| Raised (e : exn).

Record state : Type := mkState {
  xk : vec;
  ws_active : mat;
  ws_inactive : mat;
  ws : mat
}.

Definition alpha_update (xk pk : vec) (acc : number * option nat)
  (irow : nat * vec) : number * option nat :=
  let b := last (snd irow) (zero ar) in
  let a := removelast (snd irow) in
  if ltb ar (dot a pk) (zero ar) then
    let v_tmp := div ar (sub ar b (dot a xk)) (dot a pk) in
    if ltb ar v_tmp (one ar) then (v_tmp, Some (fst irow)) else acc
  else acc.

Definition step_length (ws_inactive : mat) (xk pk : vec)
  : number * option nat :=
  fold_left (alpha_update xk pk) (enumerate ws_inactive) (one ar, None).

(** [v_tmp] for a row, and the two tests of the sweep on it. *)
Definition ratio (xk pk row : vec) : number :=
  div ar (sub ar (last row (zero ar)) (dot (removelast row) xk))
      (dot (removelast row) pk).

Definition blocks (xk pk row : vec) : bool :=
  ltb ar (dot (removelast row) pk) (zero ar)
  && ltb ar (ratio xk pk row) (one ar).

Inductive outcome : Type :=
| Continue (s : state)
| Return (x lam : vec)
| Raise (e : exn).

Definition iteration (G : mat) (c : vec) (Nx Ne : nat) (we : mat)
  (s : state) : outcome :=
  match QP_subproblem G c (ws s) (xk s) with
  | None => Raise LinAlgError
  | Some (pk, lambda_k) =>
      let lambda_inequality :=
        if Nat.ltb Ne (length lambda_k) then skipn Ne lambda_k else [] in
      let n_zero := (Z.of_nat Nx - Z.of_nat (count_nonzero pk))%Z in
      if Z.eqb n_zero (Z.of_nat Nx) then
        if forallb (fun l => leb ar (zero ar) l) lambda_inequality then
          Return (xk s) lambda_k
        else
          match argmin lambda_inequality with
          | None => Raise ValueError
          | Some (n_min, _) =>
              match nth_error (ws_active s) n_min with
              | None => Raise IndexError
              | Some row_del =>
                  let ws_active' := delete_row n_min (ws_active s) in
                  let ws_inactive' := ws_inactive s ++ [row_del] in
                  Continue (mkState (xk s) ws_active' ws_inactive'
                                    (we ++ ws_active'))
              end
          end
      else
        let (alpha_k, n_constraint) :=
          step_length (ws_inactive s) (xk s) pk in
        if eqb ar alpha_k (one ar) then
          Continue (mkState (vadd (xk s) (vscale alpha_k pk))
                            (ws_active s) (ws_inactive s) (ws s))
        else
          match n_constraint with
          | None => Raise NameError
          | Some n =>
              match nth_error (ws_inactive s) n with
              | None => Raise IndexError
              | Some row_inc =>
                  let ws_active' := ws_active s ++ [row_inc] in
                  let ws_inactive' := delete_row n (ws_inactive s) in
                  Continue (mkState (vadd (xk s) (vscale alpha_k pk))
                                    ws_active' ws_inactive'
                                    (we ++ ws_active'))
              end
          end
  end.

Fixpoint loop (fuel : nat) (G : mat) (c : vec) (Nx Ne : nat) (we : mat)
  (s : state) : option result :=
  match fuel with
  | O => None
  | S fuel' =>
      match iteration G c Nx Ne we s with
      | Continue s' => loop fuel' G c Nx Ne we s'
      | Return x lam => Some (Returned ["solution find"%string] (PyPair x lam))
      | Raise e => Some (Raised e)
      end
  end.

Definition all_zero (v : vec) : bool :=
  forallb (fun e => eqb ar e (zero ar)) v.
Definition all_nonneg (v : vec) : bool :=
  forallb (fun e => leb ar (zero ar) e) v.

Definition feasibility_check (test : vec -> bool) (a : option mat)
  (b : option vec) (x0 : vec) : option result :=
  match a with
  | None => None
  | Some a =>
      match b with
      | None => Some (Raised TypeError)
      | Some b =>
          if test (vsub (matvec a x0) b) then None
          else Some (Returned ["Error"%string] PyNone)
      end
  end.

Definition present (b : option vec) : vec :=
  match b with Some b => b | None => [] end.

Definition start_point (Nx : nat) (x0 : option vec) : vec :=
  match x0 with None => zeros Nx | Some x => x end.

Definition equality_count (ae : option mat) : nat :=
  match ae with Some a => length a | None => O end.

Definition equality_rows (ae : option mat) (be : option vec) : mat :=
  match ae with
  | None => []
  | Some a => hstack a (column (present be))
  end.

Definition initial_state (ae : option mat) (be : option vec)
  (ai : option mat) (bi : option vec) (xk : vec) : state :=
  let (ws_active, ws_inactive) :=
    match ai with
    | Some a => active_set a (present bi) xk
    | None => ([], [])
    end in
  let we := equality_rows ae be in
  mkState xk ws_active ws_inactive (we ++ ws_active).

Definition QP_activeset (fuel : nat) (G : mat) (c : vec)
  (ae : option mat) (be : option vec) (ai : option mat) (bi : option vec)
  (x0 : option vec) : option result :=
  let Nx := length G in
  let x0 := start_point Nx x0 in
  match feasibility_check all_zero ae be x0 with
  | Some r => Some r
  | None =>
      match feasibility_check all_nonneg ai bi x0 with
      | Some r => Some r
      | None =>
          loop fuel G c Nx (equality_count ae) (equality_rows ae be)
               (initial_state ae be ai bi x0)
      end
  end.

(** The shapes of the docstring of [QP_activeset]. *)
Definition block_shaped (Nx : nat) (a : option mat) (b : option vec) : Prop :=
  match a, b with
  | None, _ => True
  | Some a, Some b => Forall (fun r => length r = Nx) a /\ length b = length a
  | Some _, None => False
  end.

Definition well_shaped (G : mat) (c : vec) (ae : option mat)
  (be : option vec) (ai : option mat) (bi : option vec) (x0 : option vec)
  : Prop :=
  Forall (fun r => length r = length G) G /\
  length c = length G /\
  length (start_point (length G) x0) = length G /\
  block_shaped (length G) ae be /\
  block_shaped (length G) ai bi.

(** Some entry of the residual [a @ x - b] of a supplied block fails
    [test]. *)
Definition fails (test : number -> bool) (a : option mat) (b : option vec)
  (x : vec) : Prop :=
  match a, b with
  | Some a, Some b => Exists (fun v => test v = false) (vsub (matvec a x) b)
  | _, _ => False
  end.

(** Gauss-Jordan elimination on the rows of [K | I] with the operations
    of [ar], the pivot of a column being its first entry of greatest
    absolute value. *)
Definition arow : Type := (vec * vec)%type.

Definition arow_div (f : number) (r : arow) : arow :=
  (map (fun v => div ar v f) (fst r), map (fun v => div ar v f) (snd r)).

Definition arow_sub (f : number) (p r : arow) : arow :=
  (vsub (fst r) (map (fun v => mul ar f v) (fst p)),
   vsub (snd r) (map (fun v => mul ar f v) (snd p))).

Definition eliminate (j : nat) (p r : arow) : arow :=
  arow_sub (nth j (fst r) (zero ar)) p r.

Fixpoint find_pivot (j : nat) (rows : list arow) : option (arow * list arow) :=
  match rows with
  | [] => None
  | r :: rest =>
      match find_pivot j rest with
      | Some (p, others) =>
          if ltb ar (abs ar (nth j (fst r) (zero ar)))
                    (abs ar (nth j (fst p) (zero ar)))
          then Some (p, r :: others) else Some (r, rest)
      | None =>
          if eqb ar (nth j (fst r) (zero ar)) (zero ar) then None
          else Some (r, rest)
      end
  end.

Fixpoint gauss_jordan (steps j : nat) (done todo : list arow)
  : option (list arow) :=
  match steps with
  | O => Some done
  | S k =>
      match find_pivot j todo with
      | None => None
      | Some (p, others) =>
          let p1 := arow_div (nth j (fst p) (zero ar)) p in
          gauss_jordan k (S j)
            (map (eliminate j p1) done ++ [p1])
            (map (eliminate j p1) others)
      end
  end.

Definition unit_vec (n i : nat) : vec :=
  map (fun k => if Nat.eqb k i then one ar else zero ar) (seq 0 n).

Definition identity (n : nat) : mat := map (unit_vec n) (seq 0 n).

Definition elimination (K : mat) : option mat :=
  if forallb (fun r => Nat.eqb (length r) (length K)) K then
    match gauss_jordan (length K) 0 [] (combine K (identity (length K))) with
    | Some rows => Some (map snd rows)
    | None => None
    end
  else None.

End Program.

(** [float64]: the binary64 numbers with the IEEE 754 operations,
    rounding to nearest. *)
Definition binary64 : arithmetic := {|
  num := float;
  zero := 0%float;
  one := 1%float;
  add := PrimFloat.add;
  sub := PrimFloat.sub;
  mul := PrimFloat.mul;
  div := PrimFloat.div;
  opp := PrimFloat.opp;
  abs := PrimFloat.abs;
  eqb := PrimFloat.eqb;
  ltb := PrimFloat.ltb;
  leb := PrimFloat.leb;
  tol_zero := 0x1.b7cdfd9d7bdbbp-34%float
|}.

(** [np.linalg.inv] on [float64] arrays is LAPACK's.  On a matrix of
    one entry [a] it gives the rounded quotient [1 / a], and
    [LinAlgError] when [a] is zero, as the elimination does; the
    statements on [binary64] below solve systems of one equation
    only. *)
Definition inv64 : mat binary64 -> option (mat binary64) :=
  elimination binary64.

End Computed.

(* ================================================================== *)
(** * Predicates of the statements *)

(** ** Elimination *)

(** The equation [m x = n b] of the row [(m, n)] of [M | N]. *)
Definition row_holds (x b : vec) (r : arow) : Prop :=
  dot (fst r) x = dot (snd r) b.

(** Columns [0 .. j-1] are cleared: row [i] of [done] has the entries of
    the unit vector [i] there, and the rows of [todo] have zeros. *)
Definition reduced (j : nat) (done todo : list arow) : Prop :=
  length done = j /\
  (forall i r k, nth_error done i = Some r -> (k < j)%nat ->
                 nth k (fst r) 0 = if Nat.eqb k i then 1 else 0) /\
  (forall r k, In r todo -> (k < j)%nat -> nth k (fst r) 0 = 0).

(** When no pivot is left for column [j], the rows have a common
    non-zero solution with right-hand side zero. *)
Definition kernel_vector (j steps : nat) (done : list arow) : vec :=
  map (fun r : arow => - nth j (fst r) 0) done ++ 1 :: zeros (steps - 1).

(** ** The tests of the loop *)

Definition all_zeros (v : vec) : Prop := Forall (fun e => e = 0) v.
Definition all_nonnegative (v : vec) : Prop := Forall (fun e => 0 <= e) v.

(** Row [i] of [a x0 = b], or of [a x0 >= b], fails. *)
Definition violates_equality (a : mat) (b x0 : vec) : Prop :=
  exists i, (i < length a)%nat /\ nth i (matvec a x0) 0 <> nth i b 0.

Definition violates_inequality (a : mat) (b x0 : vec) : Prop :=
  exists i, (i < length a)%nat /\ nth i (matvec a x0) 0 < nth i b 0.

(** ** The step length *)

(** [(b - a @ xk) / (a @ pk)] for the row [[a | b]]. *)
Definition ratio (xk pk row : vec) : Qc :=
  (last row 0 - dot (removelast row) xk) / dot (removelast row) pk.

(** The row passes both tests of the [for] loop. *)
Definition blocking (xk pk row : vec) : Prop :=
  dot (removelast row) pk < 0 /\ ratio xk pk row < 1.

(** ** Shapes *)

(** The iterate has the size of [G], and [ws] is [we] followed by
    [ws_active]. *)
Definition consistent (G : mat) (Ne : nat) (we : mat) (s : state) : Prop :=
  length G = length (xk s) /\ ws s = we ++ ws_active s /\ length we = Ne.

Definition shaped (G : mat) (Ne : nat) (we : mat) (s : state) : Prop :=
  consistent G Ne we s /\
  Forall (fun r => length r = S (length G))
         (we ++ ws_active s ++ ws_inactive s).

(** A block of constraints has rows of [Nx] coefficients and one
    right-hand side for each row. *)
Definition block_shaped (Nx : nat) (a : option mat) (b : option vec) : Prop :=
  match a, b with
  | None, _ => True
  | Some a, Some b => Forall (fun r => length r = Nx) a /\ length b = length a
  | Some _, None => False
  end.

(** The shapes of the docstring of [QP_activeset]. *)
Definition well_shaped (G : mat) (c : vec) (ae : option mat)
  (be : option vec) (ai : option mat) (bi : option vec) (x0 : option vec)
  : Prop :=
  Forall (fun r => length r = length G) G /\
  length c = length G /\
  length (start_point (length G) x0) = length G /\
  block_shaped (length G) ae be /\
  block_shaped (length G) ai bi.

(** ** The passes of the loop *)

(** [pass G c Ne we s s']: the body of the loop, run in [s], goes on
    with [s']: it drops a row, takes the full step, or takes a shorter
    step and adds a row. *)
Inductive pass (G : mat) (c : vec) (Ne : nat) (we : mat) (s : state)
  : state -> Prop :=
| pass_drop (pk lam : vec) (n : nat) (m : Qc) (row : vec) :
    QP_subproblem G c (ws s) (xk s) = Some (pk, lam) ->
    all_zeros pk ->
    ~ all_nonnegative (skipn Ne lam) ->
    argmin (skipn Ne lam) = Some (n, m) ->
    nth_error (ws_active s) n = Some row ->
    pass G c Ne we s
      (mkState (xk s) (delete_row n (ws_active s)) (ws_inactive s ++ [row])
               (we ++ delete_row n (ws_active s)))
| pass_full (pk lam : vec) (n_constraint : option nat) :
    QP_subproblem G c (ws s) (xk s) = Some (pk, lam) ->
    ~ all_zeros pk ->
    step_length (ws_inactive s) (xk s) pk = (1, n_constraint) ->
    pass G c Ne we s
      (mkState (vadd (xk s) (vscale 1 pk)) (ws_active s) (ws_inactive s)
               (ws s))
| pass_partial (pk lam : vec) (alpha_k : Qc) (n : nat) (row : vec) :
    QP_subproblem G c (ws s) (xk s) = Some (pk, lam) ->
    ~ all_zeros pk ->
    step_length (ws_inactive s) (xk s) pk = (alpha_k, Some n) ->
    alpha_k <> 1 ->
    nth_error (ws_inactive s) n = Some row ->
    pass G c Ne we s
      (mkState (vadd (xk s) (vscale alpha_k pk)) (ws_active s ++ [row])
               (delete_row n (ws_inactive s))
               (we ++ ws_active s ++ [row])).

(** ** The working set *)

(** The row [[a | b]] of a constraint [(a, b)]. *)
Definition row_of (r : vec * Qc) : vec := fst r ++ [snd r].

(** [a x0 - b == 0] *)
Definition is_active (x0 : vec) (r : vec * Qc) : bool :=
  Qc_eq_bool (dot (fst r) x0 - snd r) 0.

(** [x] satisfies the row [[a | b]] with equality: [a x = b]. *)
Definition on_constraint (x row : vec) : Prop :=
  dot (removelast row) x = last row 0.

(** The rows [[A_i | b_i]] of the inequality block. *)
Definition inequality_rows (ai : option mat) (bi : option vec) : mat :=
  match ai with
  | Some a => hstack a (column (present bi))
  | None => []
  end.

(** The snap leaves the step of the state [s] as the solve gave it. *)
Definition snap_exact (G : mat) (c : vec) (s : state) : Prop :=
  forall sol,
    kkt_solution G c (ws s) (xk s) = Some sol ->
    firstn (length (xk s)) (map snap sol) = firstn (length (xk s)) sol.

(** ** Numbers of binary64 *)

(** The rational number that a finite binary64 number stands for
    (0 for the infinities and NaN, which the problems below do not
    produce). *)
Definition exact_value (x : float) : Qc :=
  match Prim2SF x with
  | S754_finite s m e =>
      let v := match e with
               | Z0 => Z.pos m # 1
               | Zpos p => (Z.pos m * 2 ^ Z.pos p) # 1
               | Zneg p => Z.pos m # (2 ^ p)
               end in
      if s then Q2Qc (- v) else Q2Qc v
  | _ => 0
  end.

(** ** Solving again *)

(** The exact test of [active_set] on a row [[a | b]]. *)
Definition row_is_active (x row : vec) : bool :=
  Qc_eq_bool (dot (removelast row) x - last row 0) 0.

(** [sum_i a_ij m_i] over pairs of a row [[a_i | b_i]] and a multiplier
    [m_i]: entry [j] of [A^T m]. *)
Definition weighted (j : nat) (pairs : list (vec * Qc)) : Qc :=
  fold_right (fun p acc => nth j (removelast (fst p)) 0 * snd p + acc)
             0 pairs.

(** ** Feasible points and the objective *)

(** A row [[a | b]] of an inequality block holds at [x]: [a x >= b],
    and holds strictly: [a x > b]. *)
Definition satisfied (x row : vec) : Prop :=
  last row 0 <= dot (removelast row) x.

Definition strictly_satisfied (x row : vec) : Prop :=
  last row 0 < dot (removelast row) x.

(** The snap of [QP_subproblem] changes no entry of the solution of the
    KKT system at the state [s]. *)
Definition snap_unchanged (G : mat) (c : vec) (s : state) : Prop :=
  forall sol,
    kkt_solution G c (ws s) (xk s) = Some sol -> map snap sol = sol.

(** The [alpha_k] that the sweep over [ws_inactive] ends with is not
    above the ratio of any blocking row. *)
Definition least_ratio (G : mat) (c : vec) (s : state) : Prop :=
  forall pk lambda_k row,
    QP_subproblem G c (ws s) (xk s) = Some (pk, lambda_k) ->
    In row (ws_inactive s) -> blocking (xk s) pk row ->
    fst (step_length (ws_inactive s) (xk s) pk) <= ratio (xk s) pk row.

(** [y] satisfies the equalities [ae y = be] and the inequalities
    [ai y >= bi] of the problem. *)
Definition feasible (ae : option mat) (be : option vec) (ai : option mat)
  (bi : option vec) (y : vec) : Prop :=
  Forall (on_constraint y) (equality_rows ae be) /\
  Forall (satisfied y) (inequality_rows ai bi).

(** The objective of the notebook: [q(x) = 1/2 x^T G x + x^T c]. *)
Definition objective (G : mat) (c x : vec) : Qc :=
  q 1 2 * dot x (matvec G x) + dot x c.

Definition symmetric (G : mat) : Prop := transpose (length G) G = G.

Definition positive_semidefinite (G : mat) : Prop :=
  forall v, length v = length G -> 0 <= dot v (matvec G v).

(** ** Equalities decided by evaluation *)

Definition decide_eq {A : Type} (dec : forall a b : A, {a = b} + {a <> b})
  (a b : A) : bool :=
  if dec a b then true else false.

(* ================================================================== *)
(** * Problems *)

(** Test 1 of the notebook *)
Definition test1_G : mat := [[z 2; z 0]; [z 0; z 2]].
Definition test1_c : vec := [z (-2); z (-5)].
Definition test1_ai : mat :=
  [[z 1; z (-2)]; [z (-1); z (-2)]; [z (-1); z 2]; [z 1; z 0]; [z 0; z 1]].
Definition test1_bi : vec := [z (-2); z (-6); z (-2); z 0; z 0].
Definition test1_x0 : vec := [z 2; z 0].

(** Test 2 and Test 3 of the notebook *)
Definition test2_G : mat := [[z 2; z 0]; [z 0; z 2]].
Definition test2_c : vec := [z 0; z 0].
Definition test2_ae : mat := [[z 1; z (-1)]].
Definition test2_be : vec := [z 0].
Definition test2_ai : mat := [[z 1; z 0]].
Definition test2_bi : vec := [z 1].
Definition test2_x0 : vec := [z 3; z 3].

(** Test 4 of the notebook *)
Definition test4_G : mat := [[z 2; z 0; z 0]; [z 0; z 2; z 0]; [z 0; z 0; z 2]].
Definition test4_c : vec := [z 0; z 0; z 0].
Definition test4_ae : mat := [[z 1; z 1; z 1]].
Definition test4_be : vec := [z 1].
Definition test4_x0 : vec := [z 3; z 3; z (-5)].

(** Two upper bounds [x <= 2] and [x <= 5] on one variable, and the
    objective [(x - 10)^2]. *)
Definition bounds_G : mat := [[z 2]].
Definition bounds_c : vec := [z (-20)].
Definition bounds_ai : mat := [[z (-1)]; [z (-1)]].
Definition bounds_bi : vec := [z (-2); z (-5)].

(** The bound [x >= 0] written twice, as [x >= 0] and [2 x >= 0], and
    the objective [(x + 1)^2]. *)
Definition twice_G : mat := [[z 2]].
Definition twice_c : vec := [z 2].
Definition twice_ai : mat := [[z 1]; [z 2]].
Definition twice_bi : vec := [z 0; z 0].

(** The objective [x1^2 / 2 + x2^2 / 2 - 1e-5 x1 - 1e-11 x2] and the
    equality [x1 = 1e6 x2]: the exact step from the origin is
    [(1e-5, 1e-11)], and its second entry is below [tol_zero]. *)
Definition steep_G : mat := [[z 1; z 0]; [z 0; z 1]].
Definition steep_c : vec := [q (-1) 100000; q (-1) 100000000000].
Definition steep_ae : mat := [[z 1; z (-1000000)]].
Definition steep_be : vec := [z 0].

(** Problems on [float64] arrays.  [x1 + x2 = 1e16] at [(1e16, 1)]: the
    sum [1e16 + 1] rounds to [1e16]. *)
Definition large_a : list (list float) := [[1; 1]]%float.
Definition large_b : list float := [1e16]%float.
Definition large_x : list float := [1e16; 1]%float.

(** [49/2 x^2 - x] and [49/2 x^2 - 2^26 x], without constraints. *)
Definition seventh_G : list (list float) := [[49]]%float.
Definition seventh_c : list float := [-1]%float.
Definition seventh_c' : list float := [-67108864]%float.

(** [1/2 x^2 - 0.1 x] subject to [x >= 0.1], from [x0 = 1]. *)
Definition tenth_G : list (list float) := [[1]]%float.
Definition tenth_c : list float := [-0x1.999999999999ap-4]%float.
Definition tenth_ai : list (list float) := [[1]]%float.
Definition tenth_bi : list float := [0x1.999999999999ap-4]%float.
Definition tenth_x0 : list float := [1]%float.

(** [(x1 - 5)^2 + (x2 - 9)^2] subject to [x1 <= 1] and [x2 <= 1], from
    [(0, 1/2)]: the second bound enters the working set before the
    first. *)
Definition corner_G : mat := [[z 2; z 0]; [z 0; z 2]].
Definition corner_c : vec := [z (-10); z (-18)].
Definition corner_ai : mat := [[z (-1); z 0]; [z 0; z (-1)]].
Definition corner_bi : vec := [z (-1); z (-1)].
Definition corner_x0 : vec := [z 0; q 1 2].

(* ================================================================== *)
(** * Tactics *)

Ltac len := unfold arow, mat, vec in *; lia.

(** Order on [Qc] through the order on [Q]. *)
Ltac qc_order :=
  unfold Qcle, Qclt, Qcminus, Qcplus, Qcopp, Qcmult in *;
  cbn [this Q2Qc] in *; rewrite ?Qred_correct in *; lra.

(** The same with products of unknowns. *)
Ltac qc_nra :=
  unfold Qcle, Qclt, Qcminus, Qcplus, Qcopp, Qcmult in *;
  cbn [this Q2Qc] in *; rewrite ?Qred_correct in *; nra.

(* ================================================================== *)
(** * Comparisons *)

Lemma Qc_eq_bool_iff (x y : Qc) : Qc_eq_bool x y = true <-> x = y.
Proof.
  split.
  - apply Qc_eq_bool_correct.
  - intros ->. unfold Qc_eq_bool. destruct (Qc_eq_dec y y); congruence.
Qed.

Lemma Qc_eq_bool_false (x y : Qc) : Qc_eq_bool x y = false <-> x <> y.
Proof.
  rewrite <- Qc_eq_bool_iff. destruct (Qc_eq_bool x y); split; congruence.
Qed.

Lemma Qc_ltb_lt (x y : Qc) : Qc_ltb x y = true <-> x < y.
Proof.
  unfold Qc_ltb. rewrite Qclt_alt. destruct (x ?= y); split; congruence.
Qed.

Lemma Qc_leb_le (x y : Qc) : Qc_leb x y = true <-> x <= y.
Proof.
  unfold Qc_leb. rewrite Qcle_alt. destruct (x ?= y); split; congruence.
Qed.

Lemma Qc_leb_false (x y : Qc) : Qc_leb x y = false <-> y < x.
Proof.
  rewrite <- Qc_ltb_lt. unfold Qc_leb, Qc_ltb.
  destruct (x ?= y) eqn:E.
  - apply Qceq_alt in E. subst. 
    assert (H : (y ?= y) = Eq) by (apply Qceq_alt; reflexivity).
    rewrite H. split; congruence.
  - assert (H : (y ?= x) = Gt).
    { apply Qcgt_alt. apply Qclt_alt. exact E. }
    rewrite H. split; congruence.
  - assert (H : (y ?= x) = Lt).
    { apply Qclt_alt. apply Qcgt_alt in E. exact E. }
    rewrite H. split; congruence.
Qed.

(** * The dot product *)

Lemma dot_nil_r (a : vec) : dot a [] = 0.
Proof. destruct a; reflexivity. Qed.

Lemma dot_comm (a x : vec) : dot a x = dot x a.
Proof.
  revert x. induction a as [|a0 a IH]; intros [|x0 x]; simpl; try reflexivity.
  rewrite IH. ring.
Qed.

Lemma dot_vadd_l (a b x : vec) : dot (vadd a b) x = dot a x + dot b x.
Proof.
  revert b x. induction a as [|a0 a IH]; intros [|b0 b] [|x0 x]; simpl;
    try ring.
  rewrite IH. ring.
Qed.

Lemma dot_vscale_l (f : Qc) (a x : vec) : dot (vscale f a) x = f * dot a x.
Proof.
  revert x. induction a as [|a0 a IH]; intros [|x0 x]; simpl; try ring.
  rewrite IH. ring.
Qed.

Lemma dot_vopp_l (a x : vec) : dot (vopp a) x = - dot a x.
Proof.
  revert x. induction a as [|a0 a IH]; intros [|x0 x]; simpl; try ring.
  rewrite IH. ring.
Qed.

Lemma dot_vsub_l (a b x : vec) : dot (vsub a b) x = dot a x - dot b x.
Proof. unfold vsub. rewrite dot_vadd_l, dot_vopp_l. ring. Qed.

Lemma dot_vadd_r (a x y : vec) : dot a (vadd x y) = dot a x + dot a y.
Proof. rewrite !(dot_comm a). apply dot_vadd_l. Qed.

Lemma dot_vscale_r (f : Qc) (a x : vec) : dot a (vscale f x) = f * dot a x.
Proof. rewrite !(dot_comm a). apply dot_vscale_l. Qed.

Lemma dot_zeros_r (a : vec) (n : nat) : dot a (zeros n) = 0.
Proof.
  revert n. induction a as [|a0 a IH]; intros [|n]; simpl; try reflexivity.
  unfold zeros in IH. rewrite IH. ring.
Qed.

Lemma dot_zeros_l (x : vec) (n : nat) : dot (zeros n) x = 0.
Proof. rewrite dot_comm. apply dot_zeros_r. Qed.

Lemma dot_app (a a' x x' : vec) :
  length a = length x -> dot (a ++ a') (x ++ x') = dot a x + dot a' x'.
Proof.
  revert x. induction a as [|a0 a IH]; intros [|x0 x] H; simpl in *;
    try discriminate.
  - ring.
  - rewrite IH by lia. ring.
Qed.

Lemma dot_app_r (m x1 x2 : vec) :
  dot m (x1 ++ x2)
  = dot (firstn (length x1) m) x1 + dot (skipn (length x1) m) x2.
Proof.
  revert m. induction x1 as [|x0 x1 IH]; intros m; simpl.
  - ring.
  - destruct m as [|m0 m]; simpl.
    + ring.
    + rewrite IH. ring.
Qed.

Lemma dot_ext_l (m m' x : vec) :
  (forall k, (k < length x)%nat -> nth k m 0 = nth k m' 0) ->
  dot m x = dot m' x.
Proof.
  revert m m'. induction x as [|x0 x IH]; intros m m' H.
  - rewrite !dot_nil_r. reflexivity.
  - assert (H0 := H O ltac:(simpl; lia)).
    assert (HS : forall k, (k < length x)%nat ->
                           nth k (tl m) 0 = nth k (tl m') 0).
    { intros k Hk. specialize (H (S k) ltac:(simpl; lia)).
      destruct m, m'; simpl in *; try destruct k; auto. }
    specialize (IH _ _ HS).
    destruct m as [|a m], m' as [|a' m']; simpl in *.
    + reflexivity.
    + rewrite <- IH, <- H0. ring.
    + rewrite IH, H0. ring.
    + rewrite IH, H0. reflexivity.
Qed.

(** * Entries *)

Lemma nth_nil (k : nat) : nth k (@nil Qc) 0 = 0.
Proof. destruct k; reflexivity. Qed.

Lemma nth_vadd (k : nat) (x y : vec) :
  nth k (vadd x y) 0 = nth k x 0 + nth k y 0.
Proof.
  revert k y. induction x as [|x0 x IH]; intros k y.
  - simpl vadd. rewrite nth_nil. ring.
  - destruct y as [|y0 y].
    + simpl vadd. rewrite nth_nil. ring.
    + destruct k as [|k]; simpl; [reflexivity | apply IH].
Qed.

Lemma nth_vscale (k : nat) (f : Qc) (x : vec) :
  nth k (vscale f x) 0 = f * nth k x 0.
Proof.
  revert k. induction x as [|x0 x IH]; intros k.
  - cbn [vscale vopp map]. rewrite nth_nil. ring.
  - destruct k as [|k]; simpl; [ring | apply IH].
Qed.

Lemma nth_vopp (k : nat) (x : vec) : nth k (vopp x) 0 = - nth k x 0.
Proof.
  revert k. induction x as [|x0 x IH]; intros k.
  - cbn [vscale vopp map]. rewrite nth_nil. ring.
  - destruct k as [|k]; simpl; [ring | apply IH].
Qed.

Lemma nth_vsub (k : nat) (x y : vec) :
  nth k (vsub x y) 0 = nth k x 0 - nth k y 0.
Proof. unfold vsub. rewrite nth_vadd, nth_vopp. ring. Qed.

Lemma nth_zeros (k n : nat) : nth k (zeros n) 0 = 0.
Proof.
  revert k. induction n as [|n IH]; intros [|k]; simpl; auto.
Qed.

Lemma length_zeros (n : nat) : length (zeros n) = n.
Proof. apply repeat_length. Qed.

Lemma nth_map_in {A B : Type} (f : A -> B) (l : list A) (k : nat) (d : A)
  (e : B) : (k < length l)%nat -> nth k (map f l) e = f (nth k l d).
Proof.
  revert k. induction l as [|a l IH]; intros [|k] H; simpl in *; try lia.
  - reflexivity.
  - apply IH. lia.
Qed.

Lemma nth_unit_vec (n i k : nat) :
  (k < n)%nat -> nth k (unit_vec n i) 0 = if Nat.eqb k i then 1 else 0.
Proof.
  intros H. unfold unit_vec.
  rewrite (nth_map_in _ _ _ O) by (rewrite length_seq; exact H).
  rewrite seq_nth by exact H. reflexivity.
Qed.

Lemma length_unit_vec (n i : nat) : length (unit_vec n i) = n.
Proof. unfold unit_vec. rewrite length_map, length_seq. reflexivity. Qed.

(** A vector is the list of its entries. *)
Lemma vec_ext (x y : vec) :
  length x = length y ->
  (forall k, (k < length x)%nat -> nth k x 0 = nth k y 0) -> x = y.
Proof.
  intros Hl H. apply (nth_ext x y 0 0 Hl). exact H.
Qed.

Lemma dot_unit_vec_r (n i : nat) (m : vec) :
  (i < n)%nat -> dot m (unit_vec n i) = nth i m 0.
Proof.
  revert i m. unfold unit_vec.
  assert (G : forall w s i m, (s <= i < s + w)%nat ->
    dot m (map (fun k => if Nat.eqb k i then 1 else 0) (seq s w))
    = nth (i - s) m 0).
  { induction w as [|w IH]; intros s i m H; [lia|].
    simpl. destruct m as [|m0 m].
    - simpl. destruct (i - s)%nat; reflexivity.
    - simpl. destruct (Nat.eqb_spec s i) as [->|Hne].
      + replace (i - i)%nat with O by lia.
        assert (Z0 : forall l, (forall k, In k l -> k <> i) ->
          dot m (map (fun k => if Nat.eqb k i then 1 else 0) l) = 0).
        { intros l. revert m. induction l as [|k l IHl]; intros m' Hl.
          - apply dot_nil_r.
          - destruct m' as [|a m']; [reflexivity|]. simpl.
            destruct (Nat.eqb_spec k i) as [->|_].
            + exfalso. apply (Hl i); simpl; auto.
            + rewrite IHl by (intros; apply Hl; simpl; auto). ring. }
        rewrite Z0; [ring|]. intros k Hk. apply in_seq in Hk. lia.
      + rewrite IH by lia.
        replace (i - s)%nat with (S (i - S s)) by lia. simpl. ring. }
  intros i m H. rewrite G by lia. f_equal. lia.
Qed.

Lemma dot_unit_vec_l (n i : nat) (x : vec) :
  (i < n)%nat -> dot (unit_vec n i) x = nth i x 0.
Proof. intros H. rewrite dot_comm. apply dot_unit_vec_r. exact H. Qed.

(** * Matrix times vector *)

Lemma length_matvec (M : mat) (x : vec) : length (matvec M x) = length M.
Proof. apply length_map. Qed.

Lemma nth_matvec (M : mat) (x : vec) (i : nat) :
  nth i (matvec M x) 0 = dot (nth i M []) x.
Proof.
  unfold matvec.
  destruct (Nat.lt_ge_cases i (length M)) as [H|H].
  - apply (nth_map_in (fun r => dot r x)). exact H.
  - rewrite !nth_overflow; try (rewrite ?length_map; exact H). reflexivity.
Qed.

Lemma dot_vecmat (a : vec) (B : mat) (x : vec) :
  dot (vecmat a B) x = dot a (matvec B x).
Proof.
  revert B. induction a as [|a0 a IH]; intros [|r B]; simpl; try reflexivity.
  rewrite dot_vadd_l, dot_vscale_l, IH. reflexivity.
Qed.

Lemma matvec_mmul (A B : mat) (x : vec) :
  matvec (mmul A B) x = matvec A (matvec B x).
Proof.
  unfold matvec, mmul. rewrite map_map. apply map_ext.
  intros a. apply dot_vecmat.
Qed.

Lemma length_identity (n : nat) : length (identity n) = n.
Proof. unfold identity. rewrite length_map, length_seq. reflexivity. Qed.

Lemma nth_identity (n i : nat) :
  (i < n)%nat -> nth i (identity n) [] = unit_vec n i.
Proof.
  intros H. unfold identity.
  rewrite (nth_map_in _ _ _ O) by (rewrite length_seq; exact H).
  rewrite seq_nth by exact H. reflexivity.
Qed.

Lemma matvec_identity (n : nat) (x : vec) :
  length x = n -> matvec (identity n) x = x.
Proof.
  intros H. apply vec_ext.
  - rewrite length_matvec, length_identity. auto.
  - intros k Hk. rewrite length_matvec, length_identity in Hk.
    rewrite nth_matvec, nth_identity by exact Hk.
    apply dot_unit_vec_l. exact Hk.
Qed.

Lemma matvec_zeros (M : mat) (n : nat) :
  matvec M (zeros n) = zeros (length M).
Proof.
  induction M as [|r M IH]; simpl; [reflexivity|].
  rewrite dot_zeros_r. unfold zeros in *. simpl. f_equal. exact IH.
Qed.

(** * Gauss-Jordan elimination *)

Lemma find_pivot_some (j : nat) (rows : list arow) (p : arow)
  (others : list arow) :
  find_pivot j rows = Some (p, others) ->
  nth j (fst p) 0 <> 0 /\ Permutation rows (p :: others).
Proof.
  revert p others. induction rows as [|r rows IH]; intros p others H;
    simpl in H; [discriminate|].
  destruct (Qc_eq_bool (nth j (fst r) 0) 0) eqn:E.
  - destruct (find_pivot j rows) as [[p' o']|]; [|discriminate].
    inversion H; subst. destruct (IH _ _ eq_refl) as [Hp Hperm].
    split; [exact Hp|].
    rewrite Hperm. apply perm_swap.
  - inversion H; subst. split; [|reflexivity].
    apply Qc_eq_bool_false. exact E.
Qed.

Lemma find_pivot_none (j : nat) (rows : list arow) :
  find_pivot j rows = None ->
  forall r, In r rows -> nth j (fst r) 0 = 0.
Proof.
  induction rows as [|r0 rows IH]; intros H r Hin; simpl in *; [tauto|].
  destruct (Qc_eq_bool (nth j (fst r0) 0) 0) eqn:E; [|discriminate].
  destruct (find_pivot j rows) as [[p' o']|]; [discriminate|].
  destruct Hin as [->|Hin].
  - apply Qc_eq_bool_iff. exact E.
  - apply IH; auto.
Qed.

Lemma row_holds_scale (x b : vec) (f : Qc) (r : arow) :
  f <> 0 -> (row_holds x b (arow_scale f r) <-> row_holds x b r).
Proof.
  intros Hf. unfold row_holds, arow_scale. simpl.
  rewrite !dot_vscale_l. split; intros H.
  - assert (E : forall a, a = / f * (f * a)) by (intros a; field; exact Hf).
    rewrite (E (dot (fst r) x)), H, <- E. reflexivity.
  - rewrite H. reflexivity.
Qed.

Lemma row_holds_sub (x b : vec) (f : Qc) (p r : arow) :
  row_holds x b p -> (row_holds x b (arow_sub f p r) <-> row_holds x b r).
Proof.
  unfold row_holds, arow_sub. simpl. intros Hp.
  rewrite !dot_vsub_l, !dot_vscale_l, Hp. split; intros H.
  - assert (E : forall a c, a = (a - c) + c) by (intros; ring).
    rewrite (E (dot (fst r) x) (f * dot (snd p) b)), H. ring.
  - rewrite H. reflexivity.
Qed.

Lemma Forall_eliminate (x b : vec) (j : nat) (p : arow) (l : list arow) :
  row_holds x b p ->
  (Forall (row_holds x b) (map (eliminate j p) l) <-> Forall (row_holds x b) l).
Proof.
  intros Hp. rewrite Forall_map, !Forall_forall.
  split; intros H r Hin;
    apply (row_holds_sub x b (nth j (fst r) 0) p r Hp); apply H; exact Hin.
Qed.

Lemma gauss_jordan_step_equiv (x b : vec) (j : nat) (p : arow)
  (done todo others : list arow) :
  nth j (fst p) 0 <> 0 -> Permutation todo (p :: others) ->
  let p1 := arow_scale (/ nth j (fst p) 0) p in
  (Forall (row_holds x b) (map (eliminate j p1) done ++ [p1]) /\
   Forall (row_holds x b) (map (eliminate j p1) others))
  <-> (Forall (row_holds x b) done /\ Forall (row_holds x b) todo).
Proof.
  intros Hp Hperm p1.
  assert (Hinv : / nth j (fst p) 0 <> 0).
  { intros E. apply Q_apart_0_1.
    rewrite <- (Qcmult_inv_r _ Hp), E. ring. }
  assert (H1 : row_holds x b p1 <-> row_holds x b p)
    by (apply row_holds_scale; exact Hinv).
  rewrite Forall_app.
  assert (Hc : Forall (row_holds x b) todo
               <-> row_holds x b p /\ Forall (row_holds x b) others).
  { split.
    - intros H. apply (Permutation_Forall Hperm) in H.
      inversion H; subst; auto.
    - intros [Ha Hb]. apply (Permutation_Forall (Permutation_sym Hperm)).
      constructor; auto. }
  rewrite Hc. split.
  - intros [[Hd Hs] Ho]. inversion Hs; subst.
    rewrite (Forall_eliminate x b j p1) in Hd, Ho by assumption.
    tauto.
  - intros [Hd [Hpp Ho]]. apply H1 in Hpp.
    rewrite !(Forall_eliminate x b j p1) by assumption.
    repeat split; auto.
Qed.

Lemma gauss_jordan_equiv (steps : nat) :
  forall (j : nat) (done todo res : list arow),
    gauss_jordan steps j done todo = Some res ->
    length todo = steps ->
    forall x b,
      Forall (row_holds x b) res
      <-> (Forall (row_holds x b) done /\ Forall (row_holds x b) todo).
Proof.
  induction steps as [|k IH]; intros j done todo res H Hl x b; simpl in H.
  - inversion H; subst. destruct todo; [|discriminate]. 
    split; [intros; split; auto | tauto].
  - destruct (find_pivot j todo) as [[p others]|] eqn:E; [|discriminate].
    destruct (find_pivot_some _ _ _ _ E) as [Hp Hperm].
    rewrite (IH _ _ _ _ H).
    + apply gauss_jordan_step_equiv; assumption.
    + rewrite length_map. apply Permutation_length in Hperm. simpl in Hperm. lia.
Qed.

Lemma nth_eliminate_pivot (j : nat) (p r : arow) :
  nth j (fst p) 0 = 1 -> nth j (fst (eliminate j p r)) 0 = 0.
Proof.
  intros H. unfold eliminate, arow_sub. simpl.
  rewrite nth_vsub, nth_vscale, H. ring.
Qed.

Lemma nth_eliminate_before (j k : nat) (p r : arow) :
  nth k (fst p) 0 = 0 -> nth k (fst (eliminate j p r)) 0 = nth k (fst r) 0.
Proof.
  intros H. unfold eliminate, arow_sub. simpl.
  rewrite nth_vsub, nth_vscale, H. ring.
Qed.

Lemma reduced_step (j : nat) (p : arow) (done todo others : list arow) :
  reduced j done todo ->
  nth j (fst p) 0 <> 0 -> Permutation todo (p :: others) ->
  let p1 := arow_scale (/ nth j (fst p) 0) p in
  reduced (S j) (map (eliminate j p1) done ++ [p1])
          (map (eliminate j p1) others).
Proof.
  intros (Hlen & Hdone & Htodo) Hp Hperm p1.
  assert (Hp1 : nth j (fst p1) 0 = 1).
  { unfold p1, arow_scale. simpl. rewrite nth_vscale.
    rewrite Qcmult_comm. apply Qcmult_inv_r. exact Hp. }
  assert (Hp0 : forall k, (k < j)%nat -> nth k (fst p1) 0 = 0).
  { intros k Hk. unfold p1, arow_scale. simpl. rewrite nth_vscale.
    rewrite (Htodo p k); [ring| |exact Hk].
    apply (Permutation_in _ (Permutation_sym Hperm)). left. reflexivity. }
  assert (Hcol : forall r k, (k < S j)%nat ->
            nth k (fst (eliminate j p1 r)) 0
            = if Nat.eqb k j then 0 else nth k (fst r) 0).
  { intros r k Hk. destruct (Nat.eqb_spec k j) as [->|Hne].
    - apply nth_eliminate_pivot. exact Hp1.
    - apply nth_eliminate_before. apply Hp0. lia. }
  split; [|split].
  - rewrite length_app, length_map. simpl. lia.
  - intros i r k Hi Hk.
    destruct (Nat.lt_ge_cases i j) as [Hij|Hij].
    + rewrite nth_error_app1 in Hi by (rewrite length_map; lia).
      rewrite nth_error_map in Hi.
      destruct (nth_error done i) as [r0|] eqn:E; [|discriminate].
      simpl in Hi. inversion Hi; subst r.
      rewrite Hcol by exact Hk.
      destruct (Nat.eqb_spec k j) as [->|Hne].
      * destruct (Nat.eqb_spec j i); [lia | reflexivity].
      * apply (Hdone i r0 k E). lia.
    + rewrite nth_error_app2 in Hi by (rewrite length_map; lia).
      rewrite length_map, Hlen in Hi.
      destruct (i - j)%nat as [|d] eqn:Ed.
      * simpl in Hi. inversion Hi; subst r.
        assert (i = j) by lia. subst i.
        destruct (Nat.eqb_spec k j) as [->|Hne]; [exact Hp1|].
        apply Hp0. lia.
      * simpl in Hi. destruct d; discriminate.
  - intros r k Hin Hk. apply in_map_iff in Hin.
    destruct Hin as (r0 & <- & Hin0).
    rewrite Hcol by exact Hk.
    destruct (Nat.eqb_spec k j) as [->|Hne]; [reflexivity|].
    apply Htodo; [|lia].
    apply (Permutation_in _ (Permutation_sym Hperm)). right. exact Hin0.
Qed.

Lemma gauss_jordan_reduced (steps : nat) :
  forall (j : nat) (done todo res : list arow),
    gauss_jordan steps j done todo = Some res ->
    length todo = steps -> reduced j done todo ->
    reduced (j + steps) res [].
Proof.
  induction steps as [|k IH]; intros j done todo res H Hl Hr; simpl in H.
  - inversion H; subst. destruct todo; [|discriminate].
    rewrite Nat.add_0_r. exact Hr.
  - destruct (find_pivot j todo) as [[p others]|] eqn:E; [|discriminate].
    destruct (find_pivot_some _ _ _ _ E) as [Hp Hperm].
    replace (j + S k)%nat with (S j + k)%nat by lia.
    apply (IH _ _ _ _ H).
    + rewrite length_map. apply Permutation_length in Hperm. simpl in Hperm. lia.
    + apply (reduced_step j p done todo others); assumption.
Qed.

Lemma dot_one_zeros (m : vec) (n : nat) : dot m (1 :: zeros n) = nth 0 m 0.
Proof.
  destruct m as [|m0 m]; simpl; [reflexivity|].
  fold (zeros n). rewrite dot_zeros_r. ring.
Qed.

Lemma nth_firstn_lt (k j : nat) (m : vec) :
  (k < j)%nat -> nth k (firstn j m) 0 = nth k m 0.
Proof.
  revert k m. induction j as [|j IH]; intros k m H; [lia|].
  destruct m as [|m0 m]; [reflexivity|].
  destruct k as [|k]; simpl; [reflexivity|]. apply IH. lia.
Qed.

Lemma nth_0_skipn (j : nat) (m : vec) : nth 0 (skipn j m) 0 = nth j m 0.
Proof.
  revert m. induction j as [|j IH]; intros m.
  - reflexivity.
  - destruct m as [|m0 m]; [reflexivity|]. simpl. apply IH.
Qed.

Lemma kernel_vector_row (j steps : nat) (done : list arow) (m xs : vec) :
  length xs = j ->
  dot m (xs ++ 1 :: zeros (steps - 1))
  = dot (firstn j m) xs + nth j m 0.
Proof.
  intros H. rewrite dot_app_r, H, dot_one_zeros, nth_0_skipn. reflexivity.
Qed.

Lemma find_pivot_none_kernel (j steps : nat) (done todo : list arow)
  (nb : nat) :
  reduced j done todo -> find_pivot j todo = None ->
  let x := kernel_vector j steps done in
  Forall (row_holds x (zeros nb)) done /\
  Forall (row_holds x (zeros nb)) todo.
Proof.
  intros (Hlen & Hdone & Htodo) Hnone x.
  assert (Hxs : length (map (fun r : arow => - nth j (fst r) 0) done) = j)
    by (rewrite length_map; exact Hlen).
  split; apply Forall_forall; intros r Hin; unfold row_holds;
    rewrite dot_zeros_r; unfold x, kernel_vector;
    rewrite (kernel_vector_row j steps done _ _ Hxs).
  - destruct (In_nth_error _ _ Hin) as [i Hi].
    assert (Hij : (i < j)%nat).
    { rewrite <- Hlen. apply nth_error_Some. congruence. }
    rewrite (dot_ext_l _ (unit_vec j i)).
    + rewrite dot_unit_vec_l by exact Hij.
      rewrite (nth_map_in _ _ _ r) by lia.
      rewrite (nth_error_nth _ _ r Hi). ring.
    + intros k Hk. rewrite Hxs in Hk.
      rewrite nth_firstn_lt, nth_unit_vec by exact Hk.
      apply (Hdone i r k Hi Hk).
  - rewrite (dot_ext_l _ []).
    + rewrite (find_pivot_none _ _ Hnone r Hin). simpl. ring.
    + intros k Hk. rewrite Hxs in Hk.
      rewrite nth_firstn_lt, nth_nil by exact Hk.
      apply (Htodo r k Hin Hk).
Qed.

Lemma length_kernel_vector (j steps : nat) (done : list arow) :
  length done = j -> (0 < steps)%nat ->
  length (kernel_vector j steps done) = (j + steps)%nat.
Proof.
  intros H Hs. unfold kernel_vector.
  rewrite length_app, length_map. cbn [length]. rewrite length_zeros.
  lia.
Qed.

Lemma nth_kernel_vector (j steps : nat) (done : list arow) :
  length done = j -> nth j (kernel_vector j steps done) 0 = 1.
Proof.
  intros H. unfold kernel_vector.
  rewrite app_nth2 by (rewrite length_map; lia).
  rewrite length_map, H, Nat.sub_diag. reflexivity.
Qed.

Lemma gauss_jordan_fails (steps : nat) (nb : nat) :
  forall (j : nat) (done todo : list arow),
    gauss_jordan steps j done todo = None ->
    length todo = steps -> reduced j done todo ->
    exists x k,
      length x = (j + steps)%nat /\ nth k x 0 <> 0 /\
      Forall (row_holds x (zeros nb)) done /\
      Forall (row_holds x (zeros nb)) todo.
Proof.
  induction steps as [|s IH]; intros j done todo H Hl Hr; simpl in H;
    [discriminate|].
  destruct (find_pivot j todo) as [[p others]|] eqn:E.
  - destruct (find_pivot_some _ _ _ _ E) as [Hp Hperm].
    destruct (IH _ _ _ H) as (x & k & Hx & Hk & Hsat).
    + rewrite length_map. apply Permutation_length in Hperm. simpl in Hperm. lia.
    + apply (reduced_step j p done todo others); assumption.
    + exists x, k. split; [lia|]. split; [exact Hk|].
      apply (gauss_jordan_step_equiv x (zeros nb) j p done todo others Hp Hperm).
      exact Hsat.
  - exists (kernel_vector j (S s) done), j.
    destruct Hr as (Hlen & Hr).
    split; [apply length_kernel_vector; [exact Hlen | lia]|].
    split.
    + rewrite nth_kernel_vector by exact Hlen. apply Q_apart_0_1.
    + apply find_pivot_none_kernel; [|exact E]. split; assumption.
Qed.

(** The rows of [K | I] hold at [(x, b)] exactly when [K x = b]. *)
Lemma initial_rows_hold (K : mat) (x b : vec) :
  length b = length K ->
  Forall (row_holds x b) (combine K (identity (length K)))
  <-> matvec K x = b.
Proof.
  intros Hb.
  assert (Hlen : @length arow (combine K (identity (length K))) = length K)
    by (unfold arow; rewrite length_combine, length_identity;
        apply Nat.min_id).
  assert (Hrow : forall i, (i < length K)%nat ->
            row_holds x b (nth i (combine K (identity (length K))) ([], []))
            <-> nth i (matvec K x) 0 = nth i b 0).
  { intros i Hi.
    rewrite combine_nth by (rewrite length_identity; reflexivity).
    unfold row_holds. simpl.
    rewrite nth_identity, dot_unit_vec_l by exact Hi.
    rewrite nth_matvec. reflexivity. }
  rewrite Forall_nth. split.
  - intros H. apply vec_ext.
    + rewrite length_matvec. lia.
    + intros i Hi. rewrite length_matvec in Hi.
      apply Hrow; [exact Hi|]. apply H. rewrite Hlen. exact Hi.
  - intros H i d Hi. rewrite Hlen in Hi.
    rewrite (nth_indep _ d ([], [])) by (rewrite Hlen; exact Hi).
    apply Hrow; [exact Hi|]. rewrite H. reflexivity.
Qed.

(** The rows of [I | N] hold at [(x, b)] exactly when [x = N b]. *)
Lemma final_rows_hold (n : nat) (rows : list arow) (x b : vec) :
  reduced n rows [] -> length x = n ->
  Forall (row_holds x b) rows <-> x = matvec (map snd rows) b.
Proof.
  intros (Hlen & Hrows & _) Hx.
  assert (Hrow : forall i, (i < n)%nat ->
            row_holds x b (nth i rows ([], []))
            <-> nth i x 0 = nth i (matvec (map snd rows) b) 0).
  { intros i Hi. unfold row_holds.
    assert (Hi' : nth_error rows i = Some (nth i rows ([], [])))
      by (apply nth_error_nth'; len).
    rewrite (dot_ext_l _ (unit_vec n i)).
    - rewrite dot_unit_vec_l by exact Hi.
      rewrite nth_matvec.
      rewrite (nth_map_in snd rows i ([], [])) by len.
      reflexivity.
    - intros k Hk. rewrite Hx in Hk. rewrite nth_unit_vec by exact Hk.
      apply (Hrows i _ k Hi' Hk). }
  rewrite Forall_nth. split.
  - intros H. apply vec_ext.
    + rewrite length_matvec, length_map. len.
    + intros i Hi. apply Hrow; [len|]. apply H. len.
  - intros H i d Hi.
    rewrite (nth_indep _ d ([], [])) by exact Hi.
    apply Hrow; [len|]. rewrite <- H. reflexivity.
Qed.

Lemma reduced_initial (rows : list arow) : reduced 0 [] rows.
Proof.
  split; [reflexivity|]. split; intros; len.
Qed.

Lemma length_initial_rows (K : mat) :
  length (combine K (identity (length K))) = length K.
Proof. rewrite length_combine, length_identity. apply Nat.min_id. Qed.

(** What [inv] returns is the inverse: [K x = b] exactly when
    [x = N b]. *)
Lemma inv_correct (K N : mat) :
  inv K = Some N ->
  length N = length K /\
  forall x b, length x = length K -> length b = length K ->
              (matvec K x = b <-> x = matvec N b).
Proof.
  unfold inv. destruct (is_square K); [|discriminate].
  destruct (gauss_jordan _ _ _ _) as [rows|] eqn:E; [|discriminate].
  intros H. inversion H; subst N. clear H.
  assert (Hred := gauss_jordan_reduced _ _ _ _ _ E
                    (length_initial_rows K) (reduced_initial _)).
  simpl in Hred. split.
  - rewrite length_map. apply Hred.
  - intros x b Hx Hb.
    rewrite <- (final_rows_hold _ _ _ _ Hred Hx).
    rewrite (gauss_jordan_equiv _ _ _ _ _ E (length_initial_rows K)).
    rewrite (initial_rows_hold K x b Hb).
    split; [intros; split; [constructor | assumption] | tauto].
Qed.

Lemma inv_solves (K N : mat) (b : vec) :
  inv K = Some N -> length b = length K -> matvec K (matvec N b) = b.
Proof.
  intros H Hb. destruct (inv_correct K N H) as [Hl Hs].
  apply Hs; auto. rewrite length_matvec. exact Hl.
Qed.

Lemma inv_unique (K N : mat) (x b : vec) :
  inv K = Some N -> length x = length K ->
  matvec K x = b -> x = matvec N b.
Proof.
  intros H Hx Hb. destruct (inv_correct K N H) as [Hl Hs].
  apply Hs; auto. rewrite <- Hb, length_matvec. reflexivity.
Qed.

(** [inv] succeeds on every square matrix that has a left inverse. *)
Lemma inv_complete (K : mat) :
  is_square K = true ->
  (exists Ki, mmul Ki K = identity (length K)) ->
  exists N, inv K = Some N.
Proof.
  intros Hsq [Ki HKi]. unfold inv. rewrite Hsq.
  destruct (gauss_jordan _ _ _ _) as [rows|] eqn:E; [eauto|].
  exfalso.
  destruct (gauss_jordan_fails _ (length K) _ _ _ E
              (length_initial_rows K) (reduced_initial _))
    as (x & k & Hx & Hk & _ & Hsat).
  simpl in Hx.
  apply initial_rows_hold in Hsat; [|apply length_zeros].
  apply Hk.
  rewrite <- (matvec_identity (length K) x Hx), <- HKi, matvec_mmul, Hsat.
  rewrite matvec_zeros. apply nth_zeros.
Qed.

(** * The KKT system: shapes *)

Lemma length_vadd (x y : vec) :
  length (vadd x y) = Nat.max (length x) (length y).
Proof.
  revert y. induction x as [|x0 x IH]; intros [|y0 y]; simpl; auto.
Qed.

Lemma length_vopp (x : vec) : length (vopp x) = length x.
Proof. apply length_map. Qed.

Lemma length_vscale (f : Qc) (x : vec) : length (vscale f x) = length x.
Proof. apply length_map. Qed.

Lemma length_hstack (X Y : mat) :
  length (hstack X Y) = Nat.min (length X) (length Y).
Proof.
  revert Y. induction X as [|r X IH]; intros [|s Y]; simpl; auto.
Qed.

Lemma length_transpose (n : nat) (A : mat) : length (transpose n A) = n.
Proof. unfold transpose. rewrite length_map, length_seq. reflexivity. Qed.

Lemma length_removelast (r : vec) : length (removelast r) = pred (length r).
Proof.
  rewrite removelast_firstn_len, length_firstn. lia.
Qed.

Lemma app_eq_length {A : Type} (a b a' b' : list A) :
  length a = length a' -> a ++ b = a' ++ b' -> a = a' /\ b = b'.
Proof.
  revert a'. induction a as [|h a IH]; intros [|h' a'] Hl H; simpl in *;
    try discriminate.
  - auto.
  - inversion H; subst. destruct (IH a') as [-> ->]; auto.
Qed.

(** * The KKT system: blocks *)

Lemma matvec_app (X Y : mat) (v : vec) :
  matvec (X ++ Y) v = matvec X v ++ matvec Y v.
Proof. apply map_app. Qed.

Lemma matvec_mopp (X : mat) (v : vec) :
  matvec (mopp X) v = vopp (matvec X v).
Proof.
  unfold matvec, mopp, vopp. rewrite !map_map. apply map_ext.
  intros r. apply dot_vopp_l.
Qed.

Lemma matvec_hstack (n : nat) (X Y : mat) (v : vec) :
  Forall (fun r => length r = n) X -> length X = length Y ->
  (n <= length v)%nat ->
  matvec (hstack X Y) v
  = vadd (matvec X (firstn n v)) (matvec Y (skipn n v)).
Proof.
  intros HX. revert Y. induction HX as [|r X Hr HX IH]; intros [|s Y] Hl Hv;
    simpl in *; try discriminate; [reflexivity|].
  f_equal.
  - rewrite <- (firstn_skipn n v) at 1.
    apply dot_app. rewrite length_firstn. lia.
  - apply IH; lia.
Qed.

Lemma matvec_zeros2 (r k : nat) (v : vec) :
  matvec (zeros2 r k) v = zeros r.
Proof.
  unfold zeros2, zeros, matvec. induction r as [|r IH]; simpl; [reflexivity|].
  f_equal; [apply dot_zeros_l | exact IH].
Qed.

Lemma vadd_zeros_r (x : vec) : vadd x (zeros (length x)) = x.
Proof.
  induction x as [|x0 x IH]; simpl; [reflexivity|].
  fold (zeros (length x)). rewrite IH. f_equal. ring.
Qed.

Lemma coefficients_cols (n : nat) (ws : mat) :
  Forall (fun r => length r = S n) ws ->
  Forall (fun r => length r = n) (coefficients ws).
Proof.
  intros H. unfold coefficients. rewrite Forall_map.
  eapply Forall_impl; [|exact H].
  intros r Hr. simpl. rewrite length_removelast, Hr. reflexivity.
Qed.

Lemma length_coefficients (ws : mat) : length (coefficients ws) = length ws.
Proof. apply length_map. Qed.

Lemma length_kkt_lhs (G ws : mat) (Nx : nat) :
  length G = Nx -> length (kkt_lhs G ws Nx) = (Nx + length ws)%nat.
Proof.
  intros HG. unfold kkt_lhs. rewrite length_app, !length_hstack.
  unfold mopp, zeros2.
  rewrite !length_map, length_transpose, repeat_length, length_coefficients.
  lia.
Qed.

Lemma length_kkt_rhs (G : mat) (c : vec) (ws : mat) (xk : vec) :
  length c = length G ->
  length (kkt_rhs G c ws xk) = (length G + length ws)%nat.
Proof.
  intros Hc. unfold kkt_rhs. rewrite length_app, length_vopp, length_vadd.
  rewrite length_matvec, length_zeros. lia.
Qed.

Lemma kkt_solution_length (G : mat) (c : vec) (ws : mat) (xk sol : vec) :
  length G = length xk ->
  kkt_solution G c ws xk = Some sol ->
  length sol = (length xk + length ws)%nat.
Proof.
  intros HG. unfold kkt_solution.
  destruct (inv (kkt_lhs G ws (length xk))) as [Ki|] eqn:E; [|discriminate].
  intros H. inversion H; subst sol.
  rewrite length_matvec. destruct (inv_correct _ _ E) as [-> _].
  apply length_kkt_lhs. exact HG.
Qed.

Section KKT.

Variables (G : mat) (c : vec) (ws : mat) (xk : vec).
Local Abbreviation Nx := (length xk).
Local Abbreviation M := (length ws).
Local Abbreviation A := (coefficients ws).

Hypothesis G_rows : length G = Nx.
Hypothesis G_cols : Forall (fun r => length r = Nx) G.
Hypothesis ws_cols : Forall (fun r => length r = S Nx) ws.
Hypothesis c_rows : length c = Nx.

(** The two block rows of [lhs @ sol]. *)
Lemma kkt_lhs_blocks (sol : vec) :
  length sol = (Nx + M)%nat ->
  matvec (kkt_lhs G ws Nx) sol
  = vsub (matvec G (firstn Nx sol))
         (matvec (transpose Nx A) (skipn Nx sol))
    ++ matvec A (firstn Nx sol).
Proof.
  intros Hs. unfold kkt_lhs. rewrite matvec_app. f_equal.
  - rewrite (matvec_hstack Nx) by
      (auto; unfold mopp; rewrite ?length_map, ?length_transpose; lia).
    rewrite matvec_mopp. reflexivity.
  - assert (HA : length A = M) by apply length_coefficients.
    rewrite (matvec_hstack Nx);
      [ | apply coefficients_cols; exact ws_cols
        | unfold zeros2; rewrite repeat_length; exact HA
        | lia ].
    rewrite matvec_zeros2.
    replace M with (length (matvec A (firstn Nx sol)))
      by (rewrite length_matvec; exact HA).
    apply vadd_zeros_r.
Qed.

Lemma kkt_solution_equations (sol : vec) :
  kkt_solution G c ws xk = Some sol ->
  vsub (matvec G (firstn Nx sol)) (matvec (transpose Nx A) (skipn Nx sol))
  = vopp (vadd (matvec G xk) c)
  /\ matvec A (firstn Nx sol) = zeros M.
Proof.
  intros H. assert (Hl := kkt_solution_length G c ws xk sol G_rows H).
  unfold kkt_solution in H.
  destruct (inv (kkt_lhs G ws Nx)) as [Ki|] eqn:E; [|discriminate].
  inversion H as [Hsol].
  assert (Hsolve : matvec (kkt_lhs G ws Nx) sol = kkt_rhs G c ws xk).
  { rewrite <- Hsol. apply inv_solves; [exact E|].
    rewrite length_kkt_lhs by exact G_rows.
    rewrite length_kkt_rhs by congruence. rewrite G_rows. reflexivity. }
  rewrite kkt_lhs_blocks in Hsolve by assumption.
  unfold kkt_rhs in Hsolve.
  apply app_eq_length in Hsolve; [rewrite Hsol; exact Hsolve|].
  unfold vsub. rewrite length_vadd, !length_vopp, length_vadd, !length_matvec.
  rewrite length_transpose. lia.
Qed.

Lemma kkt_solution_exists :
  invertible (kkt_lhs G ws Nx) -> exists sol, kkt_solution G c ws xk = Some sol.
Proof.
  intros [Hsq (Ki & HKi & _)]. unfold kkt_solution.
  destruct (inv_complete _ Hsq (ex_intro _ Ki HKi)) as [N ->]. eauto.
Qed.

End KKT.

Lemma snap_spec (v : Qc) :
  (Qc_abs v < tol_zero -> snap v = 0) /\ (~ Qc_abs v < tol_zero -> snap v = v).
Proof.
  unfold snap. destruct (Qc_ltb (Qc_abs v) tol_zero) eqn:E.
  - split; [reflexivity|]. intros H. exfalso. apply H. apply Qc_ltb_lt. exact E.
  - split; [|reflexivity]. intros H. apply Qc_ltb_lt in H. congruence.
Qed.

Lemma Qc_abs_spec (v : Qc) :
  (v < 0 -> Qc_abs v = - v) /\ (~ v < 0 -> Qc_abs v = v).
Proof.
  unfold Qc_abs. destruct (Qc_ltb v 0) eqn:E.
  - split; [reflexivity|]. intros H. exfalso. apply H. apply Qc_ltb_lt. exact E.
  - split; [|reflexivity]. intros H. apply Qc_ltb_lt in H. congruence.
Qed.

(** Claim C3, amended.  In exact arithmetic, for [G] of size
    [Nx x Nx], [c] of size [Nx], a working set [ws] of [M] rows
    [[A | b]] and an iterate [xk] of size [Nx] for which the KKT matrix
    [[G, -A^T], [A, 0]] is invertible, the solve gives a vector [sol]
    of size [Nx + M] whose first [Nx] entries [p] and last [M] entries
    [lam] satisfy [G p - A^T lam = -(G xk + c)] and
    [A p = 0]; [QP_subproblem] returns the first [Nx] and the last [M]
    entries of [sol] after the snap, which puts 0 for each entry of
    absolute value below [tol_zero] and keeps the others. *)
Theorem QP_subproblem_solves_KKT (G : mat) (c : vec) (ws : mat) (xk : vec) :
  length G = length xk ->
  Forall (fun r => length r = length xk) G ->
  Forall (fun r => length r = S (length xk)) ws ->
  length c = length xk ->
  invertible (kkt_lhs G ws (length xk)) ->
  exists sol : vec,
    kkt_solution G c ws xk = Some sol /\
    length sol = (length xk + length ws)%nat /\
    vsub (matvec G (firstn (length xk) sol))
         (matvec (transpose (length xk) (coefficients ws))
                 (skipn (length xk) sol))
    = vopp (vadd (matvec G xk) c) /\
    matvec (coefficients ws) (firstn (length xk) sol) = zeros (length ws) /\
    QP_subproblem G c ws xk
    = Some (firstn (length xk) (map snap sol),
            skipn (length xk) (map snap sol)) /\
    length (firstn (length xk) (map snap sol)) = length xk /\
    length (skipn (length xk) (map snap sol)) = length ws /\
    forall v : Qc,
      (Qc_abs v < tol_zero -> snap v = 0) /\
      (~ Qc_abs v < tol_zero -> snap v = v).
Proof.
  intros HG HGc Hws Hc Hinv.
  destruct (kkt_solution_exists G c ws xk Hinv) as [sol Hsol].
  assert (Hl := kkt_solution_length G c ws xk sol HG Hsol).
  destruct (kkt_solution_equations G c ws xk HG HGc Hws Hc sol Hsol)
    as [Hst Hfe].
  exists sol. repeat split; try assumption.
  - unfold QP_subproblem. rewrite Hsol. reflexivity.
  - rewrite length_firstn, length_map. lia.
  - rewrite length_skipn, length_map. lia.
  - apply snap_spec.
  - apply snap_spec.
Qed.

(** * The tests of the loop body *)

Lemma count_nonzero_0 (v : vec) : count_nonzero v = O <-> all_zeros v.
Proof.
  unfold count_nonzero, all_zeros. induction v as [|e v IH]; simpl.
  - split; [constructor | reflexivity].
  - destruct (Qc_eq_bool e 0) eqn:E; simpl.
    + apply Qc_eq_bool_iff in E. rewrite IH. split.
      * intros H. constructor; assumption.
      * intros H. inversion H; assumption.
    + apply Qc_eq_bool_false in E. split; [discriminate|].
      intros H. inversion H; contradiction.
Qed.

Lemma zero_step_test (Nx : nat) (pk : vec) :
  Z.eqb (Z.of_nat Nx - Z.of_nat (count_nonzero pk)) (Z.of_nat Nx) = true
  <-> all_zeros pk.
Proof.
  rewrite <- count_nonzero_0, Z.eqb_eq. lia.
Qed.

Lemma lambda_inequality_skipn (Ne : nat) (lam : vec) :
  (if Nat.ltb Ne (length lam) then skipn Ne lam else []) = skipn Ne lam.
Proof.
  destruct (Nat.ltb_spec Ne (length lam)) as [H|H]; [reflexivity|].
  symmetry. apply skipn_all2. exact H.
Qed.

Lemma all_nonneg_iff (v : vec) :
  forallb (fun l => Qc_leb 0 l) v = true <-> all_nonnegative v.
Proof.
  unfold all_nonnegative. rewrite forallb_forall, Forall_forall.
  split; intros H e He; apply Qc_leb_le; apply H; exact He.
Qed.

Lemma all_zero_iff (v : vec) : all_zero v = true <-> all_zeros v.
Proof.
  unfold all_zero, all_zeros. rewrite forallb_forall, Forall_forall.
  split; intros H e He; apply Qc_eq_bool_iff; apply H; exact He.
Qed.

(** * When the loop body returns *)

Lemma iteration_Return (G : mat) (c : vec) (Nx Ne : nat) (we : mat)
  (s : state) (x lam : vec) :
  iteration G c Nx Ne we s = Return x lam
  <-> exists pk,
        QP_subproblem G c (ws s) (xk s) = Some (pk, lam) /\
        all_zeros pk /\ all_nonnegative (skipn Ne lam) /\ x = xk s.
Proof.
  unfold iteration.
  destruct (QP_subproblem G c (ws s) (xk s)) as [[pk lambda_k]|].
  2:{ split; [discriminate | intros (pk & H & _); discriminate]. }
  rewrite lambda_inequality_skipn.
  destruct (Z.eqb _ _) eqn:Ez.
  - apply zero_step_test in Ez.
    destruct (forallb _ (skipn Ne lambda_k)) eqn:Ef.
    + apply all_nonneg_iff in Ef. split.
      * intros H. inversion H; subst. exists pk. auto.
      * intros (pk' & H & _ & _ & ->). inversion H; subst. reflexivity.
    + split.
      * intros H. exfalso.
        destruct (argmin _) as [[n m]|]; [|discriminate].
        destruct (nth_error _ _); discriminate.
      * intros (pk' & H & _ & Hn & _). inversion H; subst.
        apply all_nonneg_iff in Hn. congruence.
  - split.
    + intros H. exfalso.
      destruct (step_length _ _ _) as [alpha_k n_constraint].
      destruct (Qc_eq_bool alpha_k 1); [discriminate|].
      destruct n_constraint as [n|]; [|discriminate].
      destruct (nth_error _ _); discriminate.
    + intros (pk' & H & Hz & _). inversion H; subst.
      apply (zero_step_test Nx) in Hz. congruence.
Qed.

Lemma loop_state_at (G : mat) (c : vec) (Nx Ne : nat) (we : mat)
  (fuel : nat) :
  forall (s : state) (r : result),
    loop fuel G c Nx Ne we s = Some r
    <-> exists k sk,
          (k < fuel)%nat /\ state_at k G c Nx Ne we s = Some sk /\
          match iteration G c Nx Ne we sk with
          | Continue _ => False
          | Return x lam => r = Returned ["solution find"%string] (PyPair x lam)
          | Raise e => r = Raised e
          end.
Proof.
  induction fuel as [|fuel IH]; intros s r; simpl.
  - split; [discriminate | intros (k & sk & Hk & _); lia].
  - destruct (iteration G c Nx Ne we s) as [s'|x lam|e] eqn:E.
    + rewrite IH. split.
      * intros (k & sk & Hk & Hs & Hr). exists (S k), sk.
        split; [lia|]. simpl. rewrite E. auto.
      * intros (k & sk & Hk & Hs & Hr). destruct k as [|k]; simpl in Hs.
        -- inversion Hs; subst sk. rewrite E in Hr. contradiction.
        -- rewrite E in Hs. exists k, sk. split; [lia|]. auto.
    + split.
      * intros H. inversion H; subst r. exists O, s. simpl. rewrite E.
        split; [lia|]. auto.
      * intros (k & sk & Hk & Hs & Hr). destruct k as [|k]; simpl in Hs.
        -- inversion Hs; subst sk. rewrite E in Hr. subst r. reflexivity.
        -- rewrite E in Hs. discriminate.
    + split.
      * intros H. inversion H; subst r. exists O, s. simpl. rewrite E.
        split; [lia|]. auto.
      * intros (k & sk & Hk & Hs & Hr). destruct k as [|k]; simpl in Hs.
        -- inversion Hs; subst sk. rewrite E in Hr. subst r. reflexivity.
        -- rewrite E in Hs. discriminate.
Qed.

Lemma Qcminus_0_eq (p r : Qc) : p - r = 0 -> p = r.
Proof.
  intros H. rewrite <- (Qcplus_0_l r), <- H. ring.
Qed.

(** * The feasibility test *)

Lemma feasibility_check_result (test : vec -> bool) (a : option mat)
  (b : option vec) (x0 : vec) (r : result) :
  feasibility_check test a b x0 = Some r ->
  r = Raised TypeError \/ r = Returned ["Error"%string] PyNone.
Proof.
  unfold feasibility_check. destruct a as [a|]; [|discriminate].
  destruct b as [b|].
  - destruct (test _); [discriminate|]. intros H. inversion H. auto.
  - intros H. inversion H. auto.
Qed.

Lemma in_vsub (a b : vec) (i : nat) :
  (i < length a)%nat -> In (nth i a 0 - nth i b 0) (vsub a b).
Proof.
  intros H. rewrite <- nth_vsub. apply nth_In.
  unfold vsub. rewrite length_vadd. lia.
Qed.

Lemma violated_equality_detected (a : mat) (b x0 : vec) :
  violates_equality a b x0 -> all_zero (vsub (matvec a x0) b) = false.
Proof.
  intros (i & Hi & Hne).
  destruct (all_zero _) eqn:E; [|reflexivity]. exfalso.
  apply all_zero_iff in E. unfold all_zeros in E. rewrite Forall_forall in E.
  specialize (E _ (in_vsub (matvec a x0) b i
                     ltac:(rewrite length_matvec; exact Hi))).
  apply Hne. apply Qcminus_0_eq. exact E.
Qed.

Lemma violated_inequality_detected (a : mat) (b x0 : vec) :
  violates_inequality a b x0 -> all_nonneg (vsub (matvec a x0) b) = false.
Proof.
  intros (i & Hi & Hlt).
  destruct (all_nonneg _) eqn:E; [|reflexivity]. exfalso.
  apply all_nonneg_iff in E. unfold all_nonnegative in E.
  rewrite Forall_forall in E.
  specialize (E _ (in_vsub (matvec a x0) b i
                     ltac:(rewrite length_matvec; exact Hi))).
  qc_order.
Qed.

(** In exact arithmetic every violation is found.  On inputs of the
    documented shapes, when the starting point (the given [x0], or the
    zero vector when [x0] is omitted) violates a row of the supplied
    equalities ([A_e x0 <> b_e] in a component) or a row of the supplied
    inequalities ([(A_i x0)_i < (b_i)_i]), [QP_activeset] prints
    ["Error"] and returns [None].  It does so for every amount of fuel,
    also for none: the loop is not entered and no subproblem is
    solved. *)
Theorem infeasible_start_returns_None (fuel : nat) (G : mat) (c : vec)
  (ae : option mat) (be : option vec) (ai : option mat) (bi : option vec)
  (x0 : option vec) :
  let x := start_point (length G) x0 in
  well_shaped G c ae be ai bi x0 ->
  match ae, be with
  | Some a, Some b => violates_equality a b x
  | _, _ => False
  end
  \/
  match ai, bi with
  | Some a, Some b => violates_inequality a b x
  | _, _ => False
  end ->
  QP_activeset fuel G c ae be ai bi x0
  = Some (Returned ["Error"%string] PyNone).
Proof.
  intros x (_ & _ & _ & Hbe & _) H. unfold QP_activeset. fold x.
  destruct H as [H|H].
  - destruct ae as [a|]; [|contradiction]. destruct be as [b|]; [|contradiction].
    simpl. rewrite (violated_equality_detected _ _ _ H). reflexivity.
  - destruct (feasibility_check all_zero ae be x) as [r|] eqn:E.
    + unfold feasibility_check in E. destruct ae as [a|]; [|discriminate].
      destruct be as [b|]; [|contradiction].
      destruct (all_zero _); [discriminate|]. symmetry. exact E.
    + destruct ai as [a|]; [|contradiction]. destruct bi as [b|]; [|contradiction].
      simpl. rewrite (violated_inequality_detected _ _ _ H). reflexivity.
Qed.

(** Claim C2.  [QP_activeset] returns a pair [(x, lam)] exactly when
    the starting point passes both feasibility tests and, in some pass
    [k] of the loop, the step [pk] of the subproblem is all zeros after
    the snap and every entry of [lam] after the first [Ne] is [>= 0]
    (a non-strict test); [x] is the iterate [xk] of that pass and [lam]
    its multiplier vector, so the multipliers of the active inequality
    rows are non-negative at every such return. *)
Theorem QP_activeset_returns_iff (G : mat) (c : vec)
  (ae : option mat) (be : option vec) (ai : option mat) (bi : option vec)
  (x0 : option vec) (x lam : vec) :
  let Nx := length G in
  let Ne := equality_count ae in
  let we := equality_rows ae be in
  let s0 := initial_state ae be ai bi (start_point Nx x0) in
  (exists fuel out,
      QP_activeset fuel G c ae be ai bi x0
      = Some (Returned out (PyPair x lam)))
  <->
  (feasibility_check all_zero ae be (start_point Nx x0) = None /\
   feasibility_check all_nonneg ai bi (start_point Nx x0) = None /\
   exists k sk pk,
     state_at k G c Nx Ne we s0 = Some sk /\
     QP_subproblem G c (ws sk) (xk sk) = Some (pk, lam) /\
     all_zeros pk /\
     all_nonnegative (skipn Ne lam) /\
     x = xk sk).
Proof.
  intros Nx Ne we s0. unfold QP_activeset. fold Nx Ne we s0.
  destruct (feasibility_check all_zero ae be (start_point Nx x0))
    as [r|] eqn:E1.
  { split.
    - intros (fuel & out & H). inversion H; subst r.
      destruct (feasibility_check_result _ _ _ _ _ E1); discriminate.
    - intros [H _]. discriminate. }
  destruct (feasibility_check all_nonneg ai bi (start_point Nx x0))
    as [r|] eqn:E2.
  { split.
    - intros (fuel & out & H). inversion H; subst r.
      destruct (feasibility_check_result _ _ _ _ _ E2); discriminate.
    - intros (_ & H & _). discriminate. }
  split.
  - intros (fuel & out & H). split; [reflexivity|]. split; [reflexivity|].
    apply loop_state_at in H. destruct H as (k & sk & _ & Hs & Hr).
    destruct (iteration G c Nx Ne we sk) as [s'|x' lam'|e] eqn:Ei;
      [contradiction| |discriminate].
    inversion Hr; subst x' lam' out.
    apply iteration_Return in Ei. destruct Ei as (pk & Hq & Hz & Hn & Hx).
    exists k, sk, pk. auto.
  - intros (_ & _ & k & sk & pk & Hs & Hq & Hz & Hn & Hx).
    exists (S k), ["solution find"%string]. apply loop_state_at.
    exists k, sk. split; [lia|]. split; [exact Hs|].
    assert (Ei : iteration G c Nx Ne we sk = Return x lam)
      by (apply iteration_Return; exists pk; auto).
    rewrite Ei. reflexivity.
Qed.

(** * Shapes kept by the loop *)

Lemma QP_subproblem_lengths (G : mat) (c : vec) (wset : mat) (x pk lam : vec) :
  length G = length x ->
  QP_subproblem G c wset x = Some (pk, lam) ->
  length pk = length x /\ length lam = length wset.
Proof.
  intros HG. unfold QP_subproblem.
  destruct (kkt_solution G c wset x) as [sol|] eqn:E; [|discriminate].
  intros H. inversion H; subst pk lam.
  assert (Hl := kkt_solution_length G c wset x sol HG E).
  clear H.
  rewrite length_firstn, length_skipn, length_map. lia.
Qed.

(** Claim C10.  When the step after the snap is all zeros and the active
    set is empty, the inequality block of [lambda_k] is empty, the test
    on the multipliers holds on the empty block, and the pass returns
    [(xk, lambda_k)] without entering the branch that drops a row. *)
Theorem zero_step_with_empty_active_set_returns (G : mat) (c : vec)
  (Nx Ne : nat) (we : mat) (s : state) (pk lambda_k : vec) :
  consistent G Ne we s ->
  ws_active s = [] ->
  QP_subproblem G c (ws s) (xk s) = Some (pk, lambda_k) ->
  all_zeros pk ->
  skipn Ne lambda_k = [] /\
  iteration G c Nx Ne we s = Return (xk s) lambda_k /\
  forall fuel,
    loop (S fuel) G c Nx Ne we s
    = Some (Returned ["solution find"%string] (PyPair (xk s) lambda_k)).
Proof.
  intros (HG & Hws & Hwe) Hact Hq Hz.
  destruct (QP_subproblem_lengths _ _ _ _ _ _ HG Hq) as [_ Hl].
  assert (Hskip : skipn Ne lambda_k = []).
  { apply skipn_all2. rewrite Hl, Hws, Hact, app_nil_r. lia. }
  assert (Hit : iteration G c Nx Ne we s = Return (xk s) lambda_k).
  { apply iteration_Return. exists pk. repeat split; auto.
    rewrite Hskip. constructor. }
  repeat split; auto.
  intros fuel. simpl. rewrite Hit. reflexivity.
Qed.

(** * [argmin] *)

Lemma argmin_None (l : vec) : argmin l = None -> l = [].
Proof.
  destruct l as [|v l]; [reflexivity|]. simpl.
  destruct (argmin l) as [[i m]|]; [|discriminate].
  destruct (Qc_leb v m); discriminate.
Qed.

Lemma argmin_spec (l : vec) :
  forall (n : nat) (m : Qc),
    argmin l = Some (n, m) ->
    (n < length l)%nat /\ nth n l 0 = m /\
    (forall j, (j < length l)%nat -> m <= nth j l 0) /\
    (forall j, (j < n)%nat -> m < nth j l 0).
Proof.
  induction l as [|v l IH]; intros n m H; simpl in H; [discriminate|].
  destruct (argmin l) as [[i m']|] eqn:E.
  - destruct (IH i m' eq_refl) as (Hi & Hnth & Hmin & Hfirst).
    destruct (Qc_leb v m') eqn:Ev; inversion H; subst n m; clear H.
    + apply Qc_leb_le in Ev. simpl. repeat split; try lia.
      intros [|j] Hj; [apply Qcle_refl|].
      apply Qcle_trans with m'; [exact Ev|]. apply Hmin. lia.
    + apply Qc_leb_false in Ev. simpl. repeat split; try lia; try assumption.
      * intros [|j] Hj; [apply Qclt_le_weak; exact Ev|]. apply Hmin. lia.
      * intros [|j] Hj; [exact Ev|]. apply Hfirst. lia.
  - apply argmin_None in E. subst l. inversion H; subst n m. simpl.
    repeat split; try lia.
    intros [|[|j]] Hj; simpl in *; try lia. apply Qcle_refl.
Qed.

Lemma argmin_Some (l : vec) : l <> [] -> exists n m, argmin l = Some (n, m).
Proof.
  destruct l as [|v l]; [congruence|]. intros _. simpl.
  destruct (argmin l) as [[i m]|]; [|eauto].
  destruct (Qc_leb v m); eauto.
Qed.

(** * Rows moved between the two sets *)

Lemma delete_row_Permutation {A : Type} (l : list A) (n : nat) (x : A) :
  nth_error l n = Some x -> Permutation l (x :: delete_row n l).
Proof.
  revert n. induction l as [|y l IH]; intros [|n] H; simpl in *;
    try discriminate.
  - inversion H. reflexivity.
  - rewrite (IH n H) at 1. apply perm_swap.
Qed.

Lemma delete_row_incl {A : Type} (l : list A) (n : nat) (x : A) :
  In x (delete_row n l) -> In x l.
Proof.
  revert n. induction l as [|y l IH]; intros [|n] H; simpl in *; auto.
  destruct H as [H|H]; eauto.
Qed.

(** * The step length *)

Lemma combine_snoc {A B : Type} (l : list A) (l' : list B) (x : A) (y : B) :
  length l = length l' ->
  combine (l ++ [x]) (l' ++ [y]) = combine l l' ++ [(x, y)].
Proof.
  revert l'. induction l as [|a l IH]; intros [|b l'] H; simpl in *;
    try discriminate; [reflexivity|].
  f_equal. apply IH. lia.
Qed.

Lemma enumerate_snoc {A : Type} (l : list A) (x : A) :
  enumerate (l ++ [x]) = enumerate l ++ [(length l, x)].
Proof.
  unfold enumerate. rewrite length_app. simpl.
  rewrite seq_app. simpl.
  apply combine_snoc. apply length_seq.
Qed.

Lemma step_length_snoc (rows : mat) (row xk pk : vec) :
  step_length (rows ++ [row]) xk pk
  = alpha_update xk pk (step_length rows xk pk) (length rows, row).
Proof.
  unfold step_length. rewrite enumerate_snoc, fold_left_app. reflexivity.
Qed.

Lemma alpha_update_cases (xk pk : vec) (acc : Qc * option nat) (i : nat)
  (row : vec) :
  (blocking xk pk row /\
   alpha_update xk pk acc (i, row) = (ratio xk pk row, Some i))
  \/ (~ blocking xk pk row /\ alpha_update xk pk acc (i, row) = acc).
Proof.
  unfold alpha_update, blocking, ratio. simpl.
  destruct (Qc_ltb (dot (removelast row) pk) 0) eqn:E1.
  - apply Qc_ltb_lt in E1.
    destruct (Qc_ltb _ 1) eqn:E2.
    + apply Qc_ltb_lt in E2. left. auto.
    + right. split; [|reflexivity]. intros [_ H].
      apply Qc_ltb_lt in H. congruence.
  - right. split; [|reflexivity]. intros [H _].
    apply Qc_ltb_lt in H. congruence.
Qed.

(** [alpha_k] is the ratio of the last row of [ws_inactive] that blocks
    the step, and [n_constraint] the index of that row; [alpha_k] is 1
    when no row blocks. *)
Lemma step_length_spec (rows : mat) (xk pk : vec) :
  match step_length rows xk pk with
  | (alpha, None) =>
      alpha = 1 /\ forall row, In row rows -> ~ blocking xk pk row
  | (alpha, Some n) =>
      exists row,
        nth_error rows n = Some row /\ blocking xk pk row /\
        alpha = ratio xk pk row /\
        forall j row', (n < j)%nat -> nth_error rows j = Some row' ->
                       ~ blocking xk pk row'
  end.
Proof.
  induction rows as [|row rows IH] using rev_ind.
  - simpl. split; [reflexivity|]. intros row [].
  - rewrite step_length_snoc.
    destruct (alpha_update_cases xk pk (step_length rows xk pk)
                (length rows) row) as [[Hb ->]|[Hb ->]].
    + exists row. split; [|split; [exact Hb|split; [reflexivity|]]].
      * rewrite nth_error_app2 by lia. rewrite Nat.sub_diag. reflexivity.
      * intros j row' Hj Hn.
        assert (nth_error (rows ++ [row]) j <> None) by congruence.
        apply nth_error_Some in H. rewrite length_app in H. simpl in H. lia.
    + destruct (step_length rows xk pk) as [alpha [n|]].
      * destruct IH as (r & Hn & Hr & Ha & Hlast).
        exists r. split; [|split; [exact Hr|split; [exact Ha|]]].
        -- rewrite nth_error_app1; [exact Hn|].
           apply nth_error_Some. congruence.
        -- intros j row' Hj Hn'.
           destruct (Nat.lt_ge_cases j (length rows)) as [Hlt|Hge].
           ++ rewrite nth_error_app1 in Hn' by exact Hlt. eauto.
           ++ rewrite nth_error_app2 in Hn' by exact Hge.
              destruct (j - length rows)%nat as [|d]; simpl in Hn'.
              ** inversion Hn'; subst. exact Hb.
              ** destruct d; discriminate.
      * destruct IH as [Ha Hnone]. split; [exact Ha|].
        intros r Hin. apply in_app_or in Hin. destruct Hin as [Hin|[<-|[]]].
        -- apply Hnone. exact Hin.
        -- exact Hb.
Qed.

(** * What a pass that does not leave the loop does *)

Lemma iteration_Continue (G : mat) (c : vec) (Nx Ne : nat) (we : mat)
  (s s' : state) :
  iteration G c Nx Ne we s = Continue s' <-> pass G c Ne we s s'.
Proof.
  unfold iteration. split.
  - destruct (QP_subproblem G c (ws s) (xk s)) as [[pk lam]|] eqn:Eq;
      [|discriminate].
    rewrite lambda_inequality_skipn.
    destruct (Z.eqb _ _) eqn:Ez.
    + apply zero_step_test in Ez.
      destruct (forallb _ (skipn Ne lam)) eqn:Ef; [discriminate|].
      assert (Hn : ~ all_nonnegative (skipn Ne lam)).
      { intros H. apply all_nonneg_iff in H. congruence. }
      destruct (argmin (skipn Ne lam)) as [[n m]|] eqn:Ea; [|discriminate].
      destruct (nth_error (ws_active s) n) as [row|] eqn:En; [|discriminate].
      intros H. inversion H; subst s'. eapply pass_drop; eauto.
    + assert (Hz : ~ all_zeros pk).
      { intros H. apply (zero_step_test Nx) in H. congruence. }
      destruct (step_length (ws_inactive s) (xk s) pk)
        as [alpha_k n_constraint] eqn:Es.
      destruct (Qc_eq_bool alpha_k 1) eqn:Ea.
      * apply Qc_eq_bool_iff in Ea. subst alpha_k.
        intros H. inversion H; subst s'. eapply pass_full; eauto.
      * apply Qc_eq_bool_false in Ea.
        destruct n_constraint as [n|]; [|discriminate].
        destruct (nth_error (ws_inactive s) n) as [row|] eqn:En;
          [|discriminate].
        intros H. inversion H; subst s'. eapply pass_partial; eauto.
  - intros H. destruct H as [pk lam n m row Hq Hz Hn Ha Hr
                            |pk lam nc Hq Hz Hs
                            |pk lam alpha_k n row Hq Hz Hs Ha Hr];
      rewrite Hq, lambda_inequality_skipn.
    + apply (zero_step_test Nx) in Hz. rewrite Hz.
      destruct (forallb _ (skipn Ne lam)) eqn:Ef.
      * apply all_nonneg_iff in Ef. contradiction.
      * rewrite Ha, Hr. reflexivity.
    + destruct (Z.eqb _ _) eqn:Ez.
      * apply zero_step_test in Ez. contradiction.
      * rewrite Hs.
        destruct (Qc_eq_bool 1 1) eqn:E1; [reflexivity|].
        apply Qc_eq_bool_false in E1. congruence.
    + destruct (Z.eqb _ _) eqn:Ez.
      * apply zero_step_test in Ez. contradiction.
      * rewrite Hs.
        destruct (Qc_eq_bool alpha_k 1) eqn:E1.
        -- apply Qc_eq_bool_iff in E1. contradiction.
        -- rewrite Hr. reflexivity.
Qed.

Lemma delete_row_split {A : Type} (l : list A) (n : nat) (x : A) :
  nth_error l n = Some x ->
  l = firstn n l ++ x :: skipn (S n) l /\
  delete_row n l = firstn n l ++ skipn (S n) l.
Proof.
  revert n. induction l as [|y l IH]; intros [|n] H; simpl in *;
    try discriminate.
  - inversion H. auto.
  - destruct (IH n H) as [E1 E2]. rewrite <- E1, E2. auto.
Qed.

(** Claim C5.  In a pass where the step after the snap is all zeros and
    some inequality multiplier is negative, the row [row_del] of
    [ws_active] at the index [n_min] of the least inequality multiplier
    (the first such index on ties) leaves [ws_active], whose rows
    before and after it stay in their order, and goes to the end of
    [ws_inactive]; [ws] becomes the equality rows followed by the
    remaining active rows, and [xk] is unchanged. *)
Theorem negative_multiplier_drops_argmin_row (G : mat) (c : vec)
  (Nx Ne : nat) (we : mat) (s : state) (pk lambda_k : vec) :
  consistent G Ne we s ->
  QP_subproblem G c (ws s) (xk s) = Some (pk, lambda_k) ->
  all_zeros pk ->
  Exists (fun l => l < 0) (skipn Ne lambda_k) ->
  exists (n_min : nat) (row_del : vec) (before after : mat),
    (n_min < length (skipn Ne lambda_k))%nat /\
    (forall j, (j < length (skipn Ne lambda_k))%nat ->
               nth n_min (skipn Ne lambda_k) 0 <= nth j (skipn Ne lambda_k) 0) /\
    (forall j, (j < n_min)%nat ->
               nth n_min (skipn Ne lambda_k) 0 < nth j (skipn Ne lambda_k) 0) /\
    ws_active s = before ++ row_del :: after /\
    length before = n_min /\
    iteration G c Nx Ne we s
    = Continue (mkState (xk s)
                        (before ++ after)
                        (ws_inactive s ++ [row_del])
                        (we ++ before ++ after)).
Proof.
  intros (HG & Hws & Hwe) Hq Hz Hneg.
  destruct (QP_subproblem_lengths _ _ _ _ _ _ HG Hq) as [_ Hl].
  assert (Hlen : length (skipn Ne lambda_k) = length (ws_active s)).
  { rewrite length_skipn, Hl, Hws, length_app. lia. }
  assert (Hne : skipn Ne lambda_k <> []).
  { intros E. rewrite E in Hneg. inversion Hneg. }
  destruct (argmin_Some _ Hne) as (n & m & Ha).
  destruct (argmin_spec _ _ _ Ha) as (Hn & Hnth & Hmin & Hfirst).
  destruct (nth_error (ws_active s) n) as [row|] eqn:Er.
  2:{ apply nth_error_None in Er. lia. }
  destruct (delete_row_split _ _ _ Er) as [Esplit Edel].
  exists n, row, (firstn n (ws_active s)), (skipn (S n) (ws_active s)).
  rewrite Hnth. repeat split; auto.
  - rewrite length_firstn. lia.
  - rewrite <- Edel. apply iteration_Continue. eapply pass_drop; eauto.
    intros Hall. unfold all_nonnegative in Hall.
    rewrite Forall_forall in Hall. apply Exists_exists in Hneg.
    destruct Hneg as (l & Hin & Hlt). specialize (Hall l Hin).
    apply (Qclt_not_le _ _ Hlt). exact Hall.
Qed.

(** * [active_set] *)

Lemma mask_rows_map {A : Type} (f : A -> bool) (l : list A) :
  mask_rows (map f l) l = filter f l.
Proof.
  induction l as [|x l IH]; simpl; [reflexivity|].
  rewrite IH. reflexivity.
Qed.

Lemma hstack_nil_r (X : mat) : hstack X [] = [].
Proof. destruct X; reflexivity. Qed.

Lemma hstack_mask_rows (mask : list bool) (ai : mat) (bi : vec) :
  hstack (mask_rows mask ai) (column (mask_rows mask bi))
  = map row_of (mask_rows mask (combine ai bi)).
Proof.
  revert ai bi. induction mask as [|m mask IH]; intros [|a ai] [|b bi];
    simpl; try reflexivity.
  - apply hstack_nil_r.
  - destruct m; simpl; rewrite IH; reflexivity.
Qed.

Lemma hstack_column (ai : mat) (bi : vec) :
  hstack ai (column bi) = map row_of (combine ai bi).
Proof.
  revert bi. induction ai as [|a ai IH]; intros [|b bi]; simpl;
    try reflexivity.
  rewrite IH. reflexivity.
Qed.

Lemma residual_combine (ai : mat) (bi x0 : vec) :
  length bi = length ai ->
  vsub (matvec ai x0) bi
  = map (fun r : vec * Qc => dot (fst r) x0 - snd r) (combine ai bi).
Proof.
  unfold vsub.
  revert bi. induction ai as [|a ai IH]; intros [|b bi] H; simpl in *;
    try discriminate; [reflexivity|].
  f_equal. apply IH. lia.
Qed.

Lemma active_set_filter (ai : mat) (bi x0 : vec) :
  length bi = length ai ->
  active_set ai bi x0
  = (map row_of (filter (is_active x0) (combine ai bi)),
     map row_of (filter (fun r => negb (is_active x0 r)) (combine ai bi))).
Proof.
  intros H. unfold active_set.
  rewrite !hstack_mask_rows, (residual_combine ai bi x0 H), !map_map.
  fold (is_active x0).
  change (fun x : vec * Qc => Qc_eq_bool (dot (fst x) x0 - snd x) 0)
    with (is_active x0).
  rewrite !mask_rows_map. reflexivity.
Qed.

Lemma filter_partition_Permutation {A : Type} (f : A -> bool) (l : list A) :
  Permutation (filter f l ++ filter (fun x => negb (f x)) l) l.
Proof.
  induction l as [|x l IH]; simpl; [constructor|].
  destruct (f x); simpl.
  - constructor. exact IH.
  - rewrite <- Permutation_middle. constructor. exact IH.
Qed.

Lemma length_row_of (n : nat) (r : vec * Qc) :
  length (fst r) = n -> length (row_of r) = S n.
Proof. intros H. unfold row_of. rewrite length_app, H. simpl. lia. Qed.

Lemma removelast_row_of (r : vec * Qc) : removelast (row_of r) = fst r.
Proof. unfold row_of. apply removelast_last. Qed.

Lemma last_row_of (r : vec * Qc) : last (row_of r) 0 = snd r.
Proof. unfold row_of. apply last_last. Qed.

Lemma active_set_Permutation (ai : mat) (bi x0 : vec) :
  length bi = length ai ->
  Permutation (fst (active_set ai bi x0) ++ snd (active_set ai bi x0))
              (hstack ai (column bi)).
Proof.
  intros H. rewrite (active_set_filter ai bi x0 H). simpl.
  rewrite <- map_app, hstack_column. apply Permutation_map.
  apply filter_partition_Permutation.
Qed.

Lemma active_set_cols (ai : mat) (bi x0 : vec) (Nx : nat) :
  length bi = length ai ->
  Forall (fun a => length a = Nx) ai ->
  Forall (fun row => length row = S Nx)
         (fst (active_set ai bi x0) ++ snd (active_set ai bi x0)).
Proof.
  intros H Hai. rewrite (active_set_filter ai bi x0 H). simpl.
  rewrite <- map_app, Forall_map.
  apply Forall_forall. intros r Hr.
  apply length_row_of.
  assert (Hin : In r (combine ai bi)).
  { apply in_app_or in Hr. destruct Hr as [Hr|Hr];
      apply filter_In in Hr; tauto. }
  destruct r as [a b]. apply in_combine_l in Hin.
  rewrite Forall_forall in Hai. simpl. auto.
Qed.

(** In exact arithmetic: [active_set ai bi x0] classifies row [i] as
    active exactly when [(ai x0)_i - (bi)_i] is zero, with no
    tolerance; it returns the rows [[a | b]] of the active constraints and those of the inactive
    ones, each list in the order of the input, of width [Nx + 1], and
    the two lists together are the rows of [[ai | bi]] (each row in
    exactly one of them). *)
Theorem active_set_exact_partition (ai : mat) (bi x0 : vec) :
  length bi = length ai ->
  let active (r : vec * Qc) := Qc_eq_bool (dot (fst r) x0 - snd r) 0 in
  let concat (r : vec * Qc) := fst r ++ [snd r] in
  active_set ai bi x0
  = (map concat (filter active (combine ai bi)),
     map concat (filter (fun r => negb (active r)) (combine ai bi)))
  /\ (forall r, active r = true <-> dot (fst r) x0 - snd r = 0)
  /\ Permutation (fst (active_set ai bi x0) ++ snd (active_set ai bi x0))
                 (hstack ai (column bi))
  /\ forall Nx,
       Forall (fun a => length a = Nx) ai ->
       Forall (fun row => length row = S Nx)
              (fst (active_set ai bi x0) ++ snd (active_set ai bi x0)).
Proof.
  intros H active concat.
  split; [exact (active_set_filter ai bi x0 H)|].
  split; [intros r; apply Qc_eq_bool_iff|].
  split; [exact (active_set_Permutation ai bi x0 H)|].
  intros Nx. exact (active_set_cols ai bi x0 Nx H).
Qed.

(** * The invariants of the working set *)

Lemma pass_partition (G : mat) (c : vec) (Ne : nat) (we : mat)
  (s s' : state) :
  pass G c Ne we s s' ->
  Permutation (ws_active s' ++ ws_inactive s') (ws_active s ++ ws_inactive s).
Proof.
  intros H. destruct H as [pk lam n m row Hq Hz Hn Ha Hr
                          |pk lam nc Hq Hz Hs
                          |pk lam alpha_k n row Hq Hz Hs Ha Hr]; simpl.
  - rewrite (delete_row_Permutation _ _ _ Hr) at 2. simpl.
    rewrite app_assoc. rewrite <- Permutation_cons_append. reflexivity.
  - reflexivity.
  - rewrite (delete_row_Permutation _ _ _ Hr) at 2.
    rewrite <- app_assoc. simpl. reflexivity.
Qed.

Lemma pass_consistent (G : mat) (c : vec) (Ne : nat) (we : mat)
  (s s' : state) :
  consistent G Ne we s -> pass G c Ne we s s' -> consistent G Ne we s'.
Proof.
  intros (HG & Hws & Hwe) H.
  assert (Hstep : forall pk lam alpha,
            QP_subproblem G c (ws s) (xk s) = Some (pk, lam) ->
            length G = length (vadd (xk s) (vscale alpha pk))).
  { intros pk lam alpha Hq.
    destruct (QP_subproblem_lengths _ _ _ _ _ _ HG Hq) as [Hp _].
    rewrite length_vadd, length_vscale, Hp. lia. }
  destruct H as [pk lam n m row Hq Hz Hn Ha Hr
                |pk lam nc Hq Hz Hs
                |pk lam alpha_k n row Hq Hz Hs Ha Hr];
    unfold consistent; simpl; repeat split; eauto.
Qed.

Lemma pass_shaped (G : mat) (c : vec) (Ne : nat) (we : mat)
  (s s' : state) :
  shaped G Ne we s -> pass G c Ne we s s' -> shaped G Ne we s'.
Proof.
  intros [Hc Hrows] H. split; [eapply pass_consistent; eauto|].
  rewrite Forall_app in *. destruct Hrows as [Hwe Hrows].
  split; [exact Hwe|].
  eapply Permutation_Forall; [|exact Hrows].
  symmetry. eapply pass_partition; eauto.
Qed.

Lemma matvec_zeros_dot (A : mat) (p : vec) (n : nat) :
  matvec A p = zeros n -> forall a, In a A -> dot a p = 0.
Proof.
  revert n. induction A as [|r A IH]; intros n H a Hin; [destruct Hin|].
  destruct n as [|n]; simpl in H; [discriminate|].
  injection H as Hr HA.
  destruct Hin as [<-|Hin]; [exact Hr|].
  apply (IH n HA a Hin).
Qed.

Lemma on_constraint_step (x p row : vec) (alpha : Qc) :
  on_constraint x row -> dot (removelast row) p = 0 ->
  on_constraint (vadd x (vscale alpha p)) row.
Proof.
  unfold on_constraint. intros H Hp.
  rewrite dot_vadd_r, dot_vscale_r, H, Hp. ring.
Qed.

Lemma on_constraint_blocking (x p row : vec) :
  blocking x p row ->
  on_constraint (vadd x (vscale (ratio x p row) p)) row.
Proof.
  unfold blocking, on_constraint, ratio. intros [Hlt _].
  rewrite dot_vadd_r, dot_vscale_r. field.
  intros E. rewrite E in Hlt. apply (Qclt_not_eq _ _ Hlt). reflexivity.
Qed.

(** The exact step keeps every row of the working set. *)
Lemma exact_step_tangent (G : mat) (c : vec) (wset : mat) (x pk lam : vec) :
  length G = length x ->
  Forall (fun r => length r = length x) G ->
  Forall (fun r => length r = S (length x)) wset ->
  length c = length x ->
  (forall sol, kkt_solution G c wset x = Some sol ->
               firstn (length x) (map snap sol) = firstn (length x) sol) ->
  QP_subproblem G c wset x = Some (pk, lam) ->
  forall row, In row wset -> dot (removelast row) pk = 0.
Proof.
  intros HG HGc Hw Hc Hsnap Hq row Hin. unfold QP_subproblem in Hq.
  destruct (kkt_solution G c wset x) as [sol|] eqn:E; [|discriminate].
  inversion Hq; subst pk lam. rewrite (Hsnap sol eq_refl).
  destruct (kkt_solution_equations G c wset x HG HGc Hw Hc sol E) as [_ HA].
  apply (matvec_zeros_dot _ _ _ HA).
  unfold coefficients. apply in_map. exact Hin.
Qed.

Lemma pass_on_constraint (G : mat) (c : vec) (Ne : nat) (we : mat)
  (s s' : state) :
  Forall (fun r => length r = length G) G -> length c = length G ->
  shaped G Ne we s ->
  snap_exact G c s ->
  Forall (on_constraint (xk s)) (ws s) ->
  pass G c Ne we s s' ->
  Forall (on_constraint (xk s')) (ws s').
Proof.
  intros HGc Hc [(HG & Hws & Hwe) Hrows] Hsnap Hon H.
  assert (Hwrows : Forall (fun r => length r = S (length (xk s))) (ws s)).
  { rewrite <- HG, Hws. rewrite app_assoc, Forall_app in Hrows. tauto. }
  rewrite HG in HGc, Hc.
  assert (Htan : forall pk lam,
            QP_subproblem G c (ws s) (xk s) = Some (pk, lam) ->
            forall row, In row (ws s) -> dot (removelast row) pk = 0).
  { intros pk lam Hq. eapply exact_step_tangent; eauto. }
  assert (Hmove : forall pk lam alpha,
            QP_subproblem G c (ws s) (xk s) = Some (pk, lam) ->
            Forall (on_constraint (vadd (xk s) (vscale alpha pk))) (ws s)).
  { intros pk lam alpha Hq. rewrite Forall_forall in *.
    intros row Hin. apply on_constraint_step; eauto. }
  destruct H as [pk lam n m row Hq Hz Hn Ha Hr
                |pk lam nc Hq Hz Hs
                |pk lam alpha_k n row Hq Hz Hs Ha Hr]; simpl.
  - rewrite Hws, Forall_app in Hon. destruct Hon as [Hon1 Hon2].
    apply Forall_app. split; [exact Hon1|].
    rewrite Forall_forall in *. intros r Hr'. apply Hon2.
    eapply delete_row_incl; eauto.
  - eapply Hmove; eauto.
  - rewrite app_assoc, <- Hws. apply Forall_app. split.
    + eapply Hmove; eauto.
    + constructor; [|constructor].
      assert (Hspec := step_length_spec (ws_inactive s) (xk s) pk).
      rewrite Hs in Hspec. destruct Hspec as (r & Hr' & Hb & Halpha & _).
      assert (r = row) by congruence. subst r. rewrite Halpha.
      apply on_constraint_blocking. exact Hb.
Qed.

(** * The state at the entry of the loop *)

Lemma equality_rows_eq (a : mat) (b : vec) :
  equality_rows (Some a) (Some b) = map row_of (combine a b).
Proof. apply hstack_column. Qed.

Lemma length_map_row_of_combine (a : mat) (b : vec) :
  length b = length a -> length (map row_of (combine a b)) = length a.
Proof. intros H. rewrite length_map, length_combine. lia. Qed.

Lemma rows_shaped (Nx : nat) (a : mat) (b : vec) :
  Forall (fun r => length r = Nx) a ->
  Forall (fun r => length r = S Nx) (map row_of (combine a b)).
Proof.
  intros H. rewrite Forall_map. apply Forall_forall. intros [r v] Hin.
  apply length_row_of. apply in_combine_l in Hin.
  rewrite Forall_forall in H. simpl. auto.
Qed.

Lemma on_constraint_row_of (x : vec) (r : vec * Qc) :
  on_constraint x (row_of r) <-> dot (fst r) x - snd r = 0.
Proof.
  unfold on_constraint. rewrite removelast_row_of, last_row_of. split.
  - intros ->. ring.
  - apply Qcminus_0_eq.
Qed.

Section Entry.

Variables (G : mat) (c : vec) (ae : option mat) (be : option vec)
  (ai : option mat) (bi : option vec) (x0 : option vec).

Local Abbreviation Nx := (length G).
Local Abbreviation x := (start_point Nx x0).
Local Abbreviation Ne := (equality_count ae).
Local Abbreviation we := (equality_rows ae be).
Local Abbreviation s0 := (initial_state ae be ai bi x).

Hypothesis shapes : well_shaped G c ae be ai bi x0.

Lemma initial_active_inactive :
  ws_active s0 ++ ws_inactive s0
  = match ai with
    | Some a => fst (active_set a (present bi) x) ++
                snd (active_set a (present bi) x)
    | None => []
    end
  /\ xk s0 = x /\ ws s0 = we ++ ws_active s0.
Proof.
  unfold initial_state. destruct ai as [a|].
  - destruct (active_set a (present bi) x) as [act inact]. simpl. auto.
  - simpl. auto.
Qed.

Lemma initial_partition :
  Permutation (ws_active s0 ++ ws_inactive s0) (inequality_rows ai bi).
Proof.
  destruct initial_active_inactive as (E & _ & _). rewrite E.
  destruct shapes as (_ & _ & _ & _ & Hi).
  unfold inequality_rows. destruct ai as [a|]; [|reflexivity].
  destruct bi as [b|]; [|contradiction]. destruct Hi as [_ Hl].
  apply (active_set_Permutation a b x Hl).
Qed.

Lemma initial_shaped : shaped G Ne we s0.
Proof.
  destruct shapes as (HGc & Hc & Hx & He & Hi).
  destruct initial_active_inactive as (E & Ex & Ews).
  split.
  - split; [rewrite Ex; symmetry; exact Hx|]. split; [exact Ews|].
    destruct ae as [a|]; [|reflexivity].
    destruct be as [b|]; [|contradiction]. destruct He as [_ Hl].
    rewrite equality_rows_eq. apply length_map_row_of_combine. exact Hl.
  - apply Forall_app. split.
    + destruct ae as [a|]; [|constructor].
      destruct be as [b|]; [|contradiction]. destruct He as [Ha _].
      rewrite equality_rows_eq. apply rows_shaped. exact Ha.
    + rewrite E. destruct ai as [a|]; [|constructor].
      destruct bi as [b|]; [|contradiction]. destruct Hi as [Ha Hl].
      apply (active_set_cols a b x (length G) Hl Ha).
Qed.

Lemma initial_on_constraint :
  feasibility_check all_zero ae be x = None ->
  Forall (on_constraint (xk s0)) (ws s0).
Proof.
  intros Hfe.
  destruct shapes as (_ & _ & _ & He & Hi).
  destruct initial_active_inactive as (_ & Ex & Ews).
  rewrite Ews, Ex. apply Forall_app. split.
  - destruct ae as [a|]; [|constructor].
    destruct be as [b|]; [|contradiction]. destruct He as [_ Hl].
    simpl in Hfe.
    destruct (all_zero (vsub (matvec a x) b)) eqn:Ez; [|discriminate].
    apply all_zero_iff in Ez. unfold all_zeros in Ez.
    rewrite (residual_combine a b x Hl), Forall_map in Ez.
    rewrite equality_rows_eq, Forall_map.
    eapply Forall_impl; [|exact Ez].
    intros r Hr. apply on_constraint_row_of. exact Hr.
  - unfold initial_state. destruct ai as [a|]; [|constructor].
    destruct bi as [b|]; [|contradiction]. destruct Hi as [_ Hl].
    simpl present. rewrite (active_set_filter a b x Hl). simpl.
    rewrite Forall_map. apply Forall_forall. intros r Hr.
    apply filter_In in Hr. destruct Hr as [_ Hr].
    apply on_constraint_row_of. apply Qc_eq_bool_iff. exact Hr.
Qed.

End Entry.

Lemma state_at_S (G : mat) (c : vec) (Nx Ne : nat) (we : mat) (k : nat) :
  forall (s sk : state),
    state_at (S k) G c Nx Ne we s = Some sk ->
    exists s1, pass G c Ne we s s1 /\ state_at k G c Nx Ne we s1 = Some sk.
Proof.
  intros s sk H. simpl in H.
  destruct (iteration G c Nx Ne we s) as [s1| |] eqn:E; try discriminate.
  exists s1. split; [|exact H]. eapply iteration_Continue; eauto.
Qed.

Lemma state_at_shaped (G : mat) (c : vec) (Nx Ne : nat) (we : mat) (k : nat) :
  forall (s sk : state),
    shaped G Ne we s ->
    state_at k G c Nx Ne we s = Some sk ->
    shaped G Ne we sk /\
    Permutation (ws_active sk ++ ws_inactive sk)
                (ws_active s ++ ws_inactive s).
Proof.
  induction k as [|k IH]; intros s sk Hs H.
  - inversion H; subst. split; [exact Hs | reflexivity].
  - destruct (state_at_S _ _ _ _ _ _ _ _ H) as (s1 & Hp & H1).
    destruct (IH s1 sk (pass_shaped _ _ _ _ _ _ Hs Hp) H1) as [Hsk Hperm].
    split; [exact Hsk|]. rewrite Hperm. eapply pass_partition; eauto.
Qed.

Lemma state_at_on_constraint (G : mat) (c : vec) (Nx Ne : nat) (we : mat)
  (k : nat) :
  Forall (fun r => length r = length G) G -> length c = length G ->
  forall (s sk : state),
    shaped G Ne we s ->
    Forall (on_constraint (xk s)) (ws s) ->
    state_at k G c Nx Ne we s = Some sk ->
    (forall j sj, (j < k)%nat -> state_at j G c Nx Ne we s = Some sj ->
                  snap_exact G c sj) ->
    Forall (on_constraint (xk sk)) (ws sk).
Proof.
  intros HGc Hc. induction k as [|k IH]; intros s sk Hs Hon H Hsnap.
  - inversion H; subst. exact Hon.
  - destruct (state_at_S _ _ _ _ _ _ _ _ H) as (s1 & Hp & H1).
    apply (IH s1 sk).
    + eapply pass_shaped; eauto.
    + eapply pass_on_constraint; eauto.
      apply (Hsnap O s); [lia | reflexivity].
    + exact H1.
    + intros j sj Hj Hsj. apply (Hsnap (S j) sj); [lia|].
      simpl. apply (iteration_Continue G c Nx Ne we) in Hp.
      rewrite Hp. exact Hsj.
Qed.

(** Claim C6, amended.  In a run from a feasible start with inputs of
    the documented shapes, before every pass [k] of the loop: the rows
    of [ws_active] and [ws_inactive] together are the rows of the
    inequality block, each one exactly once, and [ws] is the equality
    rows followed by [ws_active]; and, provided the snap has left the
    step of every earlier pass as the solve gave it, [xk] satisfies
    every row of [ws] with equality. *)
Theorem working_set_invariants (G : mat) (c : vec)
  (ae : option mat) (be : option vec) (ai : option mat) (bi : option vec)
  (x0 : option vec) (k : nat) (sk : state) :
  let Nx := length G in
  let x := start_point Nx x0 in
  let Ne := equality_count ae in
  let we := equality_rows ae be in
  let s0 := initial_state ae be ai bi x in
  well_shaped G c ae be ai bi x0 ->
  feasibility_check all_zero ae be x = None ->
  feasibility_check all_nonneg ai bi x = None ->
  state_at k G c Nx Ne we s0 = Some sk ->
  Permutation (ws_active sk ++ ws_inactive sk) (inequality_rows ai bi) /\
  ws sk = we ++ ws_active sk /\
  ((forall j sj, (j < k)%nat -> state_at j G c Nx Ne we s0 = Some sj ->
                 snap_exact G c sj) ->
   Forall (on_constraint (xk sk)) (ws sk)).
Proof.
  intros Nx x Ne we s0 Hshape Hfe Hfi Hk.
  assert (Hs0 := initial_shaped G c ae be ai bi x0 Hshape).
  destruct (state_at_shaped _ _ _ _ _ _ _ _ Hs0 Hk) as [[Hc _] Hperm].
  split; [|split].
  - rewrite Hperm. apply (initial_partition G c ae be ai bi x0 Hshape).
  - apply Hc.
  - intros Hsnap. destruct Hshape as (HGc & Hcl & Hrest).
    eapply state_at_on_constraint; eauto.
    apply (initial_on_constraint G c ae be ai bi x0); [|exact Hfe].
    repeat split; tauto.
Qed.

(** * Deciding equalities by evaluation *)

Lemma decide_eq_sound {A : Type} (dec : forall a b : A, {a = b} + {a <> b})
  (a b : A) : decide_eq dec a b = true -> a = b.
Proof. unfold decide_eq. destruct (dec a b); [auto | discriminate]. Qed.

Lemma decide_eq_complete {A : Type} (dec : forall a b : A, {a = b} + {a <> b})
  (a b : A) : decide_eq dec a b = false -> a <> b.
Proof. unfold decide_eq. destruct (dec a b); [discriminate | auto]. Qed.

Lemma vec_eq_dec : forall a b : vec, {a = b} + {a <> b}.
Proof. apply list_eq_dec. apply Qc_eq_dec. Defined.

Lemma mat_eq_dec : forall a b : mat, {a = b} + {a <> b}.
Proof. apply list_eq_dec. apply vec_eq_dec. Defined.

Lemma state_eq_dec : forall a b : state, {a = b} + {a <> b}.
Proof. decide equality; first [apply mat_eq_dec | apply vec_eq_dec]. Defined.

Lemma exn_eq_dec : forall a b : exn, {a = b} + {a <> b}.
Proof. decide equality. Defined.

Lemma pyvalue_eq_dec : forall a b : pyvalue, {a = b} + {a <> b}.
Proof. decide equality; apply vec_eq_dec. Defined.

Lemma result_eq_dec : forall a b : result, {a = b} + {a <> b}.
Proof.
  decide equality;
    first [apply pyvalue_eq_dec | apply exn_eq_dec
          | apply list_eq_dec; apply string_dec].
Defined.

Lemma outcome_eq_dec : forall a b : outcome, {a = b} + {a <> b}.
Proof.
  decide equality;
    first [apply state_eq_dec | apply vec_eq_dec | apply exn_eq_dec].
Defined.

Lemma option_eq_dec {A : Type} (dec : forall a b : A, {a = b} + {a <> b}) :
  forall a b : option A, {a = b} + {a <> b}.
Proof. decide equality. Defined.

Lemma step_eq_dec : forall a b : Qc * option nat, {a = b} + {a <> b}.
Proof.
  decide equality; [apply option_eq_dec; apply Nat.eq_dec | apply Qc_eq_dec].
Defined.

Ltac by_evaluation dec :=
  apply (decide_eq_sound dec); vm_compute; reflexivity.

(** The four tests of the notebook and the values it prints. *)

Example notebook_test1 :
  QP_activeset 6 test1_G test1_c None None (Some test1_ai) (Some test1_bi)
               (Some test1_x0)
  = Some (Returned ["solution find"%string]
                   (PyPair [q 7 5; q 17 10] [q 4 5])).
Proof. by_evaluation (option_eq_dec result_eq_dec). Qed.

Example notebook_test2 :
  QP_activeset 3 test2_G test2_c (Some test2_ae) (Some test2_be)
               (Some test2_ai) (Some test2_bi) (Some test2_x0)
  = Some (Returned ["solution find"%string]
                   (PyPair [z 1; z 1] [z (-2); z 4])).
Proof. by_evaluation (option_eq_dec result_eq_dec). Qed.

Example notebook_test3 :
  QP_activeset 2 test2_G test2_c (Some test2_ae) (Some test2_be) None None
               (Some test2_x0)
  = Some (Returned ["solution find"%string] (PyPair [z 0; z 0] [z 0])).
Proof. by_evaluation (option_eq_dec result_eq_dec). Qed.

Example notebook_test4 :
  QP_activeset 2 test4_G test4_c (Some test4_ae) (Some test4_be) None None
               (Some test4_x0)
  = Some (Returned ["solution find"%string]
                   (PyPair [q 1 3; q 1 3; q 1 3] [q 2 3])).
Proof. by_evaluation (option_eq_dec result_eq_dec). Qed.

(** * The problem without constraints *)

Lemma hstack_empty_columns (G T : mat) :
  length T = length G -> Forall (fun t => t = []) T -> hstack G T = G.
Proof.
  revert T. induction G as [|g G IH]; intros [|t T] Hl HT; simpl in *;
    try discriminate; [reflexivity|].
  inversion HT; subst. rewrite app_nil_r, IH; auto.
Qed.

Lemma kkt_lhs_nil (G : mat) : kkt_lhs G [] (length G) = G.
Proof.
  unfold kkt_lhs. simpl. rewrite app_nil_r.
  apply hstack_empty_columns.
  - unfold mopp. rewrite length_map, length_transpose. reflexivity.
  - unfold mopp, transpose. rewrite !Forall_map. apply Forall_forall.
    intros j _. reflexivity.
Qed.

Lemma kkt_rhs_nil (G : mat) (c x : vec) :
  kkt_rhs G c [] x = vopp (vadd (matvec G x) c).
Proof. unfold kkt_rhs. simpl. apply app_nil_r. Qed.

Lemma vadd_zeros_l (c : vec) : vadd (zeros (length c)) c = c.
Proof.
  induction c as [|c0 c IH]; [reflexivity|].
  unfold zeros in *. cbn [length repeat vadd]. rewrite IH. f_equal. ring.
Qed.

Lemma vscale_1 (v : vec) : vscale 1 v = v.
Proof.
  unfold vscale. rewrite <- (map_id v) at 2. apply map_ext. intros a. ring.
Qed.

Lemma all_zeros_eq (v : vec) : all_zeros v -> v = zeros (length v).
Proof.
  unfold all_zeros. induction 1 as [|e v He _ IH]; [reflexivity|].
  cbn [length]. unfold zeros in *. cbn [repeat]. rewrite <- IH, He.
  reflexivity.
Qed.

Lemma all_zeros_zeros (n : nat) : all_zeros (zeros n).
Proof. unfold all_zeros, zeros. apply Forall_forall. intros e He.
  apply repeat_spec in He. exact He. Qed.

Lemma matvec_vsub (A : mat) (u v : vec) :
  matvec A (vsub u v) = vsub (matvec A u) (matvec A v).
Proof.
  apply vec_ext.
  - unfold vsub. rewrite length_vadd, length_vopp, !length_matvec. lia.
  - intros k _. rewrite nth_vsub, !nth_matvec.
    rewrite !(dot_comm (nth k A [])). apply dot_vsub_l.
Qed.

Lemma snap_0 : snap 0 = 0.
Proof. apply Qc_is_canon. reflexivity. Qed.

Lemma snap_residual (v : Qc) : snap (v - snap v) = 0.
Proof.
  unfold snap at 2. destruct (Qc_ltb (Qc_abs v) tol_zero) eqn:E.
  - replace (v - 0) with v by ring. unfold snap. rewrite E. reflexivity.
  - replace (v - v) with 0 by ring. apply snap_0.
Qed.

Lemma snap_residual_vec (sol : vec) :
  map snap (vsub sol (map snap sol)) = zeros (length sol).
Proof.
  induction sol as [|v sol IH]; [reflexivity|].
  unfold vsub, zeros in *. cbn [map vopp vadd length repeat].
  rewrite <- IH. f_equal. apply snap_residual.
Qed.

Lemma QP_subproblem_unconstrained (G Gi : mat) (c x : vec) :
  inv G = Some Gi -> length x = length G ->
  QP_subproblem G c [] x
  = Some (map snap (matvec Gi (vopp (vadd (matvec G x) c))), []).
Proof.
  intros HGi Hx. unfold QP_subproblem, kkt_solution.
  rewrite Hx, kkt_lhs_nil, HGi, kkt_rhs_nil.
  set (sol := matvec Gi _).
  assert (Hl : length (map snap sol) = length G).
  { rewrite length_map. unfold sol. rewrite length_matvec.
    apply (inv_correct G Gi HGi). }
  rewrite firstn_all2, skipn_all2 by lia. reflexivity.
Qed.

(** Claim C9, amended.  In exact arithmetic, for an invertible [G] and
    a [c] of the same size, [QP_activeset G c] without constraints and without [x0]
    returns [(x_star, [])] where [x_star] is [-G^{-1} c] after the
    snap, within two passes of the loop: in exactly two passes when
    [x_star] has a non-zero entry, and in the first pass when [x_star]
    is all zeros. *)
Theorem unconstrained_problem_returns_newton_point (G : mat) (c : vec) :
  invertible G -> length c = length G ->
  exists Gi : mat,
    inv G = Some Gi /\
    matvec G (matvec Gi (vopp c)) = vopp c /\
    let x_star := map snap (matvec Gi (vopp c)) in
    QP_activeset 2 G c None None None None None
    = Some (Returned ["solution find"%string] (PyPair x_star [])) /\
    (all_zeros x_star ->
     QP_activeset 1 G c None None None None None
     = Some (Returned ["solution find"%string] (PyPair x_star []))) /\
    (~ all_zeros x_star ->
     QP_activeset 1 G c None None None None None = None).
Proof.
  intros [Hsq (Ki & HKi & _)] Hc.
  destruct (inv_complete G Hsq (ex_intro _ Ki HKi)) as [Gi HGi].
  exists Gi. split; [exact HGi|].
  assert (Hsolve : matvec G (matvec Gi (vopp c)) = vopp c).
  { apply inv_solves; [exact HGi|]. rewrite length_vopp. exact Hc. }
  split; [exact Hsolve|].
  set (sol := matvec Gi (vopp c)). intros x_star.
  assert (Hsol : length sol = length G).
  { unfold sol. rewrite length_matvec. apply (inv_correct G Gi HGi). }
  assert (Hxs : length x_star = length G)
    by (unfold x_star; rewrite length_map; exact Hsol).
  set (s0 := mkState (zeros (length G)) [] [] []).
  assert (Hq0 : QP_subproblem G c (ws s0) (xk s0) = Some (x_star, [])).
  { simpl. rewrite (QP_subproblem_unconstrained G Gi c _ HGi)
      by apply length_zeros.
    rewrite matvec_zeros. rewrite <- Hc at 1. rewrite vadd_zeros_l.
    reflexivity. }
  set (s1 := mkState x_star [] [] []).
  assert (Hq1 : QP_subproblem G c (ws s1) (xk s1)
                = Some (zeros (length G), [])).
  { simpl. rewrite (QP_subproblem_unconstrained G Gi c _ HGi) by exact Hxs.
    replace (matvec Gi (vopp (vadd (matvec G x_star) c)))
      with (vsub sol x_star).
    - unfold x_star. rewrite snap_residual_vec, Hsol. reflexivity.
    - apply (inv_unique G Gi _ _ HGi).
      + unfold vsub. rewrite length_vadd, length_vopp. lia.
      + rewrite matvec_vsub. fold sol in Hsolve. rewrite Hsolve.
        apply vec_ext.
        * unfold vsub.
          rewrite !length_vadd, !length_vopp, length_vadd, length_matvec.
          lia.
        * intros k _.
          rewrite nth_vsub, !nth_vopp, nth_vadd. ring. }
  assert (Hret1 : iteration G c (length G) 0 [] s1 = Return x_star []).
  { apply iteration_Return. exists (zeros (length G)).
    repeat split; [exact Hq1 | apply all_zeros_zeros | constructor]. }
  assert (Hs0 : initial_state None None None None (zeros (length G)) = s0)
    by reflexivity.
  unfold QP_activeset. simpl feasibility_check. simpl start_point.
  simpl equality_count. simpl equality_rows. rewrite Hs0.
  destruct (Forall_dec (fun e : Qc => e = 0) (fun e => Qc_eq_dec e 0) x_star)
    as [Hz|Hnz].
  - assert (Hret0 : iteration G c (length G) 0 [] s0 = Return x_star []).
    { apply iteration_Return. exists x_star.
      repeat split; [exact Hq0 | exact Hz | constructor |].
      simpl. rewrite (all_zeros_eq _ Hz), Hxs. reflexivity. }
    simpl. rewrite Hret0. repeat split; auto. intros H. contradiction.
  - assert (Hpass : iteration G c (length G) 0 [] s0 = Continue s1).
    { apply iteration_Continue.
      replace s1 with
        (mkState (vadd (xk s0) (vscale 1 x_star)) (ws_active s0)
                 (ws_inactive s0) (ws s0)).
      - eapply pass_full; [exact Hq0 | exact Hnz | reflexivity].
      - unfold s1. simpl. rewrite vscale_1. rewrite <- Hxs.
        rewrite vadd_zeros_l. reflexivity. }
    simpl. rewrite Hpass, Hret1. repeat split; auto.
    intros H. contradiction.
Qed.

(** * Solving again from the point returned *)

Lemma xk_initial_state (ae : option mat) (be : option vec) (ai : option mat)
  (bi : option vec) (x : vec) : xk (initial_state ae be ai bi x) = x.
Proof.
  unfold initial_state.
  destruct ai as [a|]; [destruct (active_set a (present bi) x)|]; reflexivity.
Qed.

Lemma firstn_zeros_app (n : nat) (v : vec) : firstn n (zeros n ++ v) = zeros n.
Proof.
  rewrite firstn_app, length_zeros, Nat.sub_diag. simpl.
  rewrite app_nil_r. apply firstn_all2. rewrite length_zeros. lia.
Qed.

Lemma skipn_zeros_app (n : nat) (v : vec) : skipn n (zeros n ++ v) = v.
Proof.
  rewrite skipn_app, length_zeros, Nat.sub_diag. simpl.
  rewrite skipn_all2 by (rewrite length_zeros; lia). reflexivity.
Qed.

Lemma map_snap_zeros (n : nat) : map snap (zeros n) = zeros n.
Proof. unfold zeros. rewrite map_repeat, snap_0. reflexivity. Qed.

(** The rows of [we] hold at [x] exactly when [x] passes the test of the
    equalities. *)
Lemma equality_rows_hold (Nx : nat) (ae : option mat) (be : option vec)
  (x : vec) :
  block_shaped Nx ae be ->
  Forall (on_constraint x) (equality_rows ae be) ->
  feasibility_check all_zero ae be x = None.
Proof.
  unfold block_shaped, feasibility_check.
  destruct ae as [a|]; [|reflexivity]. destruct be as [b|]; [|contradiction].
  intros [_ Hl] Hon. rewrite equality_rows_eq, Forall_map in Hon.
  assert (Hz : all_zero (vsub (matvec a x) b) = true).
  { apply all_zero_iff. unfold all_zeros.
    rewrite (residual_combine a b x Hl), Forall_map.
    eapply Forall_impl; [|exact Hon].
    intros r Hr. apply on_constraint_row_of. exact Hr. }
  rewrite Hz. reflexivity.
Qed.

(** ** The rows active at a point *)

Lemma row_is_active_iff (x row : vec) :
  row_is_active x row = true <-> on_constraint x row.
Proof.
  unfold row_is_active, on_constraint. rewrite Qc_eq_bool_iff. split.
  - apply Qcminus_0_eq.
  - intros ->. ring.
Qed.

Lemma filter_Permutation {A : Type} (f : A -> bool) (l l' : list A) :
  Permutation l l' -> Permutation (filter f l) (filter f l').
Proof.
  induction 1 as [|x l l' _ IH|x y l|l l' l'' _ IH1 _ IH2]; simpl.
  - constructor.
  - destruct (f x); [constructor|]; exact IH.
  - destruct (f x), (f y); try reflexivity. apply perm_swap.
  - etransitivity; eauto.
Qed.

Lemma filter_all {A : Type} (f : A -> bool) (l : list A) :
  Forall (fun x => f x = true) l -> filter f l = l.
Proof.
  induction 1 as [|x l Hx _ IH]; simpl; [reflexivity|].
  rewrite Hx, IH. reflexivity.
Qed.

Lemma filter_row_of (x : vec) (l : list (vec * Qc)) :
  map row_of (filter (is_active x) l)
  = filter (row_is_active x) (map row_of l).
Proof.
  induction l as [|r l IH]; simpl; [reflexivity|].
  unfold row_is_active at 1. rewrite removelast_row_of, last_row_of.
  fold (is_active x r). destruct (is_active x r); simpl; rewrite IH;
    reflexivity.
Qed.

Lemma initial_active_rows (Nx : nat) (ae : option mat) (be : option vec)
  (ai : option mat) (bi : option vec) (x : vec) :
  block_shaped Nx ai bi ->
  ws_active (initial_state ae be ai bi x)
  = filter (row_is_active x) (inequality_rows ai bi) /\
  ws (initial_state ae be ai bi x)
  = equality_rows ae be ++ filter (row_is_active x) (inequality_rows ai bi).
Proof.
  unfold block_shaped, initial_state, inequality_rows.
  destruct ai as [a|]; [|simpl; auto].
  destruct bi as [b|]; [|contradiction]. intros [_ Hl]. simpl present.
  rewrite (active_set_filter a b x Hl), hstack_column, filter_row_of.
  simpl. auto.
Qed.

(** ** The multipliers of a working set in another order *)

Lemma combine_app_lengths {A B : Type} (l1 l2 : list A) (m1 m2 : list B) :
  length l1 = length m1 ->
  combine (l1 ++ l2) (m1 ++ m2) = combine l1 m1 ++ combine l2 m2.
Proof.
  revert m1. induction l1 as [|a l1 IH]; intros [|b m1] H; simpl in *;
    try discriminate; [reflexivity|].
  rewrite IH by lia. reflexivity.
Qed.

Lemma snd_combine {A B : Type} (l : list A) (m : list B) :
  length m = length l -> map snd (combine l m) = m.
Proof.
  revert m. induction l as [|a l IH]; intros [|b m] H; simpl in *;
    try discriminate; [reflexivity|].
  rewrite IH by lia. reflexivity.
Qed.

(** Multipliers follow their rows through a permutation. *)
Lemma Permutation_multipliers {A B : Type} (l1 l2 : list A) :
  Permutation l1 l2 ->
  forall m2 : list B, length m2 = length l2 ->
    exists m1, length m1 = length l1 /\
               Permutation (combine l1 m1) (combine l2 m2).
Proof.
  induction 1 as [|x l l' _ IH|x y l|l l' l'' _ IH1 _ IH2]; intros m2 Hm.
  - exists []. split; [reflexivity | constructor].
  - destruct m2 as [|b m2]; [discriminate|].
    destruct (IH m2 ltac:(simpl in Hm; lia)) as (m1 & Hl & Hp).
    exists (b :: m1). split; [simpl; lia|]. simpl. constructor. exact Hp.
  - destruct m2 as [|b1 [|b2 m2]]; try discriminate.
    exists (b2 :: b1 :: m2). split; [exact Hm|]. simpl. apply perm_swap.
  - destruct (IH2 m2 Hm) as (m' & Hl' & Hp').
    destruct (IH1 m' Hl') as (m1 & Hl1 & Hp1).
    exists m1. split; [exact Hl1|]. etransitivity; eauto.
Qed.

Lemma weighted_app (j : nat) (p1 p2 : list (vec * Qc)) :
  weighted j (p1 ++ p2) = weighted j p1 + weighted j p2.
Proof.
  unfold weighted. induction p1 as [|p p1 IH]; simpl; [ring|].
  rewrite IH. ring.
Qed.

Lemma weighted_Permutation (j : nat) (p1 p2 : list (vec * Qc)) :
  Permutation p1 p2 -> weighted j p1 = weighted j p2.
Proof.
  unfold weighted.
  induction 1 as [|x l l' _ IH|x y l|l l' l'' _ IH1 _ IH2]; simpl.
  - reflexivity.
  - rewrite IH. reflexivity.
  - ring.
  - congruence.
Qed.

Lemma weighted_zeros (j : nat) (rows : mat) (n : nat) :
  weighted j (combine rows (zeros n)) = 0.
Proof.
  unfold weighted, zeros. revert n.
  induction rows as [|r rows IH]; intros [|n]; simpl; try reflexivity.
  rewrite IH. ring.
Qed.

Lemma dot_col_weighted (j : nat) (rows : mat) (mu : vec) :
  dot (col j (coefficients rows)) mu = weighted j (combine rows mu).
Proof.
  unfold weighted, col, coefficients. revert mu.
  induction rows as [|r rows IH]; intros [|m mu]; simpl; try reflexivity.
  rewrite IH. reflexivity.
Qed.

(** [A^T m] for the rows [we ++ act] in terms of the pairs of [act]. *)
Lemma transpose_multipliers (n : nat) (we act act' : mat)
  (mu_e mu mu' : vec) :
  length mu_e = length we ->
  (forall j, weighted j (combine act' mu') = weighted j (combine act mu)) ->
  matvec (transpose n (coefficients (we ++ act'))) (mu_e ++ mu')
  = matvec (transpose n (coefficients (we ++ act))) (mu_e ++ mu).
Proof.
  intros Hl Hw. unfold matvec, transpose. rewrite !map_map.
  apply map_ext. intros j.
  assert (Hc : forall rows : mat,
            col j (coefficients (we ++ rows))
            = col j (coefficients we) ++ col j (coefficients rows)).
  { intros rows. unfold col, coefficients. rewrite !map_app. reflexivity. }
  assert (Hlen : length (col j (coefficients we)) = length mu_e).
  { unfold col, coefficients. rewrite !length_map. symmetry. exact Hl. }
  rewrite !Hc, !dot_app by exact Hlen.
  rewrite !dot_col_weighted, Hw. reflexivity.
Qed.

(** ** The solve at a stationary point *)

(** Multipliers [lam] with [A^T lam = G x + c] give the solution of the
    KKT system at [x]: the zero step and [lam]. *)
Lemma stationary_solve (G : mat) (c : vec) (wset : mat) (x lam : vec) :
  length G = length x ->
  Forall (fun r => length r = length x) G ->
  Forall (fun r => length r = S (length x)) wset ->
  length c = length x ->
  invertible (kkt_lhs G wset (length x)) ->
  length lam = length wset ->
  matvec (transpose (length x) (coefficients wset)) lam
  = vadd (matvec G x) c ->
  kkt_solution G c wset x = Some (zeros (length x) ++ lam).
Proof.
  intros HG HGc Hw Hc Hinv Hlam Hst.
  destruct (kkt_solution_exists G c wset x Hinv) as [sol Hsol].
  rewrite Hsol. unfold kkt_solution in Hsol.
  destruct (inv (kkt_lhs G wset (length x))) as [Ki|] eqn:E; [|discriminate].
  inversion Hsol; subst sol. f_equal. symmetry.
  apply (inv_unique _ _ _ _ E).
  - rewrite length_app, length_zeros, length_kkt_lhs by exact HG. lia.
  - rewrite (kkt_lhs_blocks G c wset x HG HGc Hw Hc)
      by (rewrite length_app, length_zeros; lia).
    rewrite firstn_zeros_app, skipn_zeros_app, !matvec_zeros.
    rewrite length_coefficients. unfold kkt_rhs. f_equal.
    rewrite Hst. apply vec_ext.
    + unfold vsub.
      rewrite !length_vadd, !length_vopp, length_zeros, length_vadd,
        !length_matvec.
      lia.
    + intros i _. rewrite nth_vsub, nth_zeros, !nth_vopp. ring.
Qed.

(** The multipliers before the snap at a pass that returns, when the
    snap has left the step as the solve gave it. *)
Lemma returning_solve (G : mat) (c : vec) (wset : mat) (x pk lam : vec) :
  length G = length x ->
  Forall (fun r => length r = length x) G ->
  Forall (fun r => length r = S (length x)) wset ->
  length c = length x ->
  (forall sol, kkt_solution G c wset x = Some sol ->
               firstn (length x) (map snap sol) = firstn (length x) sol) ->
  QP_subproblem G c wset x = Some (pk, lam) ->
  all_zeros pk ->
  exists mu : vec,
    length mu = length wset /\ lam = map snap mu /\
    matvec (transpose (length x) (coefficients wset)) mu
    = vadd (matvec G x) c.
Proof.
  intros HG HGc Hw Hc Hsnap Hq Hz. unfold QP_subproblem in Hq.
  destruct (kkt_solution G c wset x) as [sol|] eqn:E; [|discriminate].
  inversion Hq as [[Hp Hlam]].
  assert (Hl := kkt_solution_length G c wset x sol HG E).
  destruct (kkt_solution_equations G c wset x HG HGc Hw Hc sol E)
    as [Hst _].
  assert (Hp0 : firstn (length x) sol = zeros (length x)).
  { rewrite <- (Hsnap sol eq_refl), Hp.
    rewrite (all_zeros_eq pk Hz). f_equal.
    rewrite <- Hp, length_firstn, length_map. lia. }
  exists (skipn (length x) sol).
  split; [rewrite length_skipn; lia|].
  split; [apply skipn_map|].
  rewrite Hp0, matvec_zeros in Hst.
  apply vec_ext.
  - rewrite length_vadd, !length_matvec, length_transpose. lia.
  - intros i _.
    assert (Hi : nth i (vsub (zeros (length G))
                         (matvec (transpose (length x) (coefficients wset))
                                 (skipn (length x) sol))) 0
                 = nth i (vopp (vadd (matvec G x) c)) 0)
      by (rewrite Hst; reflexivity).
    rewrite nth_vsub, nth_zeros, nth_vopp in Hi.
    set (t := nth i (matvec _ (skipn _ sol)) 0) in *.
    set (g := nth i (vadd (matvec G x) c) 0) in *.
    assert (Eg : g = - (0 - t)) by (rewrite Hi; ring).
    rewrite Eg. ring.
Qed.


Lemma skipn_firstn_lengths (Ne : nat) (mu : vec) (k : nat) :
  length mu = (Ne + k)%nat ->
  length (firstn Ne mu) = Ne /\ length (skipn Ne mu) = k.
Proof. intros H. rewrite length_firstn, length_skipn. lia. Qed.

(** Claim C8, amended.  In exact arithmetic, on inputs of the
    documented shapes: when [QP_activeset] returns [(x_star,
    lambda_star)] in a run where the snap has left the step of every
    pass as the solve gave it, and [x_star] passes the test of the
    inequalities, and the KKT matrix of the working set that the
    initialisation builds at [x_star] is invertible, then solving again
    from [x0 = x_star] returns the same [x_star] in exactly one pass of
    the loop: the first solve gives the zero step, the multipliers of
    the equality rows of the first run, and for the inequality rows the
    multipliers of the first run in the order of the rebuilt working
    set, with 0 for the rows that were not in the working set of the
    first run; none of them is negative. *)
Theorem solving_again_takes_one_pass (fuel : nat) (G : mat) (c : vec)
  (ae : option mat) (be : option vec) (ai : option mat) (bi : option vec)
  (x0 : option vec) (out : list string) (x_star lambda_star : vec) :
  let Nx := length G in
  let Ne := equality_count ae in
  let we := equality_rows ae be in
  let s0 := initial_state ae be ai bi (start_point Nx x0) in
  let s1 := initial_state ae be ai bi x_star in
  well_shaped G c ae be ai bi x0 ->
  QP_activeset fuel G c ae be ai bi x0
  = Some (Returned out (PyPair x_star lambda_star)) ->
  (forall j sj, (j < fuel)%nat -> state_at j G c Nx Ne we s0 = Some sj ->
                snap_exact G c sj) ->
  feasibility_check all_nonneg ai bi x_star = None ->
  invertible (kkt_lhs G (ws s1) Nx) ->
  exists lambda' : vec,
    QP_activeset 1 G c ae be ai bi (Some x_star)
    = Some (Returned ["solution find"%string] (PyPair x_star lambda')) /\
    QP_activeset 0 G c ae be ai bi (Some x_star) = None /\
    QP_subproblem G c (ws s1) x_star = Some (zeros Nx, lambda') /\
    firstn Ne lambda' = firstn Ne lambda_star /\
    Permutation (skipn Ne lambda')
                (skipn Ne lambda_star
                 ++ zeros (length (ws s1) - length lambda_star)) /\
    all_nonnegative (skipn Ne lambda').
Proof.
  intros Nx Ne we s0 s1 Hshape Hrun Hsnap Hfi Hinv.
  assert (Hs0 := initial_shaped G c ae be ai bi x0 Hshape).
  assert (Hp0 := initial_partition G c ae be ai bi x0 Hshape).
  fold Nx Ne we s0 in Hs0, Hp0.
  assert (Hsh := Hshape). destruct Hsh as (HGc & Hc & _ & He & Hi).
  fold Nx in HGc, Hc, He, Hi.
  (* the first run *)
  unfold QP_activeset in Hrun. fold Nx Ne we s0 in Hrun.
  destruct (feasibility_check all_zero ae be (start_point Nx x0))
    as [r|] eqn:E1.
  { inversion Hrun; subst r.
    destruct (feasibility_check_result _ _ _ _ _ E1); discriminate. }
  destruct (feasibility_check all_nonneg ai bi (start_point Nx x0))
    as [r|] eqn:E2.
  { inversion Hrun; subst r.
    destruct (feasibility_check_result _ _ _ _ _ E2); discriminate. }
  apply loop_state_at in Hrun. destruct Hrun as (k & sk & Hlt & Hk & Hr).
  destruct (iteration G c Nx Ne we sk) as [s'|x' lam'|e'] eqn:Ei;
    [contradiction | | discriminate].
  inversion Hr; subst x' lam' out. clear Hr.
  apply iteration_Return in Ei. destruct Ei as (pk & Hq & Hz & Hnn & Hx).
  destruct (state_at_shaped _ _ _ _ _ _ _ _ Hs0 Hk)
    as [[(HG & Hws & Hwe) Hrows] Hperm].
  assert (Hon : Forall (on_constraint (xk sk)) (ws sk)).
  { apply (state_at_on_constraint G c Nx Ne we k HGc Hc s0 sk Hs0); auto.
    - apply (initial_on_constraint G c ae be ai bi x0 Hshape E1).
    - intros j sj Hj Hsj. apply (Hsnap j sj); [lia | exact Hsj]. }
  assert (Hsnapk : snap_exact G c sk) by (apply (Hsnap k sk Hlt Hk)).
  unfold snap_exact in Hsnapk. rewrite <- Hx in *.
  assert (Hxl : length x_star = Nx) by (symmetry; exact HG).
  assert (Hwrows : Forall (fun r => length r = S (length x_star)) (ws sk)).
  { rewrite Hxl, Hws. rewrite app_assoc, Forall_app in Hrows. tauto. }
  destruct (returning_solve G c (ws sk) x_star pk lambda_star)
    as (mu & Hmul & Hlam & Hst).
  { exact HG. }
  { rewrite Hxl. exact HGc. }
  { exact Hwrows. }
  { rewrite Hxl. exact Hc. }
  { exact Hsnapk. }
  { exact Hq. }
  { exact Hz. }
  set (act_k := ws_active sk) in *. set (inact_k := ws_inactive sk) in *.
  rewrite Hws, length_app, Hwe in Hmul.
  destruct (skipn_firstn_lengths Ne mu (length act_k) Hmul) as [Hle Hla].
  set (mu_e := firstn Ne mu) in *. set (mu_a := skipn Ne mu) in *.
  assert (Emu : mu = mu_e ++ mu_a) by (symmetry; apply firstn_skipn).
  (* the working set built at x_star *)
  destruct (initial_active_rows Nx ae be ai bi x_star Hi) as [_ Hws1].
  fold we s1 in Hws1.
  set (act' := filter (row_is_active x_star) (inequality_rows ai bi)) in *.
  set (extra := filter (row_is_active x_star) inact_k).
  assert (Hpa : Permutation act' (act_k ++ extra)).
  { unfold act', extra.
    rewrite <- (filter_all (row_is_active x_star) act_k).
    - rewrite <- filter_app. apply filter_Permutation.
      symmetry. rewrite Hperm. exact Hp0.
    - rewrite Hws, Forall_app in Hon. destruct Hon as [_ Hon].
      eapply Forall_impl; [|exact Hon].
      intros r. apply row_is_active_iff. }
  assert (Hlen' : length act' = (length act_k + length extra)%nat).
  { rewrite (Permutation_length Hpa), length_app. reflexivity. }
  destruct (Permutation_multipliers act' (act_k ++ extra) Hpa
              (mu_a ++ zeros (length extra)))
    as (mu' & Hlmu' & Hpm).
  { rewrite !length_app, length_zeros. lia. }
  assert (Hpmu : Permutation mu' (mu_a ++ zeros (length extra))).
  { apply (Permutation_map snd) in Hpm.
    rewrite !snd_combine in Hpm; [exact Hpm | | exact Hlmu'].
    rewrite !length_app, length_zeros. lia. }
  assert (Hw : forall j, weighted j (combine act' mu')
                         = weighted j (combine act_k mu_a)).
  { intros j. rewrite (weighted_Permutation j _ _ Hpm).
    rewrite combine_app_lengths by lia.
    rewrite weighted_app, weighted_zeros. ring. }
  (* the solve of the second run *)
  assert (Hshape1 : well_shaped G c ae be ai bi (Some x_star)).
  { repeat split; assumption. }
  assert (Hs1 := initial_shaped G c ae be ai bi (Some x_star) Hshape1).
  simpl start_point in Hs1. fold Nx Ne we s1 in Hs1.
  destruct Hs1 as [(_ & Hws1' & _) Hrows1].
  assert (Hxk1 : xk s1 = x_star) by apply xk_initial_state.
  assert (Hsol1 : kkt_solution G c (ws s1) x_star
                  = Some (zeros (length x_star) ++ mu_e ++ mu')).
  { apply stationary_solve.
    - exact HG.
    - rewrite Hxl. exact HGc.
    - rewrite Hxl, Hws1'. rewrite app_assoc, Forall_app in Hrows1.
      tauto.
    - rewrite Hxl. exact Hc.
    - rewrite Hxl. exact Hinv.
    - rewrite Hws1, !length_app. lia.
    - rewrite Hws1, <- Hst, Hws, Emu.
      apply transpose_multipliers; [lia | exact Hw]. }
  assert (Hq1 : QP_subproblem G c (ws s1) x_star
                = Some (zeros Nx, map snap (mu_e ++ mu'))).
  { unfold QP_subproblem. rewrite Hsol1. cbv beta iota zeta.
    rewrite map_app, map_snap_zeros, firstn_zeros_app, skipn_zeros_app.
    rewrite Hxl. reflexivity. }
  assert (Hsk' : skipn Ne (map snap (mu_e ++ mu')) = map snap mu').
  { rewrite skipn_map, skipn_app, Hle, Nat.sub_diag. simpl.
    rewrite skipn_all2 by lia. reflexivity. }
  assert (Hsk : skipn Ne lambda_star = map snap mu_a).
  { rewrite Hlam. apply skipn_map. }
  assert (Hperm' : Permutation (map snap mu')
                     (map snap mu_a ++ zeros (length extra))).
  { rewrite <- (map_snap_zeros (length extra)), <- map_app.
    apply Permutation_map. exact Hpmu. }
  assert (Hnn' : all_nonnegative (skipn Ne (map snap (mu_e ++ mu')))).
  { rewrite Hsk'. unfold all_nonnegative in *.
    eapply Permutation_Forall; [symmetry; exact Hperm'|].
    apply Forall_app. split; [rewrite <- Hsk; exact Hnn|].
    unfold zeros. apply Forall_forall. intros v Hv.
    apply repeat_spec in Hv. subst v. apply Qcle_refl. }
  assert (Hfe1 : feasibility_check all_zero ae be x_star = None).
  { apply (equality_rows_hold Nx); [exact He|].
    rewrite Hws, Forall_app in Hon. tauto. }
  exists (map snap (mu_e ++ mu')).
  split.
  { unfold QP_activeset. simpl start_point. fold Nx Ne we s1.
    rewrite Hfe1, Hfi.
    assert (Hit : iteration G c Nx Ne we s1
                  = Return x_star (map snap (mu_e ++ mu'))).
    { apply iteration_Return. exists (zeros Nx). rewrite Hxk1.
      repeat split; auto. apply all_zeros_zeros. }
    cbn [loop]. rewrite Hit. reflexivity. }
  split.
  { unfold QP_activeset. simpl start_point. rewrite Hfe1, Hfi. reflexivity. }
  split; [exact Hq1|].
  split.
  { rewrite Hlam, Emu, !firstn_map, !firstn_app, Hle, Nat.sub_diag.
    simpl. rewrite !app_nil_r. reflexivity. }
  split; [|exact Hnn'].
  rewrite Hsk', Hsk.
  replace (length (ws s1) - length lambda_star)%nat with (length extra).
  - exact Hperm'.
  - rewrite Hws1, Hlam, length_map, Emu, !length_app. lia.
Qed.

Lemma subproblem_eq_dec : forall a b : option (vec * vec), {a = b} + {a <> b}.
Proof.
  apply option_eq_dec. decide equality; apply vec_eq_dec.
Defined.

(** * The step length on two blocking rows *)

(** Claim C1, at a failing input.  On the inactive rows [x <= 2] and
    [x <= 5], from [xk = 0] with the step [pk = 10], both rows block the
    step, with the ratios [1/5] and [1/2]; the loop leaves
    [alpha_k = 1/2] and [n_constraint = 1], the last blocking row and
    not the one of the least ratio, and [QP_activeset] returns
    [x = 5], which violates [x <= 2]. *)
Theorem step_length_keeps_last_blocking_row :
  blocking [z 0] [z 10] [z (-1); z (-2)] /\
  ratio [z 0] [z 10] [z (-1); z (-2)] = q 1 5 /\
  ratio [z 0] [z 10] [z (-1); z (-5)] = q 1 2 /\
  step_length (hstack bounds_ai (column bounds_bi)) [z 0] [z 10]
  = (q 1 2, Some 1%nat) /\
  QP_activeset 2 bounds_G bounds_c None None (Some bounds_ai) (Some bounds_bi)
               (Some [z 0])
  = Some (Returned ["solution find"%string] (PyPair [z 5] [z 10])) /\
  violates_inequality bounds_ai bounds_bi [z 5].
Proof.
  split; [split; apply Qc_ltb_lt; vm_compute; reflexivity|].
  split; [apply Qc_is_canon; vm_compute; reflexivity|].
  split; [apply Qc_is_canon; vm_compute; reflexivity|].
  split; [by_evaluation step_eq_dec|].
  split; [by_evaluation (option_eq_dec result_eq_dec)|].
  exists O. split; [simpl; lia|]. apply Qc_ltb_lt. vm_compute. reflexivity.
Qed.

(* ================================================================== *)
(** * Further properties of the step length *)

Lemma blocking_ratio_lt_1 (xk pk row : vec) :
  blocking xk pk row -> ratio xk pk row <> 1.
Proof.
  intros [_ H] E. rewrite E in H. apply (Qclt_not_eq _ _ H). reflexivity.
Qed.

(** Extra X1.  In exact arithmetic, after the [for] loop over
    [ws_inactive], [alpha_k] is 1 exactly when no row passes the two
    tests of the loop, and exactly when [n_constraint] has not been
    assigned; otherwise [n_constraint] is the index of the last row that
    passes them and [alpha_k] is the ratio of that row, which is below
    1. *)
Theorem step_length_is_ratio_of_last_blocking_row (rows : mat) (xk pk : vec) :
  let alpha_k := fst (step_length rows xk pk) in
  let n_constraint := snd (step_length rows xk pk) in
  (alpha_k = 1 <-> forall row, In row rows -> ~ blocking xk pk row) /\
  (n_constraint = None <-> alpha_k = 1) /\
  forall n, n_constraint = Some n ->
    exists row,
      nth_error rows n = Some row /\ blocking xk pk row /\
      alpha_k = ratio xk pk row /\ alpha_k < 1 /\
      forall j row', (n < j)%nat -> nth_error rows j = Some row' ->
                     ~ blocking xk pk row'.
Proof.
  intros alpha_k n_constraint. subst alpha_k n_constraint.
  assert (H := step_length_spec rows xk pk).
  destruct (step_length rows xk pk) as [alpha [n|]]; simpl.
  - destruct H as (row & Hn & Hb & Ha & Hlast).
    assert (Hne : alpha <> 1) by (rewrite Ha; apply blocking_ratio_lt_1; exact Hb).
    split; [|split].
    + split; [contradiction|]. intros Hnone. exfalso.
      apply (Hnone row); [|exact Hb]. eapply nth_error_In; eauto.
    + split; [discriminate | contradiction].
    + intros n' Hn'. inversion Hn'; subst n'. exists row.
      repeat split; try assumption; try (apply Hb).
      rewrite Ha. apply Hb.
  - destruct H as [Ha Hnone]. split; [|split].
    + split; auto.
    + split; auto.
    + discriminate.
Qed.


(** Extra X3.  In exact arithmetic, in a pass whose step is not all
    zeros and where no inactive row blocks, the pass goes on with the
    iterate [xk + pk] and with the three sets of rows unchanged. *)
Theorem unblocked_step_is_full (G : mat) (c : vec) (Nx Ne : nat)
  (we : mat) (s : state) (pk lambda_k : vec) :
  QP_subproblem G c (ws s) (xk s) = Some (pk, lambda_k) ->
  ~ all_zeros pk ->
  Forall (fun row => ~ blocking (xk s) pk row) (ws_inactive s) ->
  iteration G c Nx Ne we s
  = Continue (mkState (vadd (xk s) pk) (ws_active s) (ws_inactive s) (ws s)).
Proof.
  intros Hq Hz Hnone.
  assert (H := step_length_spec (ws_inactive s) (xk s) pk).
  destruct (step_length (ws_inactive s) (xk s) pk) as [alpha [n|]] eqn:Es.
  - exfalso. destruct H as (row & Hn & Hb & _).
    rewrite Forall_forall in Hnone. apply (Hnone row); [|exact Hb].
    eapply nth_error_In; eauto.
  - destruct H as [Ha _]. subst alpha. apply iteration_Continue.
    replace (vadd (xk s) pk) with (vadd (xk s) (vscale 1 pk))
      by (rewrite vscale_1; reflexivity).
    eapply pass_full; eauto.
Qed.

(* ================================================================== *)
(** * Further properties of [QP_subproblem] *)

(** Extra X4.  In exact arithmetic, every entry of the step and of the
    multipliers that [QP_subproblem] returns is either exactly 0 or at
    least [tol_zero] in absolute value. *)
Theorem QP_subproblem_entries_zero_or_large (G : mat) (c : vec) (wset : mat)
  (x pk lambda_k : vec) :
  QP_subproblem G c wset x = Some (pk, lambda_k) ->
  Forall (fun v => v = 0 \/ tol_zero <= Qc_abs v) (pk ++ lambda_k).
Proof.
  unfold QP_subproblem.
  destruct (kkt_solution G c wset x) as [sol|]; [|discriminate].
  intros H. inversion H; subst pk lambda_k. rewrite firstn_skipn.
  rewrite Forall_map. apply Forall_forall. intros v _.
  unfold snap. destruct (Qc_ltb (Qc_abs v) tol_zero) eqn:E.
  - left. reflexivity.
  - right. apply Qcnot_lt_le. intros Hlt. apply Qc_ltb_lt in Hlt. congruence.
Qed.

(* ================================================================== *)
(** * Singular working sets *)

Lemma inv_singular (K : mat) (x : vec) (k : nat) :
  length x = length K -> matvec K x = zeros (length K) ->
  nth k x 0 <> 0 -> inv K = None.
Proof.
  intros Hx HK Hk. destruct (inv K) as [N|] eqn:E; [|reflexivity].
  exfalso. apply Hk.
  rewrite (inv_unique K N x _ E Hx HK), matvec_zeros. apply nth_zeros.
Qed.

Lemma vsub_zeros (n : nat) : vsub (zeros n) (zeros n) = zeros n.
Proof.
  apply vec_ext.
  - unfold vsub. rewrite length_vadd, length_vopp, length_zeros. lia.
  - intros i _. rewrite nth_vsub, nth_zeros. ring.
Qed.

Lemma zeros_app (n m : nat) : zeros n ++ zeros m = zeros (n + m).
Proof. unfold zeros. symmetry. apply repeat_app. Qed.

(** A combination [mu] of the coefficient rows that vanishes gives a
    vector of the kernel of the KKT matrix. *)
Lemma kkt_lhs_kernel (G : mat) (wset : mat) (x mu : vec) :
  length G = length x ->
  Forall (fun r => length r = length x) G ->
  Forall (fun r => length r = S (length x)) wset ->
  length mu = length wset ->
  matvec (transpose (length x) (coefficients wset)) mu = zeros (length x) ->
  matvec (kkt_lhs G wset (length x)) (zeros (length x) ++ mu)
  = zeros (length (kkt_lhs G wset (length x))).
Proof.
  intros HG HGc Hw Hmu Hdep.
  rewrite (kkt_lhs_blocks G (zeros (length x)) wset x HG HGc Hw
             (length_zeros _))
    by (rewrite length_app, length_zeros; lia).
  rewrite firstn_zeros_app, skipn_zeros_app, Hdep, !matvec_zeros.
  rewrite HG, vsub_zeros, length_coefficients, zeros_app.
  rewrite length_kkt_lhs by exact HG. reflexivity.
Qed.

(** Extra X5.  In exact arithmetic, when the coefficient rows of the
    working set are linearly dependent (a non-zero combination [mu] of
    them vanishes), [np.linalg.inv] fails on the KKT matrix:
    [QP_subproblem] has no result, and the pass and the loop end with
    [LinAlgError]. *)
Theorem dependent_working_set_raises_LinAlgError (G : mat) (c : vec)
  (Nx Ne : nat) (we : mat) (s : state) (mu : vec) (k fuel : nat) :
  length G = length (xk s) ->
  Forall (fun r => length r = length (xk s)) G ->
  Forall (fun r => length r = S (length (xk s))) (ws s) ->
  length mu = length (ws s) ->
  nth k mu 0 <> 0 ->
  matvec (transpose (length (xk s)) (coefficients (ws s))) mu
  = zeros (length (xk s)) ->
  QP_subproblem G c (ws s) (xk s) = None /\
  iteration G c Nx Ne we s = Raise LinAlgError /\
  loop (S fuel) G c Nx Ne we s = Some (Raised LinAlgError).
Proof.
  intros HG HGc Hw Hmu Hk Hdep.
  assert (Hinv : inv (kkt_lhs G (ws s) (length (xk s))) = None).
  { apply (inv_singular _ (zeros (length (xk s)) ++ mu) (length (xk s) + k)).
    - rewrite length_app, length_zeros, length_kkt_lhs by exact HG. lia.
    - apply kkt_lhs_kernel; assumption.
    - rewrite app_nth2 by (rewrite length_zeros; lia).
      rewrite length_zeros.
      replace (length (xk s) + k - length (xk s))%nat with k by lia.
      exact Hk. }
  assert (Hq : QP_subproblem G c (ws s) (xk s) = None).
  { unfold QP_subproblem, kkt_solution. rewrite Hinv. reflexivity. }
  assert (Hit : iteration G c Nx Ne we s = Raise LinAlgError).
  { unfold iteration. rewrite Hq. reflexivity. }
  repeat split; try assumption. simpl. rewrite Hit. reflexivity.
Qed.

(* ================================================================== *)
(** * The point returned *)

(** A solve that the snap has left as it was and whose step is all zeros
    gives multipliers for which [x] is stationary. *)
Lemma zero_step_stationary (G : mat) (c : vec) (wset : mat)
  (x pk lambda_k : vec) :
  length G = length x ->
  Forall (fun r => length r = length x) G ->
  Forall (fun r => length r = S (length x)) wset ->
  length c = length x ->
  (forall sol, kkt_solution G c wset x = Some sol -> map snap sol = sol) ->
  QP_subproblem G c wset x = Some (pk, lambda_k) ->
  all_zeros pk ->
  vadd (matvec G x) c
  = matvec (transpose (length x) (coefficients wset)) lambda_k.
Proof.
  intros HG HGc Hw Hc Hsnap Hq Hz.
  unfold QP_subproblem in Hq.
  destruct (kkt_solution G c wset x) as [sol|] eqn:E; [|discriminate].
  rewrite (Hsnap sol eq_refl) in Hq. inversion Hq; subst pk lambda_k.
  assert (Hl := kkt_solution_length G c wset x sol HG E).
  destruct (kkt_solution_equations G c wset x) with (sol := sol)
    as [Hst _]; try assumption.
  rewrite (all_zeros_eq _ Hz) in Hst.
  rewrite matvec_zeros in Hst.
  apply vec_ext.
  - rewrite length_vadd, !length_matvec, length_transpose. lia.
  - intros i _.
    assert (Hi : nth i (vsub (zeros (length G))
                         (matvec (transpose (length x) (coefficients wset))
                                 (skipn (length x) sol))) 0
                 = nth i (vopp (vadd (matvec G x) c)) 0)
      by (rewrite Hst; reflexivity).
    rewrite nth_vsub, nth_zeros, nth_vopp in Hi.
    set (t := nth i (matvec _ (skipn _ sol)) 0) in *.
    set (g := nth i (vadd (matvec G x) c) 0) in *.
    assert (Eg : g = - (0 - t)) by (rewrite Hi; ring).
    rewrite Eg. ring.
Qed.

(** Extra X6.  In exact arithmetic, when a pass returns [(x, lambda_k)]
    and the snap has left the solution of that pass as the solve gave
    it, the point is stationary for the working set: [G x + c = A^T
    lambda_k], [A] being the coefficient rows of [ws]. *)
Theorem returned_point_is_stationary (G : mat) (c : vec) (Nx Ne : nat)
  (we : mat) (s : state) (x lambda_k : vec) :
  length G = length (xk s) ->
  Forall (fun r => length r = length (xk s)) G ->
  Forall (fun r => length r = S (length (xk s))) (ws s) ->
  length c = length (xk s) ->
  snap_unchanged G c s ->
  iteration G c Nx Ne we s = Return x lambda_k ->
  vadd (matvec G x) c
  = matvec (transpose (length x) (coefficients (ws s))) lambda_k.
Proof.
  intros HG HGc Hw Hc Hsnap Hit.
  apply iteration_Return in Hit. destruct Hit as (pk & Hq & Hz & _ & ->).
  eapply zero_step_stationary; eauto.
Qed.

(* ================================================================== *)
(** * Exceptions and results of [QP_activeset] *)

(** In a state of the loop the pass raises nothing but
    [LinAlgError]. *)
Lemma iteration_Raise (G : mat) (c : vec) (Nx Ne : nat) (we : mat)
  (s : state) (e : exn) :
  consistent G Ne we s ->
  iteration G c Nx Ne we s = Raise e -> e = LinAlgError.
Proof.
  intros (HG & Hws & Hwe). unfold iteration.
  destruct (QP_subproblem G c (ws s) (xk s)) as [[pk lam]|] eqn:Hq.
  2:{ intros H. inversion H. reflexivity. }
  destruct (QP_subproblem_lengths _ _ _ _ _ _ HG Hq) as [_ Hl].
  rewrite lambda_inequality_skipn.
  destruct (Z.eqb _ _).
  - destruct (forallb _ (skipn Ne lam)) eqn:Ef; [discriminate|].
    destruct (argmin (skipn Ne lam)) as [[n m]|] eqn:Ea.
    + destruct (argmin_spec _ _ _ Ea) as (Hn & _).
      destruct (nth_error (ws_active s) n) eqn:En; [discriminate|].
      apply nth_error_None in En. exfalso.
      rewrite length_skipn, Hl, Hws, length_app in Hn. lia.
    + apply argmin_None in Ea. rewrite Ea in Ef. discriminate.
  - assert (Hs := step_length_spec (ws_inactive s) (xk s) pk).
    destruct (step_length (ws_inactive s) (xk s) pk) as [alpha [n|]].
    + destruct Hs as (row & Hn & _).
      destruct (Qc_eq_bool alpha 1); [discriminate|].
      rewrite Hn. discriminate.
    + destruct Hs as [-> _].
      destruct (Qc_eq_bool 1 1) eqn:E1; [discriminate|].
      apply Qc_eq_bool_false in E1. congruence.
Qed.

Lemma feasibility_check_shaped (test : vec -> bool) (Nx : nat)
  (a : option mat) (b : option vec) (x : vec) (r : result) :
  block_shaped Nx a b ->
  feasibility_check test a b x = Some r ->
  r = Returned ["Error"%string] PyNone /\
  exists a' b', a = Some a' /\ b = Some b' /\ length b' = length a' /\
                test (vsub (matvec a' x) b') = false.
Proof.
  unfold feasibility_check, block_shaped.
  destruct a as [a'|]; [|discriminate]. destruct b as [b'|]; [|contradiction].
  intros [_ Hl]. destruct (test _) eqn:E; [discriminate|].
  intros H. inversion H. split; [reflexivity|]. exists a', b'. auto.
Qed.

(** Extra X7.  In exact arithmetic, on inputs of the documented shapes
    the only exception that [QP_activeset] raises is the [LinAlgError]
    of [np.linalg.inv]: no row index is out of range, [np.argmin] is not
    called on an empty array, and [n_constraint] is not read before it
    is assigned. *)
Theorem QP_activeset_raises_only_LinAlgError (fuel : nat) (G : mat) (c : vec)
  (ae : option mat) (be : option vec) (ai : option mat) (bi : option vec)
  (x0 : option vec) (e : exn) :
  well_shaped G c ae be ai bi x0 ->
  QP_activeset fuel G c ae be ai bi x0 = Some (Raised e) ->
  e = LinAlgError.
Proof.
  intros Hshape H. assert (Hs0 := initial_shaped G c ae be ai bi x0 Hshape).
  destruct Hshape as (_ & _ & _ & He & Hi). unfold QP_activeset in H.
  destruct (feasibility_check all_zero ae be _) as [r|] eqn:E1.
  { destruct (feasibility_check_shaped _ _ _ _ _ _ He E1) as [-> _].
    discriminate. }
  destruct (feasibility_check all_nonneg ai bi _) as [r|] eqn:E2.
  { destruct (feasibility_check_shaped _ _ _ _ _ _ Hi E2) as [-> _].
    discriminate. }
  apply loop_state_at in H. destruct H as (k & sk & _ & Hk & Hr).
  destruct (state_at_shaped _ _ _ _ _ _ _ _ Hs0 Hk) as [[Hc _] _].
  destruct (iteration G c (length G) (equality_count ae)
              (equality_rows ae be) sk) as [s'|x lam|e'] eqn:Ei;
    [contradiction | discriminate |].
  inversion Hr; subst e'. eapply iteration_Raise; eauto.
Qed.


(* ================================================================== *)
(** * The rows at the entry of the loop *)

Lemma satisfied_row_of (x : vec) (r : vec * Qc) :
  strictly_satisfied x (row_of r) <-> 0 < dot (fst r) x - snd r.
Proof.
  unfold strictly_satisfied. rewrite removelast_row_of, last_row_of.
  split; intros H; qc_order.
Qed.

(** The rows that the exact test leaves out hold strictly at a point
    where every row holds. *)
Lemma inactive_rows_strict (ai : mat) (bi x0 : vec) :
  length bi = length ai ->
  all_nonneg (vsub (matvec ai x0) bi) = true ->
  Forall (strictly_satisfied x0) (snd (active_set ai bi x0)).
Proof.
  intros Hl Hfeas. rewrite (active_set_filter ai bi x0 Hl). simpl.
  apply all_nonneg_iff in Hfeas. unfold all_nonnegative in Hfeas.
  rewrite (residual_combine ai bi x0 Hl), Forall_map, Forall_forall in Hfeas.
  rewrite Forall_map. apply Forall_forall. intros r Hr.
  apply filter_In in Hr. destruct Hr as [Hin Hr].
  apply satisfied_row_of. specialize (Hfeas r Hin).
  apply negb_true_iff in Hr. apply Qc_eq_bool_false in Hr.
  destruct (Qcle_lt_or_eq _ _ Hfeas) as [Hlt|Heq]; [exact Hlt|].
  exfalso. apply Hr. symmetry. exact Heq.
Qed.

(** Extra X9.  In exact arithmetic, at a starting point that passes the
    test [np.all(ai @ x0 - bi >= 0)], the rows that [active_set] returns
    as active hold with equality and the rows it returns as inactive
    hold strictly: [a x0 > b]. *)
Theorem feasible_start_splits_rows (ai : mat) (bi x0 : vec) :
  length bi = length ai ->
  all_nonneg (vsub (matvec ai x0) bi) = true ->
  Forall (on_constraint x0) (fst (active_set ai bi x0)) /\
  Forall (strictly_satisfied x0) (snd (active_set ai bi x0)).
Proof.
  intros Hl Hfeas. split; [|apply inactive_rows_strict; assumption].
  rewrite (active_set_filter ai bi x0 Hl). simpl.
  rewrite Forall_map. apply Forall_forall. intros r Hr.
  apply filter_In in Hr. destruct Hr as [_ Hr].
  apply on_constraint_row_of. apply Qc_eq_bool_iff. exact Hr.
Qed.

(* ================================================================== *)
(** * What a step does to the rows *)

(** Extra X10.  In exact arithmetic, a pass whose step the snap has left
    as the solve gave it keeps the residual [a x - b] of every row of
    the working set: a row that holds with equality keeps holding, and a
    row that [xk] violates stays violated by the same amount. *)
Theorem exact_pass_keeps_residuals (G : mat) (c : vec) (Nx Ne : nat)
  (we : mat) (s s' : state) :
  Forall (fun r => length r = length G) G ->
  length c = length G ->
  shaped G Ne we s ->
  snap_exact G c s ->
  iteration G c Nx Ne we s = Continue s' ->
  forall row, In row (ws s) ->
    dot (removelast row) (xk s') - last row 0
    = dot (removelast row) (xk s) - last row 0.
Proof.
  intros HGc Hc [(HG & Hws & Hwe) Hrows] Hsnap Hit row Hin.
  apply iteration_Continue in Hit.
  assert (Hwrows : Forall (fun r => length r = S (length (xk s))) (ws s)).
  { rewrite <- HG, Hws. rewrite app_assoc, Forall_app in Hrows. tauto. }
  rewrite HG in HGc, Hc.
  assert (Htan : forall pk lam,
            QP_subproblem G c (ws s) (xk s) = Some (pk, lam) ->
            dot (removelast row) pk = 0).
  { intros pk lam Hq. eapply exact_step_tangent; eauto. }
  destruct Hit as [pk lam n m r Hq Hz Hn Ha Hr
                  |pk lam nc Hq Hz Hs
                  |pk lam alpha_k n r Hq Hz Hs Ha Hr]; simpl.
  - reflexivity.
  - rewrite dot_vadd_r, dot_vscale_r, (Htan pk lam Hq). ring.
  - rewrite dot_vadd_r, dot_vscale_r, (Htan pk lam Hq). ring.
Qed.

Lemma ratio_mult (x p row : vec) :
  dot (removelast row) p < 0 ->
  ratio x p row * dot (removelast row) p
  = last row 0 - dot (removelast row) x.
Proof.
  intros H. unfold ratio. field.
  intros E. rewrite E in H. apply (Qclt_not_eq _ _ H). reflexivity.
Qed.

Lemma product_sign (r p : Qc) : r * p <= 0 -> p < 0 -> 0 <= r.
Proof.
  intros H Hp. apply Qcnot_lt_le. intros Hr. qc_nra.
Qed.

Lemma product_flip (a r p : Qc) : a <= r -> p < 0 -> r * p <= a * p.
Proof. intros H Hp. qc_nra. Qed.

Lemma product_nonneg (a p : Qc) : 0 <= a -> 0 <= p -> 0 <= a * p.
Proof. intros H Hp. qc_nra. Qed.

(** A step of length [alpha] along [pk] keeps a satisfied row satisfied
    when [alpha] lies in [[0, 1]] and does not exceed the ratio of the
    row if the row blocks. *)
Lemma satisfied_step (x p row : vec) (alpha : Qc) :
  satisfied x row -> 0 <= alpha -> alpha <= 1 ->
  (blocking x p row -> alpha <= ratio x p row) ->
  satisfied (vadd x (vscale alpha p)) row.
Proof.
  unfold satisfied. intros Hs H0 H1 Hb.
  rewrite dot_vadd_r, dot_vscale_r.
  destruct (Qclt_le_dec (dot (removelast row) p) 0) as [Hneg|Hpos].
  - assert (Hle : alpha <= ratio x p row).
    { destruct (Qclt_le_dec (ratio x p row) 1) as [Hr|Hr].
      - apply Hb. split; assumption.
      - apply Qcle_trans with 1; assumption. }
    assert (Hm := product_flip _ _ _ Hle Hneg).
    rewrite (ratio_mult x p row Hneg) in Hm. qc_order.
  - assert (Hm := product_nonneg _ _ H0 Hpos). qc_order.
Qed.

(** A pass moves the iterate to a point where the rows that were
    inactive before it still hold, when [alpha_k] is the least ratio. *)
Lemma pass_inactive_satisfied (G : mat) (c : vec) (Ne : nat) (we : mat)
  (s s' : state) :
  Forall (satisfied (xk s)) (ws_inactive s) ->
  least_ratio G c s ->
  pass G c Ne we s s' ->
  Forall (satisfied (xk s')) (ws_inactive s).
Proof.
  intros Hsat Hmin Hit.
  assert (Hstep : forall pk lam alpha nc,
            QP_subproblem G c (ws s) (xk s) = Some (pk, lam) ->
            step_length (ws_inactive s) (xk s) pk = (alpha, nc) ->
            Forall (satisfied (vadd (xk s) (vscale alpha pk)))
                   (ws_inactive s)).
  { intros pk lam alpha nc Hq Es.
    assert (Hspec := step_length_spec (ws_inactive s) (xk s) pk).
    assert (Hm : forall row, In row (ws_inactive s) ->
                   blocking (xk s) pk row -> alpha <= ratio (xk s) pk row).
    { intros row Hin Hb. assert (H := Hmin pk lam row Hq Hin Hb).
      rewrite Es in H. exact H. }
    rewrite Es in Hspec.
    assert (Hrange : 0 <= alpha /\ alpha <= 1).
    { destruct nc as [n|].
      - destruct Hspec as (r0 & Hn & Hb & Ha & _).
        assert (Hin : In r0 (ws_inactive s)) by (eapply nth_error_In; eauto).
        rewrite Forall_forall in Hsat. specialize (Hsat r0 Hin).
        destruct Hb as [Hneg Hlt]. split.
        + rewrite Ha. apply (product_sign _ (dot (removelast r0) pk));
            [|exact Hneg].
          rewrite (ratio_mult _ _ _ Hneg). unfold satisfied in Hsat.
          qc_order.
        + rewrite Ha. apply Qclt_le_weak. exact Hlt.
      - destruct Hspec as [-> _]. split; [|apply Qcle_refl].
        apply Qclt_le_weak. apply Qc_ltb_lt. reflexivity. }
    rewrite Forall_forall in *. intros row Hin.
    apply satisfied_step; try tauto; auto. }
  destruct Hit as [pk lam n m r Hq Hz Hn Ha Hr
                  |pk lam nc Hq Hz Hs
                  |pk lam alpha_k n r Hq Hz Hs Ha Hr]; simpl.
  - exact Hsat.
  - eapply Hstep; eauto.
  - eapply Hstep; eauto.
Qed.

(** Extra X11.  In exact arithmetic, a pass keeps every inactive row
    satisfied ([a x >= b]) provided [alpha_k], the ratio of the last
    blocking row, does not exceed the ratio of any blocking row. *)
Theorem pass_keeps_inactive_rows_satisfied (G : mat) (c : vec) (Nx Ne : nat)
  (we : mat) (s s' : state) (pk lambda_k : vec) :
  QP_subproblem G c (ws s) (xk s) = Some (pk, lambda_k) ->
  Forall (satisfied (xk s)) (ws_inactive s) ->
  (forall row, In row (ws_inactive s) -> blocking (xk s) pk row ->
               fst (step_length (ws_inactive s) (xk s) pk)
               <= ratio (xk s) pk row) ->
  iteration G c Nx Ne we s = Continue s' ->
  Forall (satisfied (xk s')) (ws_inactive s).
Proof.
  intros Hq Hsat Hmin Hit. apply iteration_Continue in Hit.
  apply (pass_inactive_satisfied G c Ne we s s'); try assumption.
  intros pk' lam' row Hq' Hin Hb. rewrite Hq in Hq'.
  inversion Hq'; subst pk' lam'. apply Hmin; assumption.
Qed.

(* ================================================================== *)
(** * Problems with equalities only *)

Lemma initial_state_equalities (ae : option mat) (be : option vec) (x : vec) :
  initial_state ae be None None x = mkState x [] [] (equality_rows ae be).
Proof. unfold initial_state. rewrite app_nil_r. reflexivity. Qed.

Lemma map_snap_zeros_app (n : nat) (v : vec) :
  map snap (zeros n ++ v) = zeros n ++ map snap v.
Proof.
  rewrite map_app. f_equal. unfold zeros. rewrite map_repeat, snap_0.
  reflexivity.
Qed.

(** With an empty active set and one multiplier for each equality row,
    a zero step returns. *)
Lemma zero_step_returns (G : mat) (c : vec) (Nx Ne : nat) (we : mat)
  (s : state) (pk lam : vec) :
  QP_subproblem G c (ws s) (xk s) = Some (pk, lam) ->
  all_zeros pk -> (length lam <= Ne)%nat ->
  iteration G c Nx Ne we s = Return (xk s) lam.
Proof.
  intros Hq Hz Hl. apply iteration_Return. exists pk.
  repeat split; try assumption.
  rewrite skipn_all2 by exact Hl. constructor.
Qed.

(** The second solve, at [x + p]: its solution is the zero step with the
    multipliers of the first solve. *)
Lemma second_solve (G : mat) (c : vec) (wset : mat) (x sol : vec) :
  length G = length x ->
  Forall (fun r => length r = length x) G ->
  Forall (fun r => length r = S (length x)) wset ->
  length c = length x ->
  kkt_solution G c wset x = Some sol ->
  matvec (coefficients wset) (firstn (length x) sol) = zeros (length wset) ->
  kkt_solution G c wset (vadd x (firstn (length x) sol))
  = Some (zeros (length x) ++ skipn (length x) sol).
Proof.
  intros HG HGc Hw Hc Hsol HA.
  assert (Hl := kkt_solution_length G c wset x sol HG Hsol).
  destruct (kkt_solution_equations G c wset x HG HGc Hw Hc sol Hsol)
    as [Hst _].
  set (p := firstn (length x) sol) in *.
  set (lam := skipn (length x) sol) in *.
  assert (Hp : length p = length x)
    by (unfold p; rewrite length_firstn; lia).
  assert (Hlam : length lam = length wset)
    by (unfold lam; rewrite length_skipn; lia).
  assert (Hx1 : length (vadd x p) = length x)
    by (rewrite length_vadd; lia).
  unfold kkt_solution in *. rewrite Hx1.
  destruct (inv (kkt_lhs G wset (length x))) as [Ki|] eqn:E; [|discriminate].
  f_equal. symmetry. apply (inv_unique _ _ _ _ E).
  - rewrite length_app, length_zeros, length_kkt_lhs by exact HG. lia.
  - rewrite (kkt_lhs_blocks G c wset x HG HGc Hw Hc)
      by (rewrite length_app, length_zeros; lia).
    rewrite firstn_zeros_app, skipn_zeros_app, !matvec_zeros.
    rewrite length_coefficients. unfold kkt_rhs. f_equal.
    apply vec_ext.
    + unfold vsub.
      rewrite !length_vadd, !length_vopp, length_zeros, length_vadd,
        !length_matvec, length_transpose.
      lia.
    + intros i _.
      assert (Hi : nth i (vsub (matvec G p)
                            (matvec (transpose (length x)
                                               (coefficients wset)) lam)) 0
                   = nth i (vopp (vadd (matvec G x) c)) 0)
        by (rewrite Hst; reflexivity).
      rewrite nth_vsub, nth_vopp, nth_vadd, !nth_matvec in Hi.
      rewrite nth_vsub, nth_zeros, nth_vopp, nth_vadd, !nth_matvec.
      rewrite dot_vadd_r.
      set (t := dot (nth i (transpose _ _) []) lam) in *.
      assert (Et : t = dot (nth i G []) p
                       + (dot (nth i G []) x + nth i c 0)).
      { assert (E0 : t = dot (nth i G []) p - (dot (nth i G []) p - t))
          by ring.
        rewrite E0, Hi. ring. }
      rewrite Et. ring.
Qed.

(** Extra X12.  In exact arithmetic, a problem without inequalities, of
    the documented shapes, from a starting point that satisfies the
    equalities: when the KKT matrix is invertible and the snap leaves
    the first step [p] as the solve gave it, [QP_activeset] returns
    within two passes of the loop the point [x0 + p] with the
    multipliers of the first solve after the snap, and the point
    returned passes the test of the equalities again. *)
Theorem equality_constrained_problem_two_passes (G : mat) (c : vec)
  (ae : option mat) (be : option vec) (x0 : option vec) :
  let Nx := length G in
  let x := start_point Nx x0 in
  let we := equality_rows ae be in
  well_shaped G c ae be None None x0 ->
  feasibility_check all_zero ae be x = None ->
  invertible (kkt_lhs G we Nx) ->
  snap_exact G c (initial_state ae be None None x) ->
  exists sol : vec,
    kkt_solution G c we x = Some sol /\
    QP_activeset 2 G c ae be None None x0
    = Some (Returned ["solution find"%string]
                     (PyPair (vadd x (firstn Nx sol))
                             (map snap (skipn Nx sol)))) /\
    feasibility_check all_zero ae be (vadd x (firstn Nx sol)) = None.
Proof.
  intros Nx x we Hshape Hfe Hinv Hsnap.
  assert (Hs0 := initial_shaped G c ae be None None x0 Hshape).
  assert (Hon0 := initial_on_constraint G c ae be None None x0 Hshape Hfe).
  fold Nx x we in Hs0, Hon0.
  rewrite initial_state_equalities in Hs0, Hon0, Hsnap.
  destruct Hshape as (HGc & Hc & Hx & He & _). fold Nx x in Hx.
  destruct Hs0 as [(HG & _ & Hwe) Hrows]. simpl in HG, Hrows, Hon0.
  rewrite app_nil_r in Hrows. fold Nx in HGc, Hc, Hrows.
  rewrite <- Hx in Hinv, HGc, Hc, Hrows.
  destruct (kkt_solution_exists G c we x Hinv) as [sol Hsol].
  exists sol. split; [exact Hsol|].
  assert (Hl := kkt_solution_length G c we x sol HG Hsol).
  destruct (kkt_solution_equations G c we x HG HGc Hrows Hc sol Hsol)
    as [_ HA].
  assert (Hexact : firstn (length x) (map snap sol) = firstn (length x) sol)
    by (apply (Hsnap sol); exact Hsol).
  set (p := firstn (length x) sol) in *.
  assert (Hp : length p = length x)
    by (unfold p; rewrite length_firstn; lia).
  assert (Hlam : (length (map snap (skipn (length x) sol)) <= equality_count ae)%nat).
  { rewrite length_map, length_skipn, Hl, <- Hwe. simpl. lia. }
  set (s0 := mkState x [] [] we) in *.
  assert (Hq0 : QP_subproblem G c (ws s0) (xk s0)
                = Some (p, map snap (skipn (length x) sol))).
  { unfold s0. cbn [ws xk]. unfold QP_subproblem.
    rewrite Hsol. cbv beta iota zeta.
    f_equal. f_equal; [exact Hexact | apply skipn_map]. }
  unfold QP_activeset. fold Nx x we. rewrite Hfe. simpl feasibility_check.
  rewrite initial_state_equalities. fold s0.
  destruct (Forall_dec (fun e : Qc => e = 0) (fun e => Qc_eq_dec e 0) p)
    as [Hz|Hnz].
  - assert (Hret : iteration G c Nx (equality_count ae) we s0
                   = Return x (map snap (skipn (length x) sol)))
      by (apply (zero_step_returns _ _ _ _ _ s0 p); assumption).
    assert (Ex : vadd x p = x).
    { rewrite (all_zeros_eq _ Hz), Hp. apply vadd_zeros_r. }
    cbn [loop]. fold we. fold s0. rewrite Hret.
    rewrite <- Hx. fold p. rewrite Ex. split; [reflexivity | exact Hfe].
  - set (s1 := mkState (vadd x p) [] [] we).
    assert (Hpass : iteration G c Nx (equality_count ae) we s0 = Continue s1).
    { apply iteration_Continue.
      replace s1 with
        (mkState (vadd (xk s0) (vscale 1 p)) (ws_active s0)
                 (ws_inactive s0) (ws s0))
        by (unfold s1; simpl; rewrite vscale_1; reflexivity).
      eapply pass_full; [exact Hq0 | exact Hnz | reflexivity]. }
    assert (Hq1 : QP_subproblem G c (ws s1) (xk s1)
                  = Some (zeros (length x),
                          map snap (skipn (length x) sol))).
    { unfold s1. cbn [ws xk]. unfold QP_subproblem.
      assert (H2 := second_solve G c we x sol HG HGc Hrows Hc Hsol HA).
      fold p in H2. rewrite H2.
      cbv beta iota zeta. rewrite map_snap_zeros_app.
      rewrite length_vadd, Hp, Nat.max_id.
      rewrite firstn_zeros_app, skipn_zeros_app. reflexivity. }
    assert (Hret : iteration G c Nx (equality_count ae) we s1
                   = Return (vadd x p) (map snap (skipn (length x) sol))).
    { apply (zero_step_returns _ _ _ _ _ s1 (zeros (length x)));
        [exact Hq1 | apply all_zeros_zeros | exact Hlam]. }
    cbn [loop]. fold we. fold s0. rewrite Hpass, Hret.
    rewrite <- Hx. fold p. split; [reflexivity|].
    apply (equality_rows_hold (length x) ae be); [rewrite Hx; exact He|].
    fold we.
    assert (Hon1 : Forall (on_constraint (xk s1)) (ws s1)).
    { apply (pass_on_constraint G c (equality_count ae) we s0 s1).
      - rewrite HG. exact HGc.
      - rewrite HG. exact Hc.
      - split; [repeat split; auto; symmetry; apply app_nil_r|].
        simpl. rewrite app_nil_r, HG. exact Hrows.
      - exact Hsnap.
      - exact Hon0.
      - eapply iteration_Continue. exact Hpass. }
    exact Hon1.
Qed.

(* ================================================================== *)
(** * Feasible iterates *)

Lemma on_constraint_satisfied (x row : vec) :
  on_constraint x row -> satisfied x row.
Proof. unfold on_constraint, satisfied. intros ->. apply Qcle_refl. Qed.

Lemma strictly_satisfied_satisfied (x row : vec) :
  strictly_satisfied x row -> satisfied x row.
Proof. apply Qclt_le_weak. Qed.

Lemma snap_unchanged_exact (G : mat) (c : vec) (s : state) :
  snap_unchanged G c s -> snap_exact G c s.
Proof. intros H sol Hsol. rewrite (H sol Hsol). reflexivity. Qed.

(** A pass keeps the rows of [ws_inactive] satisfied: a dropped row
    holds with equality, and the step stops at the first row it
    meets. *)
Lemma pass_feasible (G : mat) (c : vec) (Ne : nat) (we : mat)
  (s s' : state) :
  ws s = we ++ ws_active s ->
  Forall (on_constraint (xk s)) (ws s) ->
  Forall (satisfied (xk s)) (ws_inactive s) ->
  least_ratio G c s ->
  pass G c Ne we s s' ->
  Forall (satisfied (xk s')) (ws_inactive s').
Proof.
  intros Hws Hon Hsat Hmin Hp.
  assert (H := pass_inactive_satisfied G c Ne we s s' Hsat Hmin Hp).
  destruct Hp as [pk lam n m row Hq Hz Hn Ha Hr
                 |pk lam nc Hq Hz Hs
                 |pk lam alpha_k n row Hq Hz Hs Ha Hr]; simpl in *.
  - apply Forall_app. split; [exact H|]. constructor; [|constructor].
    apply on_constraint_satisfied. rewrite Forall_forall in Hon.
    apply Hon. rewrite Hws. apply in_or_app. right.
    eapply nth_error_In; eauto.
  - exact H.
  - rewrite Forall_forall in *. intros r Hr'. apply H.
    eapply delete_row_incl; eauto.
Qed.

Lemma state_at_feasible (G : mat) (c : vec) (Nx Ne : nat) (we : mat)
  (k : nat) :
  Forall (fun r => length r = length G) G -> length c = length G ->
  forall (s sk : state),
    shaped G Ne we s ->
    Forall (on_constraint (xk s)) (ws s) ->
    Forall (satisfied (xk s)) (ws_inactive s) ->
    state_at k G c Nx Ne we s = Some sk ->
    (forall j sj, (j < k)%nat -> state_at j G c Nx Ne we s = Some sj ->
                  snap_exact G c sj /\ least_ratio G c sj) ->
    Forall (on_constraint (xk sk)) (ws sk) /\
    Forall (satisfied (xk sk)) (ws_inactive sk).
Proof.
  intros HGc Hc. induction k as [|k IH]; intros s sk Hs Hon Hsat H Hcond.
  - inversion H; subst. split; assumption.
  - destruct (state_at_S _ _ _ _ _ _ _ _ H) as (s1 & Hp & H1).
    destruct (Hcond O s ltac:(lia) eq_refl) as [Hsnap Hmin].
    apply (IH s1 sk).
    + eapply pass_shaped; eauto.
    + eapply pass_on_constraint; eauto.
    + eapply pass_feasible; eauto. apply Hs.
    + exact H1.
    + intros j sj Hj Hsj. apply (Hcond (S j) sj); [lia|].
      simpl. apply (iteration_Continue G c Nx Ne we) in Hp.
      rewrite Hp. exact Hsj.
Qed.

Section Run.

Variables (G : mat) (c : vec) (ae : option mat) (be : option vec)
  (ai : option mat) (bi : option vec) (x0 : option vec).

Local Abbreviation Nx := (length G).
Local Abbreviation x := (start_point Nx x0).
Local Abbreviation Ne := (equality_count ae).
Local Abbreviation we := (equality_rows ae be).
Local Abbreviation s0 := (initial_state ae be ai bi x).

Hypothesis shapes : well_shaped G c ae be ai bi x0.
Hypothesis equalities_hold : feasibility_check all_zero ae be x = None.
Hypothesis inequalities_hold : feasibility_check all_nonneg ai bi x = None.

Lemma initial_inactive_satisfied :
  Forall (satisfied (xk s0)) (ws_inactive s0).
Proof.
  destruct shapes as (_ & _ & _ & _ & Hi).
  unfold initial_state. destruct ai as [a|]; [|constructor].
  destruct bi as [b|]; [|contradiction]. destruct Hi as [_ Hl].
  simpl present.
  assert (Hf : all_nonneg (vsub (matvec a x) b) = true).
  { simpl in inequalities_hold.
    destruct (all_nonneg (vsub (matvec a x) b)); [reflexivity|discriminate]. }
  assert (H := inactive_rows_strict a b x Hl Hf).
  destruct (active_set a b x) as [act inact]. simpl in *.
  eapply Forall_impl; [|exact H].
  intros r. apply strictly_satisfied_satisfied.
Qed.

(** The invariants of a run whose passes take the least ratio. *)
Lemma run_feasible (k : nat) (sk : state) :
  state_at k G c Nx Ne we s0 = Some sk ->
  (forall j sj, (j < k)%nat -> state_at j G c Nx Ne we s0 = Some sj ->
                snap_exact G c sj /\ least_ratio G c sj) ->
  shaped G Ne we sk /\
  Forall (on_constraint (xk sk)) (ws sk) /\
  feasible ae be ai bi (xk sk).
Proof.
  intros Hk Hcond.
  assert (Hs0 := initial_shaped G c ae be ai bi x0 shapes).
  assert (Hp0 := initial_partition G c ae be ai bi x0 shapes).
  assert (Hon0 := initial_on_constraint G c ae be ai bi x0 shapes
                    equalities_hold).
  assert (Hsat0 := initial_inactive_satisfied).
  destruct (state_at_shaped _ _ _ _ _ _ _ _ Hs0 Hk) as [Hsk Hperm].
  destruct shapes as (HGc & Hc & _).
  destruct (state_at_feasible G c Nx Ne we k HGc Hc s0 sk Hs0 Hon0 Hsat0
              Hk Hcond) as [Hon Hsat].
  split; [exact Hsk|]. split; [exact Hon|].
  destruct Hsk as [(_ & Hws & _) _].
  rewrite Hws, Forall_app in Hon. destruct Hon as [Hone Hona].
  split; [exact Hone|].
  eapply Permutation_Forall.
  - rewrite <- Hp0, <- Hperm. reflexivity.
  - apply Forall_app. split; [|exact Hsat].
    eapply Forall_impl; [|exact Hona].
    intros r. apply on_constraint_satisfied.
Qed.

End Run.

(** Extra X13.  In exact arithmetic, in a run from a feasible start with
    inputs of the documented shapes, the iterate before pass [k]
    satisfies every equality row and every inequality row of the
    problem, provided that in every earlier pass the snap has left the
    step as the solve gave it and [alpha_k] does not exceed the ratio of
    any blocking row. *)
Theorem iterates_stay_feasible (G : mat) (c : vec)
  (ae : option mat) (be : option vec) (ai : option mat) (bi : option vec)
  (x0 : option vec) (k : nat) (sk : state) :
  let Nx := length G in
  let x := start_point Nx x0 in
  let Ne := equality_count ae in
  let we := equality_rows ae be in
  let s0 := initial_state ae be ai bi x in
  well_shaped G c ae be ai bi x0 ->
  feasibility_check all_zero ae be x = None ->
  feasibility_check all_nonneg ai bi x = None ->
  state_at k G c Nx Ne we s0 = Some sk ->
  (forall j sj, (j < k)%nat -> state_at j G c Nx Ne we s0 = Some sj ->
                snap_exact G c sj /\ least_ratio G c sj) ->
  feasible ae be ai bi (xk sk).
Proof.
  intros Nx x Ne we s0 Hshape Hfe Hfi Hk Hcond.
  apply (run_feasible G c ae be ai bi x0 Hshape Hfe Hfi k sk Hk Hcond).
Qed.

(* ================================================================== *)
(** * The returned pair and the objective *)

Lemma dot_map_add (f g : nat -> Qc) (l : list nat) (d : vec) :
  dot (map (fun j => f j + g j) l) d = dot (map f l) d + dot (map g l) d.
Proof.
  revert d. induction l as [|j l IH]; intros [|d0 d]; simpl; try ring.
  rewrite IH. ring.
Qed.

Lemma dot_map_scale (f : nat -> Qc) (a : Qc) (l : list nat) (d : vec) :
  dot (map (fun j => f j * a) l) d = a * dot (map f l) d.
Proof.
  revert d. induction l as [|j l IH]; intros [|d0 d]; simpl; try ring.
  rewrite IH. ring.
Qed.

Lemma dot_map_zero (l : list nat) (d : vec) :
  dot (map (fun _ => 0) l) d = 0.
Proof.
  revert d. induction l as [|j l IH]; intros [|d0 d]; simpl; try ring.
  rewrite IH. ring.
Qed.

Lemma dot_entries (r d : vec) (n : nat) :
  (length d <= n)%nat ->
  dot (map (fun j => nth j r 0) (seq 0 n)) d = dot r d.
Proof.
  intros H. apply dot_ext_l. intros k Hk.
  rewrite (nth_map_in _ _ _ O) by (rewrite length_seq; lia).
  rewrite seq_nth by lia. reflexivity.
Qed.

(** [(A^T lam) . d = lam . (A d)] *)
Lemma dot_transpose (A : mat) (lam d : vec) (n : nat) :
  (length d <= n)%nat ->
  dot (matvec (transpose n A) lam) d = dot lam (matvec A d).
Proof.
  intros Hd. unfold matvec at 1, transpose. rewrite map_map.
  revert lam. induction A as [|r A IH]; intros lam.
  - simpl. rewrite dot_nil_r. apply dot_map_zero.
  - destruct lam as [|l0 lam].
    + simpl. apply dot_map_zero.
    + simpl.
      rewrite (dot_map_add (fun j => nth j r 0 * l0)
                           (fun j => dot (col j A) lam)).
      rewrite (dot_map_scale (fun j => nth j r 0) l0).
      rewrite dot_entries by exact Hd.
      rewrite IH. ring.
Qed.

Lemma symmetric_form (G : mat) (u v : vec) :
  symmetric G -> length v = length G ->
  dot (matvec G u) v = dot u (matvec G v).
Proof.
  intros Hs Hv.
  assert (H := dot_transpose G u v (length G) ltac:(lia)).
  unfold symmetric in Hs. rewrite Hs in H. exact H.
Qed.

Lemma matvec_vadd (G : mat) (x d : vec) :
  matvec G (vadd x d) = vadd (matvec G x) (matvec G d).
Proof.
  apply vec_ext.
  - rewrite length_vadd, !length_matvec. lia.
  - intros k _. rewrite nth_vadd, !nth_matvec, dot_vadd_r. reflexivity.
Qed.

(** [q(x + d) - q(x)] for a symmetric [G]. *)
Lemma objective_step (G : mat) (c x d : vec) :
  symmetric G -> length d = length G ->
  objective G c (vadd x d) - objective G c x
  = dot (vadd (matvec G x) c) d + q 1 2 * dot d (matvec G d).
Proof.
  intros Hs Hd. unfold objective.
  rewrite matvec_vadd, !dot_vadd_l, !dot_vadd_r.
  rewrite (dot_comm d (matvec G x)), (dot_comm d c).
  rewrite <- (symmetric_form G x d Hs Hd).
  assert (Eh : q 1 2 = 1 / (1 + 1)) by (apply Qc_is_canon; reflexivity).
  rewrite Eh. field.
  intros H. apply (f_equal this) in H. discriminate.
Qed.

Lemma vadd_vsub (x y : vec) :
  length x = length y -> vadd x (vsub y x) = y.
Proof.
  intros H. apply vec_ext.
  - unfold vsub, vopp. rewrite !length_vadd, length_map. lia.
  - intros k _. rewrite nth_vadd, nth_vsub. ring.
Qed.

Lemma dot_vsub_r (a x y : vec) : dot a (vsub x y) = dot a x - dot a y.
Proof.
  rewrite (dot_comm a (vsub x y)), dot_vsub_l, !(dot_comm a). reflexivity.
Qed.

(** [lam . (A (y - x)) >= 0] when [x] lies on the rows of [A], [y]
    satisfies the first [Ne] of them with equality and the others as
    inequalities, and the multipliers of the others are not negative. *)
Lemma multipliers_form (we act : mat) (lam x y : vec) :
  length lam = (length we + length act)%nat ->
  Forall (on_constraint x) (we ++ act) ->
  Forall (on_constraint y) we ->
  Forall (satisfied y) act ->
  all_nonnegative (skipn (length we) lam) ->
  0 <= dot lam (matvec (coefficients (we ++ act)) (vsub y x)).
Proof.
  revert lam. induction we as [|r we IH]; intros lam Hl Hx Hy Hs Hn.
  - simpl in *. clear Hy. revert lam Hl Hn.
    induction act as [|r act IHa]; intros lam Hl Hn.
    + simpl. rewrite dot_nil_r. apply Qcle_refl.
    + destruct lam as [|l0 lam]; [discriminate|].
      inversion Hx as [|? ? Hr Hx']; subst.
      inversion Hs as [|? ? Hsr Hs']; subst.
      inversion Hn as [|? ? Hl0 Hn']; subst.
      simpl. rewrite dot_vsub_r.
      assert (IHr := IHa Hx' Hs' lam ltac:(simpl in Hl; lia) Hn').
      unfold on_constraint in Hr. unfold satisfied in Hsr.
      rewrite Hr.
      assert (Hp : 0 <= l0 * (dot (removelast r) y - last r 0)).
      { apply product_nonneg; [exact Hl0 | clear - Hsr; qc_order]. }
      unfold coefficients in IHr. simpl in IHr.
      set (t := dot lam _) in *. clearbody t. clear - Hp IHr. qc_order.
  - destruct lam as [|l0 lam]; [discriminate|].
    inversion Hx as [|? ? Hr Hx']; subst.
    inversion Hy as [|? ? Hyr Hy']; subst.
    simpl. rewrite dot_vsub_r.
    assert (IHr := IH lam ltac:(simpl in Hl; lia) Hx' Hy' Hs Hn).
    unfold on_constraint in Hr, Hyr. rewrite Hr, Hyr.
    replace (l0 * (last r 0 - last r 0)) with 0 by ring.
    unfold coefficients in IHr.
    set (t := dot lam _) in *. clearbody t. clear - IHr. qc_order.
Qed.

(** What the loop has established when it returns, in a run whose
    passes take the least ratio and whose solves the snap leaves as
    they are. *)
Lemma return_kkt (fuel : nat) (G : mat) (c : vec)
  (ae : option mat) (be : option vec) (ai : option mat) (bi : option vec)
  (x0 : option vec) (out : list string) (x lambda_k : vec) :
  well_shaped G c ae be ai bi x0 ->
  QP_activeset fuel G c ae be ai bi x0
  = Some (Returned out (PyPair x lambda_k)) ->
  (forall j sj, (j < fuel)%nat ->
     state_at j G c (length G) (equality_count ae) (equality_rows ae be)
              (initial_state ae be ai bi (start_point (length G) x0))
     = Some sj ->
     snap_unchanged G c sj /\ least_ratio G c sj) ->
  exists act : mat,
    incl act (inequality_rows ai bi) /\
    length (equality_rows ae be) = equality_count ae /\
    length x = length G /\
    feasible ae be ai bi x /\
    Forall (on_constraint x) (equality_rows ae be ++ act) /\
    vadd (matvec G x) c
    = matvec (transpose (length x)
                        (coefficients (equality_rows ae be ++ act)))
             lambda_k /\
    length lambda_k = (equality_count ae + length act)%nat /\
    all_nonnegative (skipn (equality_count ae) lambda_k).
Proof.
  intros Hshape H Hcond.
  assert (Hp0 := initial_partition G c ae be ai bi x0 Hshape).
  assert (Hs0 := initial_shaped G c ae be ai bi x0 Hshape).
  assert (Hsh := Hshape).
  destruct Hsh as (HGc & Hc & _ & He & Hi). unfold QP_activeset in H.
  destruct (feasibility_check all_zero ae be _) as [r|] eqn:E1.
  { destruct (feasibility_check_shaped _ _ _ _ _ _ He E1) as [-> _].
    discriminate. }
  destruct (feasibility_check all_nonneg ai bi _) as [r|] eqn:E2.
  { destruct (feasibility_check_shaped _ _ _ _ _ _ Hi E2) as [-> _].
    discriminate. }
  apply loop_state_at in H. destruct H as (k & sk & Hlt & Hk & Hr).
  destruct (iteration G c (length G) (equality_count ae)
              (equality_rows ae be) sk) as [s'|x' lam'|e'] eqn:Ei;
    [contradiction | | discriminate].
  inversion Hr; subst x' lam'.
  apply iteration_Return in Ei. destruct Ei as (pk & Hq & Hz & Hnn & ->).
  destruct (run_feasible G c ae be ai bi x0 Hshape E1 E2 k sk Hk)
    as (Hsk & Hon & Hfeas).
  { intros j sj Hj Hsj. destruct (Hcond j sj ltac:(lia) Hsj) as [Hu Hm].
    split; [apply snap_unchanged_exact; exact Hu | exact Hm]. }
  destruct (state_at_shaped _ _ _ _ _ _ _ _ Hs0 Hk) as [_ Hperm].
  destruct Hsk as [(HG & Hws & Hwe) Hrows].
  destruct (QP_subproblem_lengths _ _ _ _ _ _ HG Hq) as [_ Hl].
  exists (ws_active sk).
  split.
  { intros r Hr'. eapply Permutation_in; [exact Hp0|].
    eapply Permutation_in; [exact Hperm|].
    apply in_or_app. left. exact Hr'. }
  split; [exact Hwe|]. split; [symmetry; exact HG|].
  split; [exact Hfeas|]. rewrite <- Hws.
  split; [exact Hon|]. split.
  - apply (zero_step_stationary G c (ws sk) (xk sk) pk lambda_k);
      try assumption.
    + rewrite <- HG. exact HGc.
    + rewrite <- HG, Hws. rewrite app_assoc, Forall_app in Hrows. tauto.
    + rewrite <- HG. exact Hc.
    + apply (Hcond k sk Hlt Hk).
  - split; [|exact Hnn].
    rewrite Hl, Hws, length_app, Hwe. reflexivity.
Qed.

(** Extra X14.  In exact arithmetic, when [QP_activeset] returns [(x,
    lambda_k)] on inputs of the documented shapes, in a run where the
    snap has changed no solve and [alpha_k] has not exceeded the ratio
    of any blocking row, the pair is a KKT pair of the problem: [x]
    satisfies every equality and every inequality row; with [act] the
    rows active at the return, which are rows of the inequality block
    that hold with equality at [x], [G x + c = A^T lambda_k] for the
    coefficient rows [A] of the equality rows followed by [act]; and the
    multipliers of [act] are not negative. *)
Theorem returned_pair_is_KKT (fuel : nat) (G : mat) (c : vec)
  (ae : option mat) (be : option vec) (ai : option mat) (bi : option vec)
  (x0 : option vec) (out : list string) (x lambda_k : vec) :
  let Nx := length G in
  let Ne := equality_count ae in
  let we := equality_rows ae be in
  let s0 := initial_state ae be ai bi (start_point Nx x0) in
  well_shaped G c ae be ai bi x0 ->
  QP_activeset fuel G c ae be ai bi x0
  = Some (Returned out (PyPair x lambda_k)) ->
  (forall j sj, (j < fuel)%nat -> state_at j G c Nx Ne we s0 = Some sj ->
                snap_unchanged G c sj /\ least_ratio G c sj) ->
  exists act : mat,
    incl act (inequality_rows ai bi) /\
    feasible ae be ai bi x /\
    Forall (on_constraint x) act /\
    vadd (matvec G x) c
    = matvec (transpose (length x) (coefficients (we ++ act))) lambda_k /\
    length lambda_k = (Ne + length act)%nat /\
    all_nonnegative (skipn Ne lambda_k).
Proof.
  intros Nx Ne we s0 Hshape H Hcond.
  destruct (return_kkt fuel G c ae be ai bi x0 out x lambda_k Hshape H Hcond)
    as (act & Hincl & _ & _ & Hfeas & Hon & Hst & Hl & Hnn).
  exists act. rewrite Forall_app in Hon. tauto.
Qed.

(** Extra X15.  In exact arithmetic, for a symmetric positive
    semidefinite [G], in a run as in X14, the point that [QP_activeset]
    returns minimises [q(x) = 1/2 x^T G x + x^T c] among the points that
    satisfy the equality and the inequality rows of the problem. *)
Theorem returned_point_minimises_objective (fuel : nat) (G : mat) (c : vec)
  (ae : option mat) (be : option vec) (ai : option mat) (bi : option vec)
  (x0 : option vec) (out : list string) (x lambda_k : vec) :
  let Nx := length G in
  let Ne := equality_count ae in
  let we := equality_rows ae be in
  let s0 := initial_state ae be ai bi (start_point Nx x0) in
  well_shaped G c ae be ai bi x0 ->
  symmetric G ->
  positive_semidefinite G ->
  QP_activeset fuel G c ae be ai bi x0
  = Some (Returned out (PyPair x lambda_k)) ->
  (forall j sj, (j < fuel)%nat -> state_at j G c Nx Ne we s0 = Some sj ->
                snap_unchanged G c sj /\ least_ratio G c sj) ->
  feasible ae be ai bi x /\
  forall y, length y = Nx -> feasible ae be ai bi y ->
            objective G c x <= objective G c y.
Proof.
  intros Nx Ne we s0 Hshape Hsym Hpsd H Hcond.
  destruct (return_kkt fuel G c ae be ai bi x0 out x lambda_k Hshape H Hcond)
    as (act & Hincl & Hwe & Hx & Hfeas & Hon & Hst & Hl & Hnn).
  split; [exact Hfeas|]. intros y Hy [Hye Hyi].
  assert (Hd : length (vsub y x) = length G).
  { unfold vsub, vopp. rewrite length_vadd, length_map.
    fold Nx. unfold Nx in Hy. lia. }
  assert (Hstep := objective_step G c x (vsub y x) Hsym Hd).
  rewrite vadd_vsub in Hstep by (unfold Nx in Hy; lia).
  assert (H1 : 0 <= dot (vadd (matvec G x) c) (vsub y x)).
  { rewrite Hst, dot_transpose by lia.
    apply multipliers_form.
    - rewrite Hwe. exact Hl.
    - exact Hon.
    - exact Hye.
    - rewrite Forall_forall in *. intros r Hr. apply Hyi. apply Hincl.
      exact Hr.
    - rewrite Hwe. exact Hnn. }
  assert (H2 := Hpsd (vsub y x) Hd).
  set (a := dot (vadd (matvec G x) c) (vsub y x)) in *.
  set (b := dot (vsub y x) (matvec G (vsub y x))) in *.
  set (qy := objective G c y) in *. set (qx := objective G c x) in *.
  clearbody a b qy qx.
  assert (H3 : 0 <= q 1 2 * b).
  { apply product_nonneg; [|exact H2].
    apply Qc_leb_le. reflexivity. }
  set (t := q 1 2 * b) in *. clearbody t.
  assert (E : qy = qx + (a + t)) by (rewrite <- Hstep; ring).
  rewrite E. clear - H1 H3. qc_order.
Qed.

(* ================================================================== *)
(** * The program on the numbers of the arrays *)

Lemma forallb_false_Exists {A : Type} (f : A -> bool) (l : list A) :
  forallb f l = false <-> Exists (fun v => f v = false) l.
Proof.
  induction l as [|v l IH]; simpl.
  - split; [discriminate | intros H; inversion H].
  - destruct (f v) eqn:E; simpl.
    + rewrite IH. split; [intros H; right; exact H|].
      intros H. inversion H; subst; [congruence | assumption].
    + split; [intros _; left; exact E | reflexivity].
Qed.

Section Computed_program.

Context (ar : Computed.arithmetic).

Local Abbreviation number := (Computed.num ar).
Local Abbreviation cvec := (Computed.vec ar).
Local Abbreviation cmat := (Computed.mat ar).

(** The row [[a | b]] of a constraint [(a, b)]. *)
Local Abbreviation concat := (fun r : cvec * number => fst r ++ [snd r]).

Lemma computed_hstack_nil_r (X : cmat) : Computed.hstack ar X [] = [].
Proof. destruct X; reflexivity. Qed.

Lemma computed_hstack_mask_rows (mask : list bool) (ai : cmat) (bi : cvec) :
  Computed.hstack ar (mask_rows mask ai)
                  (Computed.column ar (mask_rows mask bi))
  = map concat (mask_rows mask (combine ai bi)).
Proof.
  revert ai bi. induction mask as [|m mask IH]; intros [|a ai] [|b bi];
    simpl; try reflexivity.
  - apply computed_hstack_nil_r.
  - destruct m; simpl; rewrite IH; reflexivity.
Qed.

Lemma computed_hstack_column (ai : cmat) (bi : cvec) :
  Computed.hstack ar ai (Computed.column ar bi) = map concat (combine ai bi).
Proof.
  revert bi. induction ai as [|a ai IH]; intros [|b bi]; simpl;
    try reflexivity.
  rewrite IH. reflexivity.
Qed.

Lemma computed_residual_combine (ai : cmat) (bi x0 : cvec) :
  Computed.vsub ar (Computed.matvec ar ai x0) bi
  = map (fun r : cvec * number =>
           Computed.sub ar (Computed.dot ar (fst r) x0) (snd r))
        (combine ai bi).
Proof.
  unfold Computed.vsub.
  revert bi. induction ai as [|a ai IH]; intros [|b bi]; simpl;
    try reflexivity.
  f_equal. apply IH.
Qed.

Lemma computed_active_set_filter (ai : cmat) (bi x0 : cvec) :
  let active (r : cvec * number) :=
    Computed.eqb ar (Computed.sub ar (Computed.dot ar (fst r) x0) (snd r))
                 (Computed.zero ar) in
  Computed.active_set ar ai bi x0
  = (map concat (filter active (combine ai bi)),
     map concat (filter (fun r => negb (active r)) (combine ai bi))).
Proof.
  intros active. unfold Computed.active_set.
  rewrite !computed_hstack_mask_rows, computed_residual_combine, !map_map.
  fold active. rewrite !mask_rows_map. reflexivity.
Qed.

(** Claim C7, amended.  On conformable arrays, [active_set ai bi x0]
    classifies row [i] as active exactly when the residual
    [(ai @ x0)_i - (bi)_i], as the arithmetic of the arrays computes
    it, passes the test [== 0], with no tolerance; it returns the rows
    [[a | b]] of the active constraints and those of the inactive ones,
    each list in the order of the input, of width [Nx + 1], and the two
    lists together are the rows of [[ai | bi]] (each row in exactly one
    of them). *)
Theorem active_set_computed_partition (ai : cmat) (bi x0 : cvec) :
  length bi = length ai ->
  Forall (fun a => length a = length x0) ai ->
  let active (r : cvec * number) :=
    Computed.eqb ar (Computed.sub ar (Computed.dot ar (fst r) x0) (snd r))
                 (Computed.zero ar) in
  Computed.active_set ar ai bi x0
  = (map concat (filter active (combine ai bi)),
     map concat (filter (fun r => negb (active r)) (combine ai bi)))
  /\ Permutation (fst (Computed.active_set ar ai bi x0) ++
                  snd (Computed.active_set ar ai bi x0))
                 (Computed.hstack ar ai (Computed.column ar bi))
  /\ Forall (fun row => length row = S (length x0))
            (fst (Computed.active_set ar ai bi x0) ++
             snd (Computed.active_set ar ai bi x0)).
Proof.
  intros Hl Hai active.
  split; [exact (computed_active_set_filter ai bi x0)|].
  rewrite (computed_active_set_filter ai bi x0). fold active. simpl.
  rewrite <- map_app. split.
  - rewrite computed_hstack_column. apply Permutation_map.
    apply filter_partition_Permutation.
  - rewrite Forall_map. apply Forall_forall. intros r Hr.
    assert (Hin : In r (combine ai bi)).
    { apply in_app_or in Hr. destruct Hr as [Hr|Hr];
        apply filter_In in Hr; tauto. }
    destruct r as [a b]. apply in_combine_l in Hin.
    rewrite Forall_forall in Hai. simpl.
    rewrite length_app, (Hai a Hin). simpl. lia.
Qed.

(** [np.linalg.inv], whatever it computes. *)
Variable inv : Computed.mat ar -> option (Computed.mat ar).

(** The loop leaves with a pair or with an exception. *)
Lemma computed_loop_result (fuel : nat) (G : cmat) (c : cvec) (Nx Ne : nat)
  (we : cmat) :
  forall (s : Computed.state ar) (r : Computed.result ar),
    Computed.loop ar inv fuel G c Nx Ne we s = Some r ->
    r <> Computed.Returned ar ["Error"%string] (Computed.PyNone ar).
Proof.
  induction fuel as [|fuel IH]; intros s r H; simpl in H; [discriminate|].
  destruct (Computed.iteration ar inv G c Nx Ne we s) as [s'|x lam|e].
  - eapply IH; eauto.
  - inversion H. discriminate.
  - inversion H. discriminate.
Qed.

Lemma computed_check_fails (test : number -> bool) (a : option cmat)
  (b : option cvec) (x : cvec) :
  (a <> None -> b <> None) ->
  (Computed.feasibility_check ar (forallb test) a b x
   = Some (Computed.Returned ar ["Error"%string] (Computed.PyNone ar))
   <-> Computed.fails ar test a b x) /\
  (Computed.feasibility_check ar (forallb test) a b x = None
   <-> ~ Computed.fails ar test a b x).
Proof.
  intros Hb. unfold Computed.feasibility_check, Computed.fails.
  destruct a as [a|].
  2:{ split; split; try discriminate; try tauto. }
  destruct b as [b|]; [|exfalso; apply Hb; [discriminate | reflexivity]].
  destruct (forallb test _) eqn:E.
  - assert (Hn : ~ Exists (fun v => test v = false)
                   (Computed.vsub ar (Computed.matvec ar a x) b)).
    { intros H. apply forallb_false_Exists in H. congruence. }
    split; split; try discriminate; tauto.
  - apply forallb_false_Exists in E.
    split; split; try discriminate; tauto.
Qed.

(** Claim C4, amended.  On inputs of the documented shapes,
    [QP_activeset] prints ["Error"] and returns [None] exactly when the
    residual of the starting point (the given [x0], or the zero vector
    when [x0] is omitted), as the arithmetic of the arrays computes it,
    fails the test of the code: [A_e @ x0 - b_e == 0] in a component of
    the supplied equalities, or [A_i @ x0 - b_i >= 0] in a component of
    the supplied inequalities.  It does so for every amount of fuel,
    also for none: the loop is not entered and no subproblem is
    solved. *)
Theorem failed_test_returns_None (fuel : nat) (G : cmat) (c : cvec)
  (ae : option cmat) (be : option cvec) (ai : option cmat)
  (bi : option cvec) (x0 : option cvec) :
  let x := Computed.start_point ar (length G) x0 in
  Computed.well_shaped ar G c ae be ai bi x0 ->
  (Computed.fails ar (fun v => Computed.eqb ar v (Computed.zero ar)) ae be x
   \/
   Computed.fails ar (fun v => Computed.leb ar (Computed.zero ar) v) ai bi x)
  <->
  Computed.QP_activeset ar inv fuel G c ae be ai bi x0
  = Some (Computed.Returned ar ["Error"%string] (Computed.PyNone ar)).
Proof.
  intros x (_ & _ & _ & He & Hi).
  assert (Hbe : ae <> None -> be <> None).
  { destruct ae, be; simpl in He; try contradiction;
      intros; congruence. }
  assert (Hbi : ai <> None -> bi <> None).
  { destruct ai, bi; simpl in Hi; try contradiction;
      intros; congruence. }
  destruct (computed_check_fails
              (fun v => Computed.eqb ar v (Computed.zero ar)) ae be x Hbe)
    as [He1 He2].
  destruct (computed_check_fails
              (fun v => Computed.leb ar (Computed.zero ar) v) ai bi x Hbi)
    as [Hi1 Hi2].
  unfold Computed.QP_activeset. fold x.
  unfold Computed.all_zero, Computed.all_nonneg in *.
  destruct (Computed.feasibility_check ar _ ae be x) as [r|] eqn:E1.
  - split.
    + intros [H|H].
      * apply He1 in H. congruence.
      * destruct ae as [a|]; [|discriminate].
        destruct be as [b|]; [|exfalso; apply Hbe; congruence].
        simpl in E1. destruct (forallb _ _); [discriminate|].
        symmetry. exact E1.
    + intros H. left. apply He1. congruence.
  - assert (Hne : ~ Computed.fails ar
                      (fun v => Computed.eqb ar v (Computed.zero ar))
                      ae be x) by (apply He2; reflexivity).
    destruct (Computed.feasibility_check ar _ ai bi x) as [r|] eqn:E2.
    + split.
      * intros [H|H]; [contradiction|]. apply Hi1 in H. congruence.
      * intros H. right. apply Hi1. congruence.
    + assert (Hni : ~ Computed.fails ar
                        (fun v => Computed.leb ar (Computed.zero ar) v)
                        ai bi x) by (apply Hi2; reflexivity).
      split; [tauto|]. intros H. exfalso.
      exact (computed_loop_result _ _ _ _ _ _ _ _ H eq_refl).
Qed.

End Computed_program.

(* ================================================================== *)
(** * The passes of the loop on the numbers of the arrays *)

Section Computed_passes.

Context (ar : Computed.arithmetic).

Local Abbreviation cvec := (Computed.vec ar).
Local Abbreviation cmat := (Computed.mat ar).

Lemma computed_step_length_snoc (rows : cmat) (row xk pk : cvec) :
  Computed.step_length ar (rows ++ [row]) xk pk
  = Computed.alpha_update ar xk pk (Computed.step_length ar rows xk pk)
                          (length rows, row).
Proof.
  unfold Computed.step_length. rewrite enumerate_snoc, fold_left_app.
  reflexivity.
Qed.

Lemma computed_alpha_update_cases (xk pk : cvec)
  (acc : Computed.num ar * option nat) (i : nat) (row : cvec) :
  Computed.alpha_update ar xk pk acc (i, row)
  = if Computed.blocks ar xk pk row
    then (Computed.ratio ar xk pk row, Some i) else acc.
Proof.
  unfold Computed.alpha_update, Computed.blocks, Computed.ratio. simpl.
  destruct (Computed.ltb ar _ (Computed.zero ar)); [|reflexivity].
  simpl. reflexivity.
Qed.

(** Extra X16.  Whatever the arithmetic of the arrays, after the [for]
    loop over [ws_inactive] the pair [(alpha_k, n_constraint)] is [(1,
    unassigned)] when no row passes the two tests [(a @ pk)[0] < 0]
    and [v_tmp < 1], and otherwise [n_constraint] is the index of the
    last row that passes them and [alpha_k] the [v_tmp] of that row: a
    later row overwrites an earlier one without a comparison of their
    ratios. *)
Theorem computed_step_length_keeps_last_row (rows : cmat) (xk pk : cvec) :
  match Computed.step_length ar rows xk pk with
  | (alpha, None) =>
      alpha = Computed.one ar /\
      forall row, In row rows -> Computed.blocks ar xk pk row = false
  | (alpha, Some n) =>
      exists row,
        nth_error rows n = Some row /\
        Computed.blocks ar xk pk row = true /\
        alpha = Computed.ratio ar xk pk row /\
        forall j row', (n < j)%nat -> nth_error rows j = Some row' ->
                       Computed.blocks ar xk pk row' = false
  end.
Proof.
  induction rows as [|row rows IH] using rev_ind.
  - simpl. split; [reflexivity|]. intros row [].
  - rewrite computed_step_length_snoc, computed_alpha_update_cases.
    destruct (Computed.blocks ar xk pk row) eqn:Hb.
    + exists row. split; [|split; [exact Hb|split; [reflexivity|]]].
      * rewrite nth_error_app2 by lia. rewrite Nat.sub_diag. reflexivity.
      * intros j row' Hj Hn.
        assert (H : nth_error (rows ++ [row]) j <> None) by congruence.
        apply nth_error_Some in H. rewrite length_app in H. simpl in H. lia.
    + destruct (Computed.step_length ar rows xk pk) as [alpha [n|]].
      * destruct IH as (r & Hn & Hr & Ha & Hlast).
        exists r. split; [|split; [exact Hr|split; [exact Ha|]]].
        -- rewrite nth_error_app1; [exact Hn|].
           apply nth_error_Some. congruence.
        -- intros j row' Hj Hn'.
           destruct (Nat.lt_ge_cases j (length rows)) as [Hlt|Hge].
           ++ rewrite nth_error_app1 in Hn' by exact Hlt. eauto.
           ++ rewrite nth_error_app2 in Hn' by exact Hge.
              destruct (j - length rows)%nat as [|d]; simpl in Hn'.
              ** inversion Hn'; subst. exact Hb.
              ** destruct d; discriminate.
      * destruct IH as [Ha Hnone]. split; [exact Ha|].
        intros r Hin. apply in_app_or in Hin. destruct Hin as [Hin|[<-|[]]].
        -- apply Hnone. exact Hin.
        -- exact Hb.
Qed.

(** [np.linalg.inv], whatever it computes. *)
Variable inv : Computed.mat ar -> option (Computed.mat ar).

(** Extra X17.  Whatever the arithmetic of the arrays and whatever
    [np.linalg.inv] returns, a pass of the loop that goes on keeps the
    rows of [ws_active] and [ws_inactive] together the same, each one
    exactly once: it moves at most one row from one set to the end of
    the other; [ws] is unchanged when no row moves and is otherwise
    rebuilt as the equality rows followed by the new [ws_active]; and
    [xk] is unchanged when a row is dropped. *)
Theorem computed_pass_moves_one_row (G : cmat) (c : cvec) (Nx Ne : nat)
  (we : cmat) (s s' : Computed.state ar) :
  Computed.iteration ar inv G c Nx Ne we s = Computed.Continue ar s' ->
  Permutation (Computed.ws_active ar s' ++ Computed.ws_inactive ar s')
              (Computed.ws_active ar s ++ Computed.ws_inactive ar s) /\
  ((Computed.ws_active ar s' = Computed.ws_active ar s /\
    Computed.ws_inactive ar s' = Computed.ws_inactive ar s /\
    Computed.ws ar s' = Computed.ws ar s)
   \/
   (exists (n : nat) (row : cvec) (before after : cmat),
       Computed.ws_active ar s = before ++ row :: after /\
       length before = n /\
       Computed.ws_active ar s' = before ++ after /\
       Computed.ws_inactive ar s' = Computed.ws_inactive ar s ++ [row] /\
       Computed.ws ar s' = we ++ Computed.ws_active ar s' /\
       Computed.xk ar s' = Computed.xk ar s)
   \/
   (exists (n : nat) (row : cvec) (before after : cmat),
       Computed.ws_inactive ar s = before ++ row :: after /\
       length before = n /\
       Computed.ws_inactive ar s' = before ++ after /\
       Computed.ws_active ar s' = Computed.ws_active ar s ++ [row] /\
       Computed.ws ar s' = we ++ Computed.ws_active ar s')).
Proof.
  unfold Computed.iteration.
  destruct (Computed.QP_subproblem ar inv G c _ _) as [[pk lambda_k]|];
    [|discriminate].
  destruct (Z.eqb _ _).
  - destruct (forallb _ _); [discriminate|].
    destruct (Computed.argmin ar _) as [[n_min m]|]; [|discriminate].
    destruct (nth_error (Computed.ws_active ar s) n_min) as [row|] eqn:Er;
      [|discriminate].
    intros H. inversion H; subst s'. clear H. simpl.
    destruct (delete_row_split _ _ _ Er) as [Esplit Edel].
    split.
    + rewrite (delete_row_Permutation _ _ _ Er) at 2. simpl.
      rewrite app_assoc. rewrite <- Permutation_cons_append. reflexivity.
    + right. left.
      exists n_min, row, (firstn n_min (Computed.ws_active ar s)),
        (skipn (S n_min) (Computed.ws_active ar s)).
      rewrite <- Edel. repeat split; auto.
      rewrite length_firstn.
      assert (n_min < length (Computed.ws_active ar s))%nat
        by (apply nth_error_Some; congruence).
      lia.
  - destruct (Computed.step_length ar _ _ _) as [alpha_k n_constraint].
    destruct (Computed.eqb ar alpha_k (Computed.one ar)).
    + intros H. inversion H; subst s'. simpl.
      split; [reflexivity|]. left. auto.
    + destruct n_constraint as [n|]; [|discriminate].
      destruct (nth_error (Computed.ws_inactive ar s) n) as [row|] eqn:Er;
        [|discriminate].
      intros H. inversion H; subst s'. clear H. simpl.
      destruct (delete_row_split _ _ _ Er) as [Esplit Edel].
      split.
      * rewrite (delete_row_Permutation _ _ _ Er) at 2.
        rewrite <- app_assoc. simpl. reflexivity.
      * right. right.
        exists n, row, (firstn n (Computed.ws_inactive ar s)),
          (skipn (S n) (Computed.ws_inactive ar s)).
        rewrite <- Edel. repeat split; auto.
        rewrite length_firstn.
        assert (n < length (Computed.ws_inactive ar s))%nat
          by (apply nth_error_Some; congruence).
        lia.
Qed.

End Computed_passes.

(** * Counterexamples *)

Lemma QP_activeset_first_pass (fuel : nat) (G : mat) (c : vec)
  (ae : option mat) (be : option vec) (ai : option mat) (bi : option vec)
  (x0 : option vec) :
  let Nx := length G in
  let x := start_point Nx x0 in
  feasibility_check all_zero ae be x = None ->
  feasibility_check all_nonneg ai bi x = None ->
  QP_activeset (S fuel) G c ae be ai bi x0
  = match iteration G c Nx (equality_count ae) (equality_rows ae be)
            (initial_state ae be ai bi x) with
    | Continue s' =>
        loop fuel G c Nx (equality_count ae) (equality_rows ae be) s'
    | Return x' lam =>
        Some (Returned ["solution find"%string] (PyPair x' lam))
    | Raise e => Some (Raised e)
    end.
Proof.
  intros Nx x H1 H2. unfold QP_activeset. fold Nx x. rewrite H1, H2.
  reflexivity.
Qed.

(** The claim C6 fails: after one pass the iterate has left the
    equality row of the working set. *)
Lemma snapped_step_leaves_working_set :
  well_shaped steep_G steep_c (Some steep_ae) (Some steep_be) None None None /\
  feasibility_check all_zero (Some steep_ae) (Some steep_be) (zeros 2) = None /\
  feasibility_check all_nonneg None None (zeros 2) = None /\
  exists sk : state,
    state_at 1 steep_G steep_c 2 1
             (equality_rows (Some steep_ae) (Some steep_be))
             (initial_state (Some steep_ae) (Some steep_be) None None
                            (zeros 2))
    = Some sk /\
    ~ Forall (on_constraint (xk sk)) (ws sk).
Proof.
  split; [repeat split; repeat constructor|].
  split; [by_evaluation (option_eq_dec result_eq_dec)|].
  split; [reflexivity|].
  exists (mkState [q 1 100000; z 0] [] [] [[z 1; z (-1000000); z 0]]).
  split; [by_evaluation (option_eq_dec state_eq_dec)|].
  intros H. inversion H as [|r l Hrow _]; subst.
  revert Hrow. apply Qc_eq_bool_false. vm_compute. reflexivity.
Qed.

(** The claim C3 fails on [float64] arrays: for [G = [[49.]]],
    [c = [[-1.]]], no constraint and [xk = 0] the KKT matrix [[49]] is
    invertible and [QP_subproblem] returns the rounded quotient
    [p = 1/49], which the snap leaves as it is; [G @ p] is
    [0.9999999999999999] and not [-(G @ xk + c) = 1], and the
    numbers that [G] and [p] stand for do not satisfy the equation
    either. *)
Lemma rounded_solve_misses_KKT_equation :
  let p := 0x1.4e5e0a72f0539p-6%float in
  invertible (kkt_lhs (map (map exact_value) seventh_G) []
                      (length [0%float])) /\
  Computed.QP_subproblem Computed.binary64 Computed.inv64
    seventh_G seventh_c [] [0%float]
  = Some ([p], []) /\
  Computed.vsub Computed.binary64
    (Computed.matvec Computed.binary64 seventh_G [p])
    (Computed.matvec Computed.binary64
       (Computed.transpose Computed.binary64 1
          (Computed.coefficients Computed.binary64 [])) [])
  = [0x1.fffffffffffffp-1%float] /\
  Computed.vopp Computed.binary64
    (Computed.vadd Computed.binary64
       (Computed.matvec Computed.binary64 seventh_G [0%float]) seventh_c)
  = [1%float] /\
  vsub (matvec (map (map exact_value) seventh_G) [exact_value p])
       (matvec (transpose 1 (coefficients [])) [])
  <> vopp (vadd (matvec (map (map exact_value) seventh_G) [exact_value 0])
                (map exact_value seventh_c)).
Proof.
  intros p. split.
  { split; [reflexivity|]. exists [[q 1 49]]. split; by_evaluation mat_eq_dec. }
  split; [vm_compute; reflexivity|].
  split; [vm_compute; reflexivity|].
  split; [vm_compute; reflexivity|].
  apply (decide_eq_complete vec_eq_dec). vm_compute. reflexivity.
Qed.

(** The claim C4 fails on [float64] arrays: the starting point
    [(1e16, 1)] violates the equality [x1 + x2 = 1e16], but the sum
    rounds to [1e16], the residual that the code tests is 0, and
    [QP_activeset] enters the loop. *)
Lemma rounded_residual_passes_the_test :
  let G := [[1; 0]; [0; 1]]%float in
  let c := [0; 0]%float in
  violates_equality (map (map exact_value) large_a) (map exact_value large_b)
                    (map exact_value large_x) /\
  Computed.vsub Computed.binary64
    (Computed.matvec Computed.binary64 large_a large_x) large_b
  = [0%float] /\
  Computed.QP_activeset Computed.binary64 Computed.inv64 0 G c
    (Some large_a) (Some large_b) None None (Some large_x)
  = None.
Proof.
  intros G c. split.
  { exists O. split; [simpl; lia|].
    apply Qc_eq_bool_false. vm_compute. reflexivity. }
  split; vm_compute; reflexivity.
Qed.

Lemma sets_eq_dec : forall a b : mat * mat, {a = b} + {a <> b}.
Proof. decide equality; apply mat_eq_dec. Defined.

(** The claim C7 fails on [float64] arrays: at [(1e16, 1)] the residual
    of the row [x1 + x2 >= 1e16] is 1, but the code computes 0 and
    returns the row as active. *)
Lemma rounded_residual_is_active :
  Computed.active_set Computed.binary64 large_a large_b large_x
  = ([[1; 1; 1e16]]%float, []) /\
  dot (map exact_value [1; 1]%float) (map exact_value large_x)
  - exact_value 1e16 = 1 /\
  active_set (map (map exact_value) large_a) (map exact_value large_b)
             (map exact_value large_x)
  = ([], [map exact_value [1; 1; 1e16]%float]).
Proof.
  split; [vm_compute; reflexivity|].
  split; [apply Qc_is_canon; vm_compute; reflexivity|].
  by_evaluation sets_eq_dec.
Qed.

(** The claim C9 fails.  With [c = 0] the loop returns in its first
    pass.  On [float64] arrays with [G = [[49.]]], [c = [[-2**26]]] the
    second solve gives the step [1.52e-10], which is not below
    [tol_zero], and the loop returns in its third pass. *)
Lemma newton_point_in_one_or_three_passes :
  (invertible [[z 2]] /\
   QP_activeset 1 [[z 2]] [z 0] None None None None None
   = Some (Returned ["solution find"%string] (PyPair [z 0] []))) /\
  (invertible (map (map exact_value) seventh_G) /\
   Computed.QP_activeset Computed.binary64 Computed.inv64 2
     seventh_G seventh_c' None None None None None
   = None /\
   Computed.QP_activeset Computed.binary64 Computed.inv64 3
     seventh_G seventh_c' None None None None None
   = Some (Computed.Returned Computed.binary64 ["solution find"%string]
             (Computed.PyPair Computed.binary64
                [0x1.4e5e0a72f053ap+20%float] []))).
Proof.
  split.
  - split.
    + split; [reflexivity|]. exists [[q 1 2]]. split; by_evaluation mat_eq_dec.
    + by_evaluation (option_eq_dec result_eq_dec).
  - split.
    + split; [reflexivity|]. exists [[q 1 49]].
      split; by_evaluation mat_eq_dec.
    + split; vm_compute; reflexivity.
Qed.

(** The claim C8 fails.  On [float64] arrays, for [1/2 x^2 - 0.1 x]
    subject to [x >= 0.1] from [x0 = 1], the run returns
    [x = 0.09999999999999998], which fails the test [x - 0.1 >= 0] of
    the second run.  In exact arithmetic, for the problem of the
    counterexample of C6 the run returns [(1e-5, 0)], where the snap
    has taken the iterate off the equality row, and the second run
    stops at the test of the equalities. *)
Lemma returned_point_fails_second_precheck :
  (let x_star := [0x1.9999999999998p-4%float] in
   Computed.QP_activeset Computed.binary64 Computed.inv64 2
     tenth_G tenth_c None None (Some tenth_ai) (Some tenth_bi) (Some tenth_x0)
   = Some (Computed.Returned Computed.binary64 ["solution find"%string]
             (Computed.PyPair Computed.binary64 x_star [])) /\
   Computed.QP_activeset Computed.binary64 Computed.inv64 1
     tenth_G tenth_c None None (Some tenth_ai) (Some tenth_bi) (Some x_star)
   = Some (Computed.Returned Computed.binary64 ["Error"%string]
             (Computed.PyNone Computed.binary64))) /\
  (let x_star := [q 1 100000; z 0] in
   QP_activeset 2 steep_G steep_c (Some steep_ae) (Some steep_be) None None
                None
   = Some (Returned ["solution find"%string] (PyPair x_star [z 0])) /\
   QP_activeset 1 steep_G steep_c (Some steep_ae) (Some steep_be) None None
                (Some x_star)
   = Some (Returned ["Error"%string] PyNone)).
Proof.
  split.
  - split; vm_compute; reflexivity.
  - split; by_evaluation (option_eq_dec result_eq_dec).
Qed.

(** * The theorems at the problems of the notebook *)

Lemma QP_subproblem_solves_KKT_witness :
  exists sol : vec,
    kkt_solution test2_G test2_c [[z 1; z (-1); z 0]] test2_x0 = Some sol /\
    length sol = (length test2_x0 + length [[z 1; z (-1); z 0]])%nat /\
    vsub (matvec test2_G (firstn (length test2_x0) sol))
         (matvec (transpose (length test2_x0)
                            (coefficients [[z 1; z (-1); z 0]]))
                 (skipn (length test2_x0) sol))
    = vopp (vadd (matvec test2_G test2_x0) test2_c) /\
    matvec (coefficients [[z 1; z (-1); z 0]]) (firstn (length test2_x0) sol)
    = zeros (length [[z 1; z (-1); z 0]]) /\
    QP_subproblem test2_G test2_c [[z 1; z (-1); z 0]] test2_x0
    = Some (firstn (length test2_x0) (map snap sol),
            skipn (length test2_x0) (map snap sol)) /\
    length (firstn (length test2_x0) (map snap sol)) = length test2_x0 /\
    length (skipn (length test2_x0) (map snap sol))
    = length [[z 1; z (-1); z 0]] /\
    forall v : Qc,
      (Qc_abs v < tol_zero -> snap v = 0) /\
      (~ Qc_abs v < tol_zero -> snap v = v).
Proof.
  apply QP_subproblem_solves_KKT.
  - reflexivity.
  - repeat constructor.
  - repeat constructor.
  - reflexivity.
  - split; [reflexivity|].
    exists [[q 1 4; q 1 4; q 1 2]; [q 1 4; q 1 4; q (-1) 2];
            [q (-1) 2; q 1 2; z 1]].
    split; by_evaluation mat_eq_dec.
Defined.

Lemma negative_multiplier_drops_argmin_row_witness :
  let s := initial_state None None (Some test1_ai) (Some test1_bi) test1_x0 in
  let lambda_k := [z (-2); z (-1)] in
  exists (n_min : nat) (row_del : vec) (before after : mat),
    (n_min < length (skipn 0 lambda_k))%nat /\
    (forall j, (j < length (skipn 0 lambda_k))%nat ->
               nth n_min (skipn 0 lambda_k) 0 <= nth j (skipn 0 lambda_k) 0) /\
    (forall j, (j < n_min)%nat ->
               nth n_min (skipn 0 lambda_k) 0 < nth j (skipn 0 lambda_k) 0) /\
    ws_active s = before ++ row_del :: after /\
    length before = n_min /\
    iteration test1_G test1_c 2 0 [] s
    = Continue (mkState (xk s)
                        (before ++ after)
                        (ws_inactive s ++ [row_del])
                        ([] ++ before ++ after)).
Proof.
  intros s lambda_k.
  apply (negative_multiplier_drops_argmin_row test1_G test1_c 2 0 [] s
           [z 0; z 0] lambda_k).
  - repeat split.
  - by_evaluation subproblem_eq_dec.
  - repeat constructor.
  - apply Exists_cons_hd. apply Qc_ltb_lt. vm_compute. reflexivity.
Defined.

Lemma working_set_invariants_witness :
  let sk := mkState [z 1; z 0] [[z 0; z 1; z 0]]
              [[z 1; z (-2); z (-2)]; [z (-1); z (-2); z (-6)];
               [z 1; z 0; z 0]; [z (-1); z 2; z (-2)]]
              [[z 0; z 1; z 0]] in
  state_at 2 test1_G test1_c 2 0 []
           (initial_state None None (Some test1_ai) (Some test1_bi) test1_x0)
  = Some sk /\
  Permutation (ws_active sk ++ ws_inactive sk)
              (inequality_rows (Some test1_ai) (Some test1_bi)) /\
  ws sk = equality_rows None None ++ ws_active sk /\
  Forall (on_constraint (xk sk)) (ws sk).
Proof.
  intros sk.
  assert (Hk : state_at 2 test1_G test1_c 2 0 []
                 (initial_state None None (Some test1_ai) (Some test1_bi)
                                test1_x0) = Some sk)
    by (by_evaluation (option_eq_dec state_eq_dec)).
  split; [exact Hk|].
  destruct (working_set_invariants test1_G test1_c None None (Some test1_ai)
              (Some test1_bi) (Some test1_x0) 2 sk) as (Hperm & Hws & Hon).
  - repeat split; repeat constructor.
  - reflexivity.
  - by_evaluation (option_eq_dec result_eq_dec).
  - exact Hk.
  - split; [exact Hperm|]. split; [exact Hws|]. apply Hon.
    assert (Hexact : forall s sol0,
              kkt_solution test1_G test1_c (ws s) (xk s) = Some sol0 ->
              firstn (length (xk s)) (map snap sol0)
              = firstn (length (xk s)) sol0 ->
              snap_exact test1_G test1_c s).
    { intros s sol0 H0 Hs sol H. rewrite H0 in H. inversion H; subst sol.
      exact Hs. }
    intros [|[|j]] sj Hj Hsj; [| |lia].
    + inversion Hsj; subst sj.
      apply (Hexact _ [z 0; z 0; z (-2); z (-1)]).
      * by_evaluation (option_eq_dec vec_eq_dec).
      * by_evaluation vec_eq_dec.
    + assert (H1 : state_at 1 test1_G test1_c 2 0 []
                     (initial_state None None (Some test1_ai) (Some test1_bi)
                                    test1_x0)
                   = Some (mkState [z 2; z 0] [[z 0; z 1; z 0]]
                             [[z 1; z (-2); z (-2)]; [z (-1); z (-2); z (-6)];
                              [z 1; z 0; z 0]; [z (-1); z 2; z (-2)]]
                             [[z 0; z 1; z 0]]))
        by (by_evaluation (option_eq_dec state_eq_dec)).
      assert (E : Some sj = Some (mkState [z 2; z 0] [[z 0; z 1; z 0]]
                             [[z 1; z (-2); z (-2)]; [z (-1); z (-2); z (-6)];
                              [z 1; z 0; z 0]; [z (-1); z 2; z (-2)]]
                             [[z 0; z 1; z 0]]))
        by (rewrite <- Hsj; exact H1).
      inversion E; subst sj.
      apply (Hexact _ [z (-1); z 0; z (-5)]).
      * by_evaluation (option_eq_dec vec_eq_dec).
      * by_evaluation vec_eq_dec.
Defined.

Lemma unconstrained_problem_returns_newton_point_witness :
  exists Gi : mat,
    inv [[z 2]] = Some Gi /\
    matvec [[z 2]] (matvec Gi (vopp [z 3])) = vopp [z 3] /\
    let x_star := map snap (matvec Gi (vopp [z 3])) in
    QP_activeset 2 [[z 2]] [z 3] None None None None None
    = Some (Returned ["solution find"%string] (PyPair x_star [])) /\
    (all_zeros x_star ->
     QP_activeset 1 [[z 2]] [z 3] None None None None None
     = Some (Returned ["solution find"%string] (PyPair x_star []))) /\
    (~ all_zeros x_star ->
     QP_activeset 1 [[z 2]] [z 3] None None None None None = None).
Proof.
  apply (unconstrained_problem_returns_newton_point [[z 2]] [z 3]).
  - split; [reflexivity|]. exists [[q 1 2]]. split; by_evaluation mat_eq_dec.
  - reflexivity.
Defined.

Lemma zero_step_with_empty_active_set_returns_witness :
  let s := mkState [z 0; z 0] [] [] [[z 1; z (-1); z 0]] in
  skipn 1 [z 0] = [] /\
  iteration test2_G test2_c 2 1 [[z 1; z (-1); z 0]] s = Return (xk s) [z 0] /\
  forall fuel,
    loop (S fuel) test2_G test2_c 2 1 [[z 1; z (-1); z 0]] s
    = Some (Returned ["solution find"%string] (PyPair (xk s) [z 0])).
Proof.
  intros s.
  apply (zero_step_with_empty_active_set_returns test2_G test2_c 2 1
           [[z 1; z (-1); z 0]] s [z 0; z 0] [z 0]).
  - repeat split.
  - reflexivity.
  - by_evaluation subproblem_eq_dec.
  - repeat constructor.
Defined.

Lemma active_set_computed_partition_witness :
  let ar := Computed.binary64 in
  let ai := [[1; -2]; [-1; -2]; [-1; 2]; [1; 0]; [0; 1]]%float in
  let bi := [-2; -6; -2; 0; 0]%float in
  let x0 := [2; 0]%float in
  let active (r : list float * float) :=
    Computed.eqb ar (Computed.sub ar (Computed.dot ar (fst r) x0) (snd r))
                 (Computed.zero ar) in
  Computed.active_set ar ai bi x0
  = (map (fun r => fst r ++ [snd r]) (filter active (combine ai bi)),
     map (fun r => fst r ++ [snd r])
         (filter (fun r => negb (active r)) (combine ai bi)))
  /\ Permutation (fst (Computed.active_set ar ai bi x0) ++
                  snd (Computed.active_set ar ai bi x0))
                 (Computed.hstack ar ai (Computed.column ar bi))
  /\ Forall (fun row => length row = S (length x0))
            (fst (Computed.active_set ar ai bi x0) ++
             snd (Computed.active_set ar ai bi x0)).
Proof.
  intros ar ai bi x0.
  apply (active_set_computed_partition ar ai bi x0).
  - reflexivity.
  - repeat constructor.
Defined.

Lemma failed_test_returns_None_witness :
  let ar := Computed.binary64 in
  let G := [[2; 0]; [0; 2]]%float in
  let c := [-2; -5]%float in
  let ai := [[1; -2]; [-1; -2]; [-1; 2]; [1; 0]; [0; 1]]%float in
  let bi := [-2; -6; -2; 0; 0]%float in
  let x0 := [0; 5]%float in
  (Computed.fails ar (fun v => Computed.eqb ar v (Computed.zero ar))
                  None None x0
   \/
   Computed.fails ar (fun v => Computed.leb ar (Computed.zero ar) v)
                  (Some ai) (Some bi) x0)
  <->
  Computed.QP_activeset ar Computed.inv64 3 G c None None (Some ai) (Some bi)
                        (Some x0)
  = Some (Computed.Returned ar ["Error"%string] (Computed.PyNone ar)).
Proof.
  intros ar G c ai bi x0.
  apply (failed_test_returns_None ar Computed.inv64 3 G c None None
           (Some ai) (Some bi) (Some x0)).
  repeat split; repeat constructor.
Defined.

Lemma solving_again_takes_one_pass_witness :
  let x_star := [z 1; z 1] in
  let lambda_star := [z 16; z 8] in
  let s1 := initial_state None None (Some corner_ai) (Some corner_bi)
                          x_star in
  exists lambda' : vec,
    QP_activeset 1 corner_G corner_c None None (Some corner_ai)
                 (Some corner_bi) (Some x_star)
    = Some (Returned ["solution find"%string] (PyPair x_star lambda')) /\
    QP_activeset 0 corner_G corner_c None None (Some corner_ai)
                 (Some corner_bi) (Some x_star) = None /\
    QP_subproblem corner_G corner_c (ws s1) x_star
    = Some (zeros (length corner_G), lambda') /\
    firstn (equality_count None) lambda'
    = firstn (equality_count None) lambda_star /\
    Permutation (skipn (equality_count None) lambda')
                (skipn (equality_count None) lambda_star
                 ++ zeros (length (ws s1) - length lambda_star)) /\
    all_nonnegative (skipn (equality_count None) lambda').
Proof.
  intros x_star lambda_star s1.
  apply (solving_again_takes_one_pass 3 corner_G corner_c None None
           (Some corner_ai) (Some corner_bi) (Some corner_x0)
           ["solution find"%string] x_star lambda_star).
  - repeat split; repeat constructor.
  - by_evaluation (option_eq_dec result_eq_dec).
  - assert (Hexact : forall s sol0,
              kkt_solution corner_G corner_c (ws s) (xk s) = Some sol0 ->
              firstn (length (xk s)) (map snap sol0)
              = firstn (length (xk s)) sol0 ->
              snap_exact corner_G corner_c s).
    { intros s sol0 H0 Hs sol H. rewrite H0 in H. inversion H; subst sol.
      exact Hs. }
    assert (Hat : forall j s sj,
              state_at j corner_G corner_c (length corner_G)
                (equality_count None) (equality_rows None None)
                (initial_state None None (Some corner_ai) (Some corner_bi)
                   (start_point (length corner_G) (Some corner_x0)))
              = Some s ->
              state_at j corner_G corner_c (length corner_G)
                (equality_count None) (equality_rows None None)
                (initial_state None None (Some corner_ai) (Some corner_bi)
                   (start_point (length corner_G) (Some corner_x0)))
              = Some sj -> sj = s).
    { intros j s sj Hs Hsj. rewrite Hs in Hsj. inversion Hsj. reflexivity. }
    intros [|[|[|j]]] sj Hj Hsj; [| | | lia].
    + apply (Hat _ (mkState [z 0; q 1 2] []
                      [[z (-1); z 0; z (-1)]; [z 0; z (-1); z (-1)]] []))
        in Hsj; [|by_evaluation (option_eq_dec state_eq_dec)].
      subst sj. apply (Hexact _ [z 5; q 17 2]).
      * by_evaluation (option_eq_dec vec_eq_dec).
      * by_evaluation vec_eq_dec.
    + apply (Hat _ (mkState [q 5 17; z 1] [[z 0; z (-1); z (-1)]]
                      [[z (-1); z 0; z (-1)]] [[z 0; z (-1); z (-1)]]))
        in Hsj; [|by_evaluation (option_eq_dec state_eq_dec)].
      subst sj. apply (Hexact _ [q 80 17; z 0; z 16]).
      * by_evaluation (option_eq_dec vec_eq_dec).
      * by_evaluation vec_eq_dec.
    + apply (Hat _ (mkState [z 1; z 1]
                      [[z 0; z (-1); z (-1)]; [z (-1); z 0; z (-1)]] []
                      [[z 0; z (-1); z (-1)]; [z (-1); z 0; z (-1)]]))
        in Hsj; [|by_evaluation (option_eq_dec state_eq_dec)].
      subst sj. apply (Hexact _ [z 0; z 0; z 16; z 8]).
      * by_evaluation (option_eq_dec vec_eq_dec).
      * by_evaluation vec_eq_dec.
  - by_evaluation (option_eq_dec result_eq_dec).
  - split; [reflexivity|].
    exists [[z 0; z 0; z (-1); z 0]; [z 0; z 0; z 0; z (-1)];
            [z 1; z 0; z 2; z 0]; [z 0; z 1; z 0; z 2]].
    split; by_evaluation mat_eq_dec.
Defined.

(* ================================================================== *)
(** * The further properties at the problems of the notebook *)


Lemma unblocked_step_is_full_witness :
  let s := mkState [z 2; z 0] [[z 0; z 1; z 0]]
             [[z 1; z (-2); z (-2)]; [z (-1); z (-2); z (-6)];
              [z 1; z 0; z 0]; [z (-1); z 2; z (-2)]]
             [[z 0; z 1; z 0]] in
  iteration test1_G test1_c 2 0 [] s
  = Continue (mkState (vadd (xk s) [z (-1); z 0]) (ws_active s)
                      (ws_inactive s) (ws s)).
Proof.
  intros s.
  apply (unblocked_step_is_full test1_G test1_c 2 0 [] s
           [z (-1); z 0] [z (-5)]).
  - by_evaluation subproblem_eq_dec.
  - intros H. inversion H as [|? ? H0 _]. vm_compute in H0. discriminate.
  - repeat constructor; intros [H1 H2];
      first [ apply Qc_ltb_lt in H1; vm_compute in H1; discriminate
            | apply Qc_ltb_lt in H2; vm_compute in H2; discriminate ].
Defined.

Lemma dependent_working_set_raises_LinAlgError_witness :
  let s := mkState [z 0] [[z 1; z 0]; [z 2; z 0]] []
             [[z 1; z 0]; [z 2; z 0]] in
  QP_subproblem twice_G twice_c (ws s) (xk s) = None /\
  iteration twice_G twice_c 1 0 [] s = Raise LinAlgError /\
  loop 1 twice_G twice_c 1 0 [] s = Some (Raised LinAlgError).
Proof.
  intros s.
  apply (dependent_working_set_raises_LinAlgError twice_G twice_c 1 0 [] s
           [z 2; z (-1)] 0 0).
  - reflexivity.
  - repeat constructor.
  - repeat constructor.
  - reflexivity.
  - intros H. vm_compute in H. discriminate.
  - by_evaluation vec_eq_dec.
Defined.

Lemma returned_point_is_stationary_witness :
  let s := mkState [q 7 5; q 17 10] [[z 1; z (-2); z (-2)]]
             [[z (-1); z (-2); z (-6)]; [z 1; z 0; z 0];
              [z (-1); z 2; z (-2)]; [z 0; z 1; z 0]]
             [[z 1; z (-2); z (-2)]] in
  vadd (matvec test1_G [q 7 5; q 17 10]) test1_c
  = matvec (transpose (length [q 7 5; q 17 10]) (coefficients (ws s)))
           [q 4 5].
Proof.
  intros s.
  apply (returned_point_is_stationary test1_G test1_c 2 0 [] s
           [q 7 5; q 17 10] [q 4 5]).
  - reflexivity.
  - repeat constructor.
  - repeat constructor.
  - reflexivity.
  - intros sol H.
    assert (E : kkt_solution test1_G test1_c (ws s) (xk s)
                = Some [z 0; z 0; q 4 5])
      by (by_evaluation (option_eq_dec vec_eq_dec)).
    rewrite E in H. inversion H; subst sol. by_evaluation vec_eq_dec.
  - by_evaluation outcome_eq_dec.
Defined.


Lemma equality_constrained_problem_two_passes_witness :
  exists sol : vec,
    kkt_solution test2_G test2_c (equality_rows (Some test2_ae) (Some test2_be))
                 (start_point (length test2_G) (Some test2_x0)) = Some sol /\
    QP_activeset 2 test2_G test2_c (Some test2_ae) (Some test2_be) None None
                 (Some test2_x0)
    = Some (Returned ["solution find"%string]
              (PyPair (vadd (start_point (length test2_G) (Some test2_x0))
                            (firstn (length test2_G) sol))
                      (map snap (skipn (length test2_G) sol)))) /\
    feasibility_check all_zero (Some test2_ae) (Some test2_be)
      (vadd (start_point (length test2_G) (Some test2_x0))
            (firstn (length test2_G) sol)) = None.
Proof.
  apply (equality_constrained_problem_two_passes test2_G test2_c
           (Some test2_ae) (Some test2_be) (Some test2_x0)).
  - repeat split; repeat constructor.
  - vm_compute. reflexivity.
  - split; [reflexivity|].
    exists [[q 1 4; q 1 4; q 1 2]; [q 1 4; q 1 4; q (-1) 2];
            [q (-1) 2; q 1 2; z 1]].
    split; by_evaluation mat_eq_dec.
  - intros sol H.
    assert (E : kkt_solution test2_G test2_c
                  (ws (initial_state (Some test2_ae) (Some test2_be) None None
                         (start_point (length test2_G) (Some test2_x0))))
                  (xk (initial_state (Some test2_ae) (Some test2_be) None None
                         (start_point (length test2_G) (Some test2_x0))))
                = Some [z (-3); z (-3); z 0])
      by (by_evaluation (option_eq_dec vec_eq_dec)).
    rewrite E in H. inversion H; subst sol. by_evaluation vec_eq_dec.
Defined.

Lemma feasible_start_splits_rows_witness :
  Forall (on_constraint test1_x0) (fst (active_set test1_ai test1_bi test1_x0))
  /\ Forall (strictly_satisfied test1_x0)
            (snd (active_set test1_ai test1_bi test1_x0)).
Proof.
  apply (feasible_start_splits_rows test1_ai test1_bi test1_x0).
  - reflexivity.
  - vm_compute. reflexivity.
Defined.

Lemma exact_pass_keeps_residuals_witness :
  let s := mkState [z 2; z 0] [[z 0; z 1; z 0]]
             [[z 1; z (-2); z (-2)]; [z (-1); z (-2); z (-6)];
              [z 1; z 0; z 0]; [z (-1); z 2; z (-2)]]
             [[z 0; z 1; z 0]] in
  let s' := mkState [z 1; z 0] [[z 0; z 1; z 0]]
             [[z 1; z (-2); z (-2)]; [z (-1); z (-2); z (-6)];
              [z 1; z 0; z 0]; [z (-1); z 2; z (-2)]]
             [[z 0; z 1; z 0]] in
  iteration test1_G test1_c 2 0 [] s = Continue s' /\
  forall row, In row (ws s) ->
    dot (removelast row) (xk s') - last row 0
    = dot (removelast row) (xk s) - last row 0.
Proof.
  intros s s'.
  split; [by_evaluation outcome_eq_dec|].
  apply (exact_pass_keeps_residuals test1_G test1_c 2 0 [] s s').
  - repeat constructor.
  - reflexivity.
  - repeat split; repeat constructor.
  - intros sol H.
    assert (E : kkt_solution test1_G test1_c (ws s) (xk s)
                = Some [z (-1); z 0; z (-5)])
      by (by_evaluation (option_eq_dec vec_eq_dec)).
    rewrite E in H. inversion H; subst sol. by_evaluation vec_eq_dec.
  - by_evaluation outcome_eq_dec.
Defined.

Lemma pass_keeps_inactive_rows_satisfied_witness :
  let s := mkState [z 0] [] [[z (-1); z (-5)]; [z (-1); z (-2)]] [] in
  let s' := mkState [z 2] [[z (-1); z (-2)]] [[z (-1); z (-5)]]
              [[z (-1); z (-2)]] in
  Forall (satisfied (xk s')) (ws_inactive s).
Proof.
  intros s s'.
  apply (pass_keeps_inactive_rows_satisfied bounds_G bounds_c 1 0 [] s s'
           [z 10] []).
  - by_evaluation subproblem_eq_dec.
  - repeat constructor; apply Qc_leb_le; vm_compute; reflexivity.
  - intros row [H|[H|[]]] _; subst row; apply Qc_leb_le; vm_compute;
      reflexivity.
  - by_evaluation outcome_eq_dec.
Defined.

Lemma QP_subproblem_entries_zero_or_large_witness :
  Forall (fun v => v = 0 \/ tol_zero <= Qc_abs v) ([z (-1); z 0] ++ [z (-5)]).
Proof.
  apply (QP_subproblem_entries_zero_or_large test1_G test1_c [[z 0; z 1; z 0]]
           [z 2; z 0]).
  by_evaluation subproblem_eq_dec.
Defined.

Lemma QP_activeset_raises_only_LinAlgError_witness :
  QP_activeset 1 twice_G twice_c None None (Some twice_ai) (Some twice_bi) None
  = Some (Raised LinAlgError) /\ LinAlgError = LinAlgError.
Proof.
  assert (H : QP_activeset 1 twice_G twice_c None None (Some twice_ai)
                (Some twice_bi) None = Some (Raised LinAlgError))
    by (by_evaluation (option_eq_dec result_eq_dec)).
  split; [exact H|].
  apply (QP_activeset_raises_only_LinAlgError 1 twice_G twice_c None None
           (Some twice_ai) (Some twice_bi) None LinAlgError).
  - repeat split; repeat constructor.
  - exact H.
Defined.

(* ================================================================== *)
(** * The run of the first test of the notebook *)

(** A row either does not block or has a ratio that [alpha_k] does not
    exceed, by evaluation. *)
Ltac ratio_or_not_blocking Hb :=
  first
    [ apply Qc_leb_le; vm_compute; reflexivity
    | exfalso; destruct Hb as [Hb _]; apply Qc_ltb_lt in Hb;
      vm_compute in Hb; discriminate Hb
    | exfalso; destruct Hb as [_ Hb]; apply Qc_ltb_lt in Hb;
      vm_compute in Hb; discriminate Hb ].

(** The conditions on a state whose solve gives [sol], snapped to the
    step [pk] and the multipliers [lam]. *)
Ltac solve_conditions sol pk lam :=
  split;
  [ intros sol' Hsol;
    match type of Hsol with
    | ?k = _ =>
        assert (E : k = Some sol)
          by (by_evaluation (option_eq_dec vec_eq_dec));
        rewrite E in Hsol; inversion Hsol; subst sol';
        by_evaluation vec_eq_dec
    end
  | intros pk' lam' row Hq Hin Hb;
    match type of Hq with
    | ?k = _ =>
        assert (E : k = Some (pk, lam)) by (by_evaluation subproblem_eq_dec);
        rewrite E in Hq; inversion Hq; subst pk' lam'
    end;
    cbn [In ws_inactive] in Hin;
    repeat (destruct Hin as [Hin|Hin];
            [subst row; ratio_or_not_blocking Hb|]);
    destruct Hin ].

Lemma test1_run (j : nat) (sj : state) :
  (j < 6)%nat ->
  state_at j test1_G test1_c (length test1_G) (equality_count None)
           (equality_rows None None)
           (initial_state None None (Some test1_ai) (Some test1_bi)
              (start_point (length test1_G) (Some test1_x0)))
  = Some sj ->
  snap_unchanged test1_G test1_c sj /\ least_ratio test1_G test1_c sj.
Proof.
  assert (Hat : forall k s s',
            state_at k test1_G test1_c (length test1_G) (equality_count None)
              (equality_rows None None)
              (initial_state None None (Some test1_ai) (Some test1_bi)
                 (start_point (length test1_G) (Some test1_x0)))
            = Some s ->
            state_at k test1_G test1_c (length test1_G) (equality_count None)
              (equality_rows None None)
              (initial_state None None (Some test1_ai) (Some test1_bi)
                 (start_point (length test1_G) (Some test1_x0)))
            = Some s' -> s' = s).
  { intros k s s' Hs Hs'. rewrite Hs in Hs'. inversion Hs'. reflexivity. }
  intros Hj Hsj.
  destruct j as [|[|[|[|[|[|j]]]]]]; [| | | | | | lia]; clear Hj.
  - apply (Hat _ (mkState [z 2; z 0]
                    [[z (-1); z 2; z (-2)]; [z 0; z 1; z 0]]
                    [[z 1; z (-2); z (-2)]; [z (-1); z (-2); z (-6)];
                     [z 1; z 0; z 0]]
                    [[z (-1); z 2; z (-2)]; [z 0; z 1; z 0]]))
      in Hsj; [|by_evaluation (option_eq_dec state_eq_dec)].
    subst sj.
    solve_conditions [z 0; z 0; z (-2); z (-1)] [z 0; z 0] [z (-2); z (-1)].
  - apply (Hat _ (mkState [z 2; z 0] [[z 0; z 1; z 0]]
                    [[z 1; z (-2); z (-2)]; [z (-1); z (-2); z (-6)];
                     [z 1; z 0; z 0]; [z (-1); z 2; z (-2)]]
                    [[z 0; z 1; z 0]]))
      in Hsj; [|by_evaluation (option_eq_dec state_eq_dec)].
    subst sj.
    solve_conditions [z (-1); z 0; z (-5)] [z (-1); z 0] [z (-5)].
  - apply (Hat _ (mkState [z 1; z 0] [[z 0; z 1; z 0]]
                    [[z 1; z (-2); z (-2)]; [z (-1); z (-2); z (-6)];
                     [z 1; z 0; z 0]; [z (-1); z 2; z (-2)]]
                    [[z 0; z 1; z 0]]))
      in Hsj; [|by_evaluation (option_eq_dec state_eq_dec)].
    subst sj.
    solve_conditions [z 0; z 0; z (-5)] [z 0; z 0] [z (-5)].
  - apply (Hat _ (mkState [z 1; z 0] []
                    [[z 1; z (-2); z (-2)]; [z (-1); z (-2); z (-6)];
                     [z 1; z 0; z 0]; [z (-1); z 2; z (-2)];
                     [z 0; z 1; z 0]]
                    []))
      in Hsj; [|by_evaluation (option_eq_dec state_eq_dec)].
    subst sj.
    solve_conditions [z 0; q 5 2] [z 0; q 5 2] (@nil Qc).
  - apply (Hat _ (mkState [z 1; q 3 2] [[z 1; z (-2); z (-2)]]
                    [[z (-1); z (-2); z (-6)]; [z 1; z 0; z 0];
                     [z (-1); z 2; z (-2)]; [z 0; z 1; z 0]]
                    [[z 1; z (-2); z (-2)]]))
      in Hsj; [|by_evaluation (option_eq_dec state_eq_dec)].
    subst sj.
    solve_conditions [q 2 5; q 1 5; q 4 5] [q 2 5; q 1 5] [q 4 5].
  - apply (Hat _ (mkState [q 7 5; q 17 10] [[z 1; z (-2); z (-2)]]
                    [[z (-1); z (-2); z (-6)]; [z 1; z 0; z 0];
                     [z (-1); z 2; z (-2)]; [z 0; z 1; z 0]]
                    [[z 1; z (-2); z (-2)]]))
      in Hsj; [|by_evaluation (option_eq_dec state_eq_dec)].
    subst sj.
    solve_conditions [z 0; z 0; q 4 5] [z 0; z 0] [q 4 5].
Qed.

Lemma product_square (a : Qc) : 0 <= a * a.
Proof. qc_nra. Qed.

Lemma test1_G_positive_semidefinite : positive_semidefinite test1_G.
Proof.
  intros [|a [|b [|e v]]] Hv; try discriminate Hv. clear Hv.
  cbn [test1_G matvec map dot].
  assert (Ha := product_square a). assert (Hb := product_square b).
  assert (E : a * (z 2 * a + (z 0 * b + 0)) + (b * (z 0 * a + (z 2 * b + 0)) + 0)
              = (a * a + a * a) + (b * b + b * b)).
  { assert (E2 : z 2 = 1 + 1) by (apply Qc_is_canon; reflexivity).
    assert (E0 : z 0 = 0) by (apply Qc_is_canon; reflexivity).
    rewrite E2, E0. ring. }
  rewrite E. set (t := a * a) in *. set (u := b * b) in *.
  clearbody t u. clear - Ha Hb. qc_order.
Qed.

Lemma iterates_stay_feasible_witness :
  feasible None None (Some test1_ai) (Some test1_bi) [q 7 5; q 17 10].
Proof.
  apply (iterates_stay_feasible test1_G test1_c None None (Some test1_ai)
           (Some test1_bi) (Some test1_x0) 5
           (mkState [q 7 5; q 17 10] [[z 1; z (-2); z (-2)]]
              [[z (-1); z (-2); z (-6)]; [z 1; z 0; z 0];
               [z (-1); z 2; z (-2)]; [z 0; z 1; z 0]]
              [[z 1; z (-2); z (-2)]])).
  - repeat split; repeat constructor.
  - reflexivity.
  - by_evaluation (option_eq_dec result_eq_dec).
  - by_evaluation (option_eq_dec state_eq_dec).
  - intros j sj Hj Hsj.
    destruct (test1_run j sj ltac:(lia) Hsj) as [Hu Hm].
    split; [apply snap_unchanged_exact; exact Hu | exact Hm].
Defined.

Lemma returned_pair_is_KKT_witness :
  let x := [q 7 5; q 17 10] in
  let lambda_k := [q 4 5] in
  exists act : mat,
    incl act (inequality_rows (Some test1_ai) (Some test1_bi)) /\
    feasible None None (Some test1_ai) (Some test1_bi) x /\
    Forall (on_constraint x) act /\
    vadd (matvec test1_G x) test1_c
    = matvec (transpose (length x)
                (coefficients (equality_rows None None ++ act))) lambda_k /\
    length lambda_k = (equality_count None + length act)%nat /\
    all_nonnegative (skipn (equality_count None) lambda_k).
Proof.
  intros x lambda_k.
  apply (returned_pair_is_KKT 6 test1_G test1_c None None (Some test1_ai)
           (Some test1_bi) (Some test1_x0) ["solution find"%string]).
  - repeat split; repeat constructor.
  - by_evaluation (option_eq_dec result_eq_dec).
  - exact test1_run.
Defined.

Lemma returned_point_minimises_objective_witness :
  let x := [q 7 5; q 17 10] in
  feasible None None (Some test1_ai) (Some test1_bi) x /\
  forall y, length y = length test1_G ->
            feasible None None (Some test1_ai) (Some test1_bi) y ->
            objective test1_G test1_c x <= objective test1_G test1_c y.
Proof.
  intros x.
  apply (returned_point_minimises_objective 6 test1_G test1_c None None
           (Some test1_ai) (Some test1_bi) (Some test1_x0)
           ["solution find"%string] x [q 4 5]).
  - repeat split; repeat constructor.
  - by_evaluation mat_eq_dec.
  - exact test1_G_positive_semidefinite.
  - by_evaluation (option_eq_dec result_eq_dec).
  - exact test1_run.
Defined.

Lemma computed_pass_moves_one_row_witness :
  let ar := Computed.binary64 in
  let row := [1; 0x1.999999999999ap-4]%float in
  let s := Computed.mkState ar [1]%float [] [row] [] in
  let s' := Computed.mkState ar [0x1.9999999999998p-4]%float [row] [] [row] in
  Computed.iteration ar Computed.inv64 [[1]]%float [0]%float 1 0 [] s
  = Computed.Continue ar s' /\
  Permutation (Computed.ws_active ar s' ++ Computed.ws_inactive ar s')
              (Computed.ws_active ar s ++ Computed.ws_inactive ar s) /\
  ((Computed.ws_active ar s' = Computed.ws_active ar s /\
    Computed.ws_inactive ar s' = Computed.ws_inactive ar s /\
    Computed.ws ar s' = Computed.ws ar s)
   \/
   (exists (n : nat) (row : list float) (before after : list (list float)),
       Computed.ws_active ar s = before ++ row :: after /\
       length before = n /\
       Computed.ws_active ar s' = before ++ after /\
       Computed.ws_inactive ar s' = Computed.ws_inactive ar s ++ [row] /\
       Computed.ws ar s' = [] ++ Computed.ws_active ar s' /\
       Computed.xk ar s' = Computed.xk ar s)
   \/
   (exists (n : nat) (row : list float) (before after : list (list float)),
       Computed.ws_inactive ar s = before ++ row :: after /\
       length before = n /\
       Computed.ws_inactive ar s' = before ++ after /\
       Computed.ws_active ar s' = Computed.ws_active ar s ++ [row] /\
       Computed.ws ar s' = [] ++ Computed.ws_active ar s')).
Proof.
  intros ar row s s'.
  assert (H : Computed.iteration ar Computed.inv64 [[1]]%float [0]%float
                1 0 [] s = Computed.Continue ar s')
    by (vm_compute; reflexivity).
  split; [exact H|].
  exact (computed_pass_moves_one_row ar Computed.inv64 [[1]]%float [0]%float
           1 0 [] s s' H).
Defined.
